(** * Pulse 2.0: convolution filters, reductions and the kernel registry

    A shallow embedding of [include/image.hpp], [include/kernels.hpp],
    [src/kernels.cpp] and [src/filter.cpp].

    - C++ [float] is IEEE-754 binary32 and [double] is binary64; both are
      modelled bit-exactly with the executable specification of the
      Standard Library ([SpecFloat], precision 24 / 53, infinities at
      exponent 128 / 1024, round to nearest even); every operation
      rounds on its own (no contraction into fused multiply-adds).
    - C++ [int] and [size_t] are modelled by [Z]; the images considered
      have fewer than 2^31 samples, so no index computation wraps.
    - A [std::vector<uint8_t>] is a [list Z] of samples in [0, 255],
      read by position and updated in place with list insertion.
    - An exception is the outcome [Throw]; a construct whose behaviour
      the language leaves undefined (converting a NaN or an out-of-range
      [float] to [uint8_t]) is the outcome [Undefined].
    - An OpenMP work-sharing loop is modelled by the chunks its schedule
      produces, an owner for every chunk, and an interleaving of the
      per-thread iteration sequences chosen by the runtime. *)

From Stdlib Require Import ZArith List Lia Bool String Ascii QArith Qpower Lqa
  Permutation.
From Stdlib Require Import Floats.SpecFloat.
From stdpp Require Import numbers list.

Open Scope Z_scope.

(* ===================================================================== *)
(** ** Outcomes: normal return, exception, undefined behaviour *)
(* ===================================================================== *)

Inductive outcome (A : Type) : Type :=
| Ok (a : A)
| Throw (what : string)      (* std::invalid_argument(what) *)
| Undefined.                 (* the C++ standard gives no meaning *)

Arguments Ok {A} a.
Arguments Throw {A} what.
Arguments Undefined {A}.

Definition bind {A B} (m : outcome A) (k : A -> outcome B) : outcome B :=
  match m with
  | Ok a => k a
  | Throw w => Throw w
  | Undefined => Undefined
  end.

Notation "'do' x <- m ; k" := (bind m (fun x => k))
  (at level 10, x name, m at level 100, k at level 200).

(** [for (i : l) s = body(i, s)] with early exit on a failure. *)
Fixpoint for_each {A S : Type} (l : list A) (body : A -> S -> outcome S) (s : S)
  : outcome S :=
  match l with
  | [] => Ok s
  | a :: l' => do s' <- body a s; for_each l' body s'
  end.

(** The index range of [for (int i = lo; i < hi; ++i)]. *)
Definition range (lo hi : Z) : list Z := seqZ lo (hi - lo).

(* ===================================================================== *)
(** ** IEEE-754 arithmetic of the C++ scalar types *)
(* ===================================================================== *)

(** [float]: binary32. *)
Module f32.
Definition prec : Z := 24.
Definition emax : Z := 128.
Definition t := spec_float.
Definition zero : t := S754_zero false.                 (* 0.0f *)
Definition of_int (z : Z) : t := binary_normalize prec emax z 0 false.
Definition add : t -> t -> t := SFadd prec emax.
Definition mul : t -> t -> t := SFmul prec emax.
Definition div : t -> t -> t := SFdiv prec emax.
Definition sqrt : t -> t := SFsqrt prec emax.
Definition ltb : t -> t -> bool := SFltb.
(** [std::min(a, b)] is [(b < a) ? b : a]. *)
Definition min (a b : t) : t := if ltb b a then b else a.
(** [std::max(a, b)] is [(a < b) ? b : a]. *)
Definition max (a b : t) : t := if ltb a b then b else a.
(** [std::clamp(v, lo, hi)] is [(v < lo) ? lo : (hi < v) ? hi : v]. *)
Definition clamp (v lo hi : t) : t :=
  if ltb v lo then lo else if ltb hi v then hi else v.
End f32.

(** [double]: binary64. *)
Module f64.
Definition prec : Z := 53.
Definition emax : Z := 1024.
Definition t := spec_float.
Definition zero : t := S754_zero false.
Definition of_int (z : Z) : t := binary_normalize prec emax z 0 false.
Definition add : t -> t -> t := SFadd prec emax.
Definition sub : t -> t -> t := SFsub prec emax.
Definition mul : t -> t -> t := SFmul prec emax.
Definition div : t -> t -> t := SFdiv prec emax.
Definition ltb : t -> t -> bool := SFltb.
Definition leb : t -> t -> bool := SFleb.
End f64.

(** Truncation toward zero of a finite value; nothing for NaN and the
    infinities. *)
Definition trunc_float (f : spec_float) : option Z :=
  match f with
  | S754_zero _ => Some 0
  | S754_finite s m e => Some (cond_Zopp s (Z.shiftl (Z.pos m) e))
  | S754_infinity _ | S754_nan => None
  end.

(** [static_cast<uint8_t>(f)]: the fractional part is discarded; the
    behaviour is undefined when the truncated value is not in [0, 255]. *)
Definition u8_of_float (f : spec_float) : outcome Z :=
  match trunc_float f with
  | Some z => if (0 <=? z) && (z <=? 255) then Ok z else Undefined
  | None => Undefined
  end.

(* ===================================================================== *)
(** ** namespace img (image.hpp) *)
(* ===================================================================== *)

Module img.

Record GrayscaleImage : Type := mkGrayscaleImage {
  width : Z;
  height : Z;
  max_val : Z;
  data : list Z          (* row-major samples *)
}.

(** [GrayscaleImage(int w, int h, int maxv = 255)] with the default
    third argument: [w * h] zero samples. *)
Definition create (w h : Z) : GrayscaleImage :=
  mkGrayscaleImage w h 255 (replicate (Z.to_nat (w * h)) 0).

(** [pixel(x, y)], unchecked read of [data[y * width + x]]. *)
Definition pixel (im : GrayscaleImage) (x y : Z) : Z :=
  nth (Z.to_nat (y * width im + x)) (data im) 0.

(** [pixel(x, y) = v], unchecked write. *)
Definition set_pixel (im : GrayscaleImage) (x y v : Z) : GrayscaleImage :=
  mkGrayscaleImage (width im) (height im) (max_val im)
    (<[Z.to_nat (y * width im + x) := v]> (data im)).

(** [clamped_pixel(x, y)]. *)
Definition clamped_pixel (im : GrayscaleImage) (x y : Z) : Z :=
  let x := Z.max 0 (Z.min x (width im - 1)) in
  let y := Z.max 0 (Z.min y (height im - 1)) in
  nth (Z.to_nat (y * width im + x)) (data im) 0.

(** The data-model invariant of a grayscale buffer. *)
Definition wf (im : GrayscaleImage) : Prop :=
  0 <= width im /\ 0 <= height im /\
  Z.of_nat (length (data im)) = width im * height im /\
  width im * height im < 2 ^ 31 /\
  Forall (fun v => 0 <= v <= 255) (data im).

(** Every sample has the same value. *)
Definition constant (im : GrayscaleImage) (c : Z) : Prop :=
  Forall (fun v => v = c) (data im).

End img.

(* ===================================================================== *)
(** ** namespace kernels (kernels.hpp, kernels.cpp) *)
(* ===================================================================== *)

Module kernels.

Record Kernel : Type := mkKernel {
  data : list f32.t;
  size : Z;
  divisor : f32.t;
  name : string
}.

(** [at(x, y)] is [data[y * size + x]]. *)
Definition at_ (k : Kernel) (x y : Z) : f32.t :=
  nth (Z.to_nat (y * size k + x)) (data k) f32.zero.

(** [radius()] is [size / 2] on [int]. *)
Definition radius (k : Kernel) : Z := Z.quot (size k) 2.

(** A braced list of integer literals converted to [float]. *)
Definition make (ws : list Z) (s : Z) (div : Z) (n : string) : Kernel :=
  mkKernel (map f32.of_int ws) s (f32.of_int div) n.

Definition box_blur_3x3 : Kernel :=
  make [1; 1; 1;
        1; 1; 1;
        1; 1; 1] 3 9 "Box Blur 3x3".

Definition gaussian_blur_3x3 : Kernel :=
  make [1; 2; 1;
        2; 4; 2;
        1; 2; 1] 3 16 "Gaussian Blur 3x3".

Definition sharpen_3x3 : Kernel :=
  make [ 0; -1;  0;
        -1;  5; -1;
         0; -1;  0] 3 1 "Sharpen 3x3".

Definition sharpen_strong_3x3 : Kernel :=
  make [-1; -1; -1;
        -1;  9; -1;
        -1; -1; -1] 3 1 "Strong Sharpen 3x3".

Definition sobel_x_3x3 : Kernel :=
  make [-1; 0; 1;
        -2; 0; 2;
        -1; 0; 1] 3 1 "Sobel X".

Definition sobel_y_3x3 : Kernel :=
  make [-1; -2; -1;
         0;  0;  0;
         1;  2;  1] 3 1 "Sobel Y".

Definition prewitt_x_3x3 : Kernel :=
  make [-1; 0; 1;
        -1; 0; 1;
        -1; 0; 1] 3 1 "Prewitt X".

Definition prewitt_y_3x3 : Kernel :=
  make [-1; -1; -1;
         0;  0;  0;
         1;  1;  1] 3 1 "Prewitt Y".

Definition laplacian_3x3 : Kernel :=
  make [0;  1; 0;
        1; -4; 1;
        0;  1; 0] 3 1 "Laplacian".

Definition emboss_3x3 : Kernel :=
  make [-2; -1; 0;
        -1;  1; 1;
         0;  1; 2] 3 1 "Emboss".

Definition identity_3x3 : Kernel :=
  make [0; 0; 0;
        0; 1; 0;
        0; 0; 0] 3 1 "Identity".

Definition box_blur_5x5 : Kernel :=
  make [1; 1; 1; 1; 1;
        1; 1; 1; 1; 1;
        1; 1; 1; 1; 1;
        1; 1; 1; 1; 1;
        1; 1; 1; 1; 1] 5 25 "Box Blur 5x5".

Definition gaussian_blur_5x5 : Kernel :=
  make [1;  4;  6;  4; 1;
        4; 16; 24; 16; 4;
        6; 24; 36; 24; 6;
        4; 16; 24; 16; 4;
        1;  4;  6;  4; 1] 5 256 "Gaussian Blur 5x5".

Definition unsharp_mask_5x5 : Kernel :=
  make [-1;  -4;  -6;  -4; -1;
        -4; -16; -24; -16; -4;
        -6; -24; 476; -24; -6;
        -4; -16; -24; -16; -4;
        -1;  -4;  -6;  -4; -1] 5 256 "Unsharp Mask 5x5".

Definition sobel_x_5x5 : Kernel :=
  make [-1;  -2; 0;  2; 1;
        -4;  -8; 0;  8; 4;
        -6; -12; 0; 12; 6;
        -4;  -8; 0;  8; 4;
        -1;  -2; 0;  2; 1] 5 1 "Sobel X 5x5".

Definition sobel_y_5x5 : Kernel :=
  make [-1; -4;  -6; -4; -1;
        -2; -8; -12; -8; -2;
         0;  0;   0;  0;  0;
         2;  8;  12;  8;  2;
         1;  4;   6;  4;  1] 5 1 "Sobel Y 5x5".

Definition log_5x5 : Kernel :=
  make [ 0;  0; -1;  0;  0;
         0; -1; -2; -1;  0;
        -1; -2; 16; -2; -1;
         0; -1; -2; -1;  0;
         0;  0; -1;  0;  0] 5 1 "LoG 5x5".

(** [std::tolower] in the "C" locale on one [unsigned char]. *)
Definition tolower (c : ascii) : ascii :=
  let n := nat_of_ascii c in
  if ((65 <=? n) && (n <=? 90))%nat then ascii_of_nat (n + 32) else c.

(** [std::transform(s.begin(), s.end(), s.begin(), tolower)]. *)
Fixpoint lowercase (s : string) : string :=
  match s with
  | EmptyString => EmptyString
  | String c s' => String (tolower c) (lowercase s')
  end.

Local Open Scope string_scope.

Definition get_kernel_by_name (name : string) : outcome Kernel :=
  let lower_name := lowercase name in
  let is_ (s : string) : bool := String.eqb lower_name s in
  if is_ "box_blur" || is_ "box_blur_3x3" || is_ "blur" || is_ "average"
  then Ok box_blur_3x3
  else if is_ "gaussian" || is_ "gaussian_blur" || is_ "gaussian_blur_3x3"
          || is_ "gaussian_3x3"
  then Ok gaussian_blur_3x3
  else if is_ "sharpen" || is_ "sharpen_3x3" then Ok sharpen_3x3
  else if is_ "sharpen_strong" || is_ "strong_sharpen" then Ok sharpen_strong_3x3
  else if is_ "sobel_x" || is_ "sobel_x_3x3" || is_ "sobelx" then Ok sobel_x_3x3
  else if is_ "sobel_y" || is_ "sobel_y_3x3" || is_ "sobely" then Ok sobel_y_3x3
  else if is_ "prewitt_x" || is_ "prewittx" then Ok prewitt_x_3x3
  else if is_ "prewitt_y" || is_ "prewitty" then Ok prewitt_y_3x3
  else if is_ "laplacian" || is_ "laplacian_3x3" then Ok laplacian_3x3
  else if is_ "emboss" || is_ "emboss_3x3" then Ok emboss_3x3
  else if is_ "identity" || is_ "identity_3x3" then Ok identity_3x3
  else if is_ "box_blur_5x5" || is_ "blur_5x5" then Ok box_blur_5x5
  else if is_ "gaussian_5x5" || is_ "gaussian_blur_5x5" then Ok gaussian_blur_5x5
  else if is_ "unsharp" || is_ "unsharp_mask" || is_ "unsharp_mask_5x5"
  then Ok unsharp_mask_5x5
  else if is_ "sobel_x_5x5" then Ok sobel_x_5x5
  else if is_ "sobel_y_5x5" then Ok sobel_y_5x5
  else if is_ "log" || is_ "log_5x5" || is_ "laplacian_of_gaussian"
  then Ok log_5x5
  else Throw ("Unknown kernel: " ++ name).

(** The names [get_kernel_by_name] recognises, in the order tested. *)
Definition catalog : list (string * Kernel) :=
  [ ("box_blur", box_blur_3x3); ("box_blur_3x3", box_blur_3x3);
    ("blur", box_blur_3x3); ("average", box_blur_3x3);
    ("gaussian", gaussian_blur_3x3); ("gaussian_blur", gaussian_blur_3x3);
    ("gaussian_blur_3x3", gaussian_blur_3x3);
    ("gaussian_3x3", gaussian_blur_3x3);
    ("sharpen", sharpen_3x3); ("sharpen_3x3", sharpen_3x3);
    ("sharpen_strong", sharpen_strong_3x3);
    ("strong_sharpen", sharpen_strong_3x3);
    ("sobel_x", sobel_x_3x3); ("sobel_x_3x3", sobel_x_3x3);
    ("sobelx", sobel_x_3x3);
    ("sobel_y", sobel_y_3x3); ("sobel_y_3x3", sobel_y_3x3);
    ("sobely", sobel_y_3x3);
    ("prewitt_x", prewitt_x_3x3); ("prewittx", prewitt_x_3x3);
    ("prewitt_y", prewitt_y_3x3); ("prewitty", prewitt_y_3x3);
    ("laplacian", laplacian_3x3); ("laplacian_3x3", laplacian_3x3);
    ("emboss", emboss_3x3); ("emboss_3x3", emboss_3x3);
    ("identity", identity_3x3); ("identity_3x3", identity_3x3);
    ("box_blur_5x5", box_blur_5x5); ("blur_5x5", box_blur_5x5);
    ("gaussian_5x5", gaussian_blur_5x5);
    ("gaussian_blur_5x5", gaussian_blur_5x5);
    ("unsharp", unsharp_mask_5x5); ("unsharp_mask", unsharp_mask_5x5);
    ("unsharp_mask_5x5", unsharp_mask_5x5);
    ("sobel_x_5x5", sobel_x_5x5); ("sobel_y_5x5", sobel_y_5x5);
    ("log", log_5x5); ("log_5x5", log_5x5);
    ("laplacian_of_gaussian", log_5x5) ].

Local Close Scope string_scope.

(** First entry of an association list with the given key. *)
Fixpoint assoc (key : string) (l : list (string * Kernel)) : option Kernel :=
  match l with
  | [] => None
  | (n, k) :: l' => if String.eqb key n then Some k else assoc key l'
  end.

End kernels.

(* ===================================================================== *)
(** ** The OpenMP work-sharing model *)
(* ===================================================================== *)

Module omp.

Inductive Schedule : Type := STATIC | DYNAMIC | GUIDED.

(** The choices the OpenMP runtime makes during one parallel region:
    the thread limit in force when [num_threads] is not set, the
    schedule used by a loop without a [schedule] clause, which thread
    claims each chunk of a dynamic or guided loop, and which thread
    performs the next elementary step. *)
Record runtime : Type := mkRuntime {
  max_threads : Z;
  def_schedule : Schedule;
  claims : list nat;
  picks : list nat
}.

(** Chunks of [c] consecutive iterations of [lo, hi). *)
Fixpoint fixed_chunks (fuel : nat) (c lo hi : Z) : list (list Z) :=
  match fuel with
  | O => []
  | S fuel' =>
      if hi <=? lo then []
      else range lo (Z.min hi (lo + c)) :: fixed_chunks fuel' c (lo + c) hi
  end.

(** Chunks proportional to the remaining iterations divided by the
    team size, never smaller than [k] except for the last one. *)
Fixpoint guided_chunks (fuel : nat) (k team lo hi : Z) : list (list Z) :=
  match fuel with
  | O => []
  | S fuel' =>
      if hi <=? lo then []
      else
        let remaining := hi - lo in
        let c := Z.min remaining (Z.max k ((remaining + team - 1) / team)) in
        range lo (lo + c) :: guided_chunks fuel' k team (lo + c) hi
  end.

(** [schedule(kind)] when [chunk <= 0], [schedule(kind, chunk)] otherwise,
    for the loop [for (i = 0; i < n; ++i)] run by [team] threads. *)
Definition chunks (s : Schedule) (chunk team n : Z) : list (list Z) :=
  let fuel := Z.to_nat n in
  match s with
  | STATIC =>
      if 0 <? chunk then fixed_chunks fuel chunk 0 n
      else fixed_chunks fuel ((n + team - 1) / team) 0 n
  | DYNAMIC => fixed_chunks fuel (if 0 <? chunk then chunk else 1) 0 n
  | GUIDED => guided_chunks fuel (if 0 <? chunk then chunk else 1) team 0 n
  end.

(** The thread that executes chunk number [j]: round-robin for a static
    schedule, first come first served (the runtime's claim) otherwise. *)
Definition owner (s : Schedule) (team : nat) (rt : runtime) (j : nat) : nat :=
  match s with
  | STATIC => (j mod team)%nat
  | DYNAMIC | GUIDED => (nth j (claims rt) O mod team)%nat
  end.

(** The iterations of thread [t], in the order it executes them. *)
Fixpoint thread_work (own : nat -> nat) (t : nat) (j : nat) (cs : list (list Z))
  : list Z :=
  match cs with
  | [] => []
  | c :: cs' =>
      if Nat.eqb (own j) t then c ++ thread_work own t (S j) cs'
      else thread_work own t (S j) cs'
  end.

(** Threads advance one elementary step at a time as the runtime picks
    them; at the closing barrier every thread has finished its work. *)
Fixpoint run_team {P : Type} (picks : list nat) (works : list (list P)) : list P :=
  match picks with
  | [] => concat works
  | i :: picks' =>
      match works !! i with
      | Some (a :: rest) => a :: run_team picks' (<[i := rest]> works)
      | _ => run_team picks' works
      end
  end.

(** Number of threads of the team: [omp_set_num_threads(n)] when the
    configuration asks for it, the limit in force otherwise. *)
Definition team_size (num_threads : Z) (rt : runtime) : nat :=
  Z.to_nat (if 0 <? num_threads then num_threads else max_threads rt).

(** [#pragma omp parallel for schedule(s, chunk)] over [0, n): the order
    in which the elementary steps [steps i] of all iterations happen. *)
Definition parallel_for {P : Type} (s : Schedule) (chunk : Z) (team : nat)
    (rt : runtime) (n : Z) (steps : Z -> list P) : list P :=
  let cs := chunks s chunk (Z.of_nat team) n in
  run_team (picks rt)
    (map (fun t => flat_map steps (thread_work (owner s team rt) t O cs))
         (seq 0 team)).

(** The iterations each thread of the team receives (a work-sharing loop
    seen from the threads, for the reductions). *)
Definition shares (s : Schedule) (chunk : Z) (team : nat) (rt : runtime) (n : Z)
  : list (list Z) :=
  let cs := chunks s chunk (Z.of_nat team) n in
  map (fun t => thread_work (owner s team rt) t O cs) (seq 0 team).

(** The order in which the threads of the team pass a critical section
    or combine their reduction copies. *)
Definition arrival (team : nat) (rt : runtime) : list nat :=
  run_team (picks rt) (map (fun t => [t]) (seq 0 team)).

Definition wf (rt : runtime) : Prop := 1 <= max_threads rt.

End omp.

(* ===================================================================== *)
(** ** namespace filter (filter.hpp, filter.cpp): convolution *)
(* ===================================================================== *)

Module filter.

Export omp.

Record FilterConfig : Type := mkFilterConfig {
  num_threads : Z;
  schedule : Schedule;
  chunk_size : Z;
  use_tiling : bool;
  tile_size : Z
}.


(** The literal [255.0f]. *)
Definition f255 : f32.t := f32.of_int 255.

(** The two kernel loops shared, word for word, by every variant:
    [for ky in [-radius, radius]], [for kx in [-radius, radius]],
    [sum += float(input.pixel(px, py)) * kernel.at(kx + radius, ky + radius)]
    with [px], [py] clamped to the edge. *)
Definition conv_sum (input : img.GrayscaleImage) (kernel : kernels.Kernel)
    (x y : Z) : f32.t :=
  let radius := kernels.radius kernel in
  fold_left (fun sum ky =>
    fold_left (fun sum kx =>
      let px := x + kx in
      let py := y + ky in
      let px := Z.max 0 (Z.min px (img.width input - 1)) in
      let py := Z.max 0 (Z.min py (img.height input - 1)) in
      let pixel_val := f32.of_int (img.pixel input px py) in
      let kernel_val := kernels.at_ kernel (kx + radius) (ky + radius) in
      f32.add sum (f32.mul pixel_val kernel_val))
      (range (- radius) (radius + 1)) sum)
    (range (- radius) (radius + 1)) f32.zero.

(** Serial body: [sum /= divisor; sum = max(0.0f, min(255.0f, sum));
    static_cast<uint8_t>(sum)]. *)
Definition serial_sample (input : img.GrayscaleImage) (kernel : kernels.Kernel)
    (x y : Z) : outcome Z :=
  let sum := conv_sum input kernel x y in
  let sum := f32.div sum (kernels.divisor kernel) in
  let sum := f32.max f32.zero (f32.min f255 sum) in
  u8_of_float sum.

(** Parallel and tiled body:
    [static_cast<uint8_t>(std::clamp(sum / divisor, 0.0f, 255.0f))]. *)
Definition parallel_sample (input : img.GrayscaleImage) (kernel : kernels.Kernel)
    (x y : Z) : outcome Z :=
  let sum := conv_sum input kernel x y in
  u8_of_float (f32.clamp (f32.div sum (kernels.divisor kernel)) f32.zero f255).

(** [output.pixel(x, y) = sample(x, y)]. *)
Definition store (sample : Z -> Z -> outcome Z) (p : Z * Z)
    (output : img.GrayscaleImage) : outcome img.GrayscaleImage :=
  do v <- sample (fst p) (snd p); Ok (img.set_pixel output (fst p) (snd p) v).

Definition apply_filter_serial (input : img.GrayscaleImage)
    (kernel : kernels.Kernel) : outcome img.GrayscaleImage :=
  let output := img.create (img.width input) (img.height input) in
  for_each (range 0 (img.height input)) (fun y output =>
    for_each (range 0 (img.width input)) (fun x output =>
      store (serial_sample input kernel) (x, y) output) output) output.

(** The pixels one iteration of the row loop writes, in order. *)
Definition row_steps (w : Z) (y : Z) : list (Z * Z) :=
  map (fun x => (x, y)) (range 0 w).

Definition apply_filter_parallel (input : img.GrayscaleImage)
    (kernel : kernels.Kernel) (config : FilterConfig) (rt : runtime)
    : outcome img.GrayscaleImage :=
  let output := img.create (img.width input) (img.height input) in
  let team := team_size (num_threads config) rt in
  let rows (s : Schedule) (chunk : Z) :=
    parallel_for s chunk team rt (img.height input) (row_steps (img.width input)) in
  let order :=
    match schedule config with
    | STATIC =>
        if 0 <? chunk_size config then rows STATIC (chunk_size config)
        else rows STATIC 0
    | DYNAMIC =>
        if 0 <? chunk_size config then rows DYNAMIC (chunk_size config)
        else rows DYNAMIC 0
    | GUIDED =>
        if 0 <? chunk_size config then rows GUIDED (chunk_size config)
        else rows GUIDED 0
    end in
  for_each order (store (parallel_sample input kernel)) output.

(** The pixels of tile number [tile_idx], in the order of the two tile
    loops. *)
Definition tile_steps (w h tile_size num_tiles_x : Z) (tile_idx : Z)
    : list (Z * Z) :=
  let tile_y := Z.quot tile_idx num_tiles_x in
  let tile_x := Z.rem tile_idx num_tiles_x in
  let y_start := tile_y * tile_size in
  let y_end := Z.min (y_start + tile_size) h in
  let x_start := tile_x * tile_size in
  let x_end := Z.min (x_start + tile_size) w in
  flat_map (fun y => map (fun x => (x, y)) (range x_start x_end))
           (range y_start y_end).

Definition apply_filter_tiled (input : img.GrayscaleImage)
    (kernel : kernels.Kernel) (config : FilterConfig) (rt : runtime)
    : outcome img.GrayscaleImage :=
  let output := img.create (img.width input) (img.height input) in
  let tile_size := tile_size config in
  let team := team_size (num_threads config) rt in
  let num_tiles_y := Z.quot (img.height input + tile_size - 1) tile_size in
  let num_tiles_x := Z.quot (img.width input + tile_size - 1) tile_size in
  let total_tiles := num_tiles_x * num_tiles_y in
  let order :=
    parallel_for DYNAMIC 0 team rt total_tiles
      (tile_steps (img.width input) (img.height input) tile_size num_tiles_x) in
  for_each order (store (parallel_sample input kernel)) output.

(* ------------------------------------------------------------------- *)
(** *** Sobel gradient magnitude *)

Definition sobel_x : list (list Z) := [[-1; 0; 1]; [-2; 0; 2]; [-1; 0; 1]].
Definition sobel_y : list (list Z) := [[-1; -2; -1]; [0; 0; 0]; [1; 2; 1]].

(** [a[i][j]] of a [const int a[3][3]]. *)
Definition at2 (a : list (list Z)) (i j : Z) : Z :=
  nth (Z.to_nat j) (nth (Z.to_nat i) a []) 0.

(** The body of the pixel loops, identical in both Sobel functions. *)
Definition sobel_sample (input : img.GrayscaleImage) (x y : Z) : outcome Z :=
  let '(gx, gy) :=
    fold_left (fun g ky =>
      fold_left (fun (g : f32.t * f32.t) kx =>
        let px := Z.max 0 (Z.min (x + kx) (img.width input - 1)) in
        let py := Z.max 0 (Z.min (y + ky) (img.height input - 1)) in
        let pixel := f32.of_int (img.pixel input px py) in
        (f32.add (fst g) (f32.mul pixel (f32.of_int (at2 sobel_x (ky + 1) (kx + 1)))),
         f32.add (snd g) (f32.mul pixel (f32.of_int (at2 sobel_y (ky + 1) (kx + 1))))))
        (range (-1) 2) g)
      (range (-1) 2) (f32.zero, f32.zero) in
  let magnitude := f32.sqrt (f32.add (f32.mul gx gx) (f32.mul gy gy)) in
  u8_of_float (f32.min f255 magnitude).

Definition sobel_edge_detection_serial (input : img.GrayscaleImage)
    : outcome img.GrayscaleImage :=
  let output := img.create (img.width input) (img.height input) in
  for_each (range 0 (img.height input)) (fun y output =>
    for_each (range 0 (img.width input)) (fun x output =>
      store (sobel_sample input) (x, y) output) output) output.

Definition sobel_edge_detection_parallel (input : img.GrayscaleImage)
    (config : FilterConfig) (rt : runtime) : outcome img.GrayscaleImage :=
  let output := img.create (img.width input) (img.height input) in
  let team := team_size (num_threads config) rt in
  let order :=
    parallel_for STATIC 0 team rt (img.height input)
      (row_steps (img.width input)) in
  for_each order (store (sobel_sample input)) output.

(* ------------------------------------------------------------------- *)
(** *** Multi-pass filtering *)

(** The [for (name : kernel_names)] loop on [current]. *)
Fixpoint chain_loop (current : img.GrayscaleImage) (kernel_names : list string)
    : outcome img.GrayscaleImage :=
  match kernel_names with
  | [] => Ok current
  | name :: rest =>
      do k <- kernels.get_kernel_by_name name;
      do current <- apply_filter_serial current k;
      chain_loop current rest
  end.

Definition apply_filter_chain_serial (input : img.GrayscaleImage)
    (kernel_names : list string) : outcome img.GrayscaleImage :=
  match kernel_names with
  | [] => Ok input
  | _ => let current := input in chain_loop current kernel_names
  end.

End filter.

(* ===================================================================== *)
(** ** namespace filter: reductions (statistics and histogram) *)
(* ===================================================================== *)

Module reduce.

Export omp.

(** The scalar operations [compute_statistics_parallel] performs on
    [double] values, together with the initial values OpenMP gives the
    private copies of a [min] and a [max] reduction variable. *)
Record arithmetic (R : Type) : Type := mkArithmetic {
  of_int : Z -> R;
  add : R -> R -> R;
  sub : R -> R -> R;
  mul : R -> R -> R;
  div : R -> R -> R;
  ltb : R -> R -> bool;
  min_init : R;
  max_init : R
}.

Arguments of_int {R} _ _.
Arguments add {R} _ _ _.
Arguments sub {R} _ _ _.
Arguments mul {R} _ _ _.
Arguments div {R} _ _ _.
Arguments ltb {R} _ _ _.
Arguments min_init {R} _.
Arguments max_init {R} _.

(** The arithmetic of the program: IEEE binary64. The private copy of a
    [min] reduction starts at the largest and that of a [max] reduction
    at the least value of the type, the infinities for a [double]. *)
Definition ieee_double : arithmetic f64.t :=
  mkArithmetic f64.t f64.of_int f64.add f64.sub f64.mul f64.div f64.ltb
    (S754_infinity false) (S754_infinity true).

(** Exact arithmetic on rationals (division by zero yields zero). *)
Definition exact : arithmetic Q :=
  mkArithmetic Q inject_Z Qplus Qminus Qmult Qdiv
    (fun a b => negb (Qle_bool b a)) (inject_Z 255) (inject_Z 0).

Record statistics (R : Type) : Type := mkStatistics {
  min_val : R;
  max_val : R;
  mean : R;
  variance : R
}.

Arguments mkStatistics {R} _ _ _ _.
Arguments min_val {R} _.
Arguments max_val {R} _.
Arguments mean {R} _.
Arguments variance {R} _.

(** The four reduction variables [sum], [sum_sq], [local_min],
    [local_max]. *)
Record accum (R : Type) : Type := mkAccum {
  sum : R;
  sum_sq : R;
  local_min : R;
  local_max : R
}.

Arguments mkAccum {R} _ _ _ _.
Arguments sum {R} _.
Arguments sum_sq {R} _.
Arguments local_min {R} _.
Arguments local_max {R} _.

Section Statistics.
Context {R : Type} (A : arithmetic R).

(** One iteration of the loop on the private copies of a thread. *)
Definition stat_step (data : list Z) (a : accum R) (i : Z) : accum R :=
  let val := of_int A (nth (Z.to_nat i) data 0) in
  mkAccum (add A (sum a) val)
          (add A (sum_sq a) (mul A val val))
          (if ltb A val (local_min a) then val else local_min a)
          (if ltb A (local_max a) val then val else local_max a).

(** The private copies of a thread after its share of the loop. *)
Definition private (data : list Z) (share : list Z) : accum R :=
  fold_left (stat_step data) share
    (mkAccum (of_int A 0) (of_int A 0) (min_init A) (max_init A)).

(** Combining a private copy into the original variable. *)
Definition combine (out inn : accum R) : accum R :=
  mkAccum (add A (sum out) (sum inn))
          (add A (sum_sq out) (sum_sq inn))
          (if ltb A (local_min inn) (local_min out)
           then local_min inn else local_min out)
          (if ltb A (local_max out) (local_max inn)
           then local_max inn else local_max out).

Definition compute_statistics (im : img.GrayscaleImage) (rt : runtime)
    : statistics R :=
  let n := Z.of_nat (length (img.data im)) in
  if n =? 0 then
    mkStatistics (of_int A 0) (of_int A 0) (of_int A 0) (of_int A 0)
  else
    let team := team_size 0 rt in
    let privates :=
      map (private (img.data im)) (shares (def_schedule rt) 0 team rt n) in
    let original :=
      mkAccum (of_int A 0) (of_int A 0) (of_int A 255) (of_int A 0) in
    let final :=
      fold_left (fun out t => combine out (nth t privates original))
                (arrival team rt) original in
    let mean := div A (sum final) (of_int A n) in
    mkStatistics (local_min final) (local_max final) mean
      (sub A (div A (sum_sq final) (of_int A n)) (mul A mean mean)).
End Statistics.

(** [compute_statistics_parallel], on [double]. *)
Definition compute_statistics_parallel (im : img.GrayscaleImage) (rt : runtime)
    : statistics f64.t :=
  compute_statistics ieee_double im rt.

(* ------------------------------------------------------------------- *)
(** *** Histogram *)

(** [std::vector<int>(256, 0)]. *)
Definition zero_bins : list Z := replicate 256 0.

(** [local_hist[v]++]. *)
Definition bump (hist : list Z) (v : Z) : list Z :=
  <[Z.to_nat v := nth (Z.to_nat v) hist 0 + 1]> hist.

(** The thread-local histogram of the samples at the positions of one
    thread's share. *)
Definition local_histogram (data : list Z) (share : list Z) : list Z :=
  fold_left (fun local_hist i => bump local_hist (nth (Z.to_nat i) data 0))
            share zero_bins.

(** The critical section: [histogram[i] += local_hist[i]] for
    [i = 0 .. 255]. *)
Definition merge (histogram local_hist : list Z) : list Z :=
  fold_left (fun histogram i =>
               <[Z.to_nat i := nth (Z.to_nat i) histogram 0
                               + nth (Z.to_nat i) local_hist 0]> histogram)
            (range 0 256) histogram.

Definition compute_histogram_parallel (im : img.GrayscaleImage) (rt : runtime)
    : list Z :=
  let histogram := zero_bins in
  let n := Z.of_nat (length (img.data im)) in
  let team := team_size 0 rt in
  let locals :=
    map (local_histogram (img.data im)) (shares (def_schedule rt) 0 team rt n) in
  fold_left (fun histogram t => merge histogram (nth t locals zero_bins))
            (arrival team rt) histogram.

(** A runtime with a single worker. *)
Definition single_worker : runtime := mkRuntime 1 STATIC [] [].

End reduce.

(* ===================================================================== *)
(** ** Reference definitions the properties are stated against *)
(* ===================================================================== *)

Module reference.

(** Number of samples equal to [v]. *)
Definition count (v : Z) (data : list Z) : Z :=
  Z.of_nat (count_occ Z.eq_dec data v).

(** The kernel offsets [(kx, ky)] of [[-radius, radius]^2], rows first. *)
Definition offsets (radius : Z) : list (Z * Z) :=
  flat_map (fun ky => map (fun kx => (kx, ky)) (range (- radius) (radius + 1)))
           (range (- radius) (radius + 1)).

(** The weighted neighbourhood sum with clamp-to-edge reads. *)
Definition weighted_sum (input : img.GrayscaleImage) (kernel : kernels.Kernel)
    (x y : Z) : f32.t :=
  let radius := kernels.radius kernel in
  fold_left (fun s (k : Z * Z) =>
               f32.add s (f32.mul
                 (f32.of_int (img.clamped_pixel input (x + fst k) (y + snd k)))
                 (kernels.at_ kernel (fst k + radius) (snd k + radius))))
            (offsets radius) f32.zero.

(** Saturation of [v] to [[0, hi]]. *)
Definition saturate (hi : Z) (v : f32.t) : f32.t :=
  f32.max f32.zero (f32.min (f32.of_int hi) v).

(** The output sample at [(x, y)] when results are saturated to
    [[0, hi]]: weighted sum, division by the divisor, saturation,
    conversion to a byte. *)
Definition sample (hi : Z) (input : img.GrayscaleImage) (kernel : kernels.Kernel)
    (x y : Z) : outcome Z :=
  u8_of_float
    (saturate hi (f32.div (weighted_sum input kernel x y) (kernels.divisor kernel))).

(** One step of a filter chain. *)
Definition chain_step (acc : outcome img.GrayscaleImage) (name : string)
    : outcome img.GrayscaleImage :=
  do im <- acc;
  do k <- kernels.get_kernel_by_name name;
  filter.apply_filter_serial im k.


End reference.

(* ===================================================================== *)
(** ** Definitions the properties and their proofs are stated with *)
(* ===================================================================== *)

Module grid.
(** The position of pixel [(x, y)] in a row-major buffer of width [w]. *)
Definition index (w : Z) (p : Z * Z) : nat := Z.to_nat (snd p * w + fst p).

Definition in_bounds (w h : Z) (p : Z * Z) : Prop :=
  0 <= fst p < w /\ 0 <= snd p < h.

(** All pixels of a [w] by [h] image in the order of the serial loops. *)
Definition all_pixels (w h : Z) : list (Z * Z) :=
  flat_map (filter.row_steps w) (range 0 h).

(** The pixels of [ps] occupy consecutive positions from [n] on. *)
Fixpoint consecutive (w : Z) (n : nat) (ps : list (Z * Z)) : Prop :=
  match ps with
  | [] => True
  | p :: ps' => index w p = n /\ consecutive w (S n) ps'
  end.

(** The image whose sample at [p] is [g p]. *)
Definition render (w h : Z) (g : Z * Z -> Z) : img.GrayscaleImage :=
  img.mkGrayscaleImage w h 255 (map g (all_pixels w h)).

End grid.

Module ieee.

(** The exponent [e] is the one the format assigns to the magnitude
    [m * 2^e]. *)
Definition canonical (prec emax : Z) (m e : Z) : Prop :=
  fexp prec emax (Zdigits2 m + e) = e.

(** [f] is the floating-point number of the given format whose value is
    the integer [z]. *)
Definition is_int (prec emax : Z) (f : spec_float) (z : Z) : Prop :=
  match f with
  | S754_zero _ => z = 0
  | S754_finite s m e =>
      z <> 0 /\ s = (z <? 0) /\ e <= 0 /\ Z.pos m = Z.abs z * 2 ^ (- e) /\
      canonical prec emax (Z.pos m) e /\ e <= emax - prec
  | S754_infinity _ | S754_nan => False
  end.

(** [f] is zero or above: a zero or infinity of positive sign, or a
    positive finite number. *)
Definition nonnegative (f : spec_float) : Prop :=
  match f with
  | S754_zero s | S754_infinity s | S754_finite s _ _ => s = false
  | S754_nan => False
  end.

End ieee.

Module outcomes.

(** The value of a normal return (zero for the other outcomes). *)
Definition value (o : outcome Z) : Z :=
  match o with
  | Ok z => z
  | Throw _ | Undefined => 0
  end.

End outcomes.

Module examples.


(** A single white pixel. *)
Definition white_pixel : img.GrayscaleImage :=
  img.mkGrayscaleImage 1 1 255 [255].


(** The 8 x 8 buffer with every sample equal to 77. *)
Definition flat_8x8 : img.GrayscaleImage :=
  img.mkGrayscaleImage 8 8 255 (replicate 64 77).

(** The 3 x 3 kernel of zero weights with the divisor zero,
    [Kernel({0, 0, 0, 0, 0, 0, 0, 0, 0}, 3, 0.0f)]: every normalised sum
    is [0.0f / 0.0f]. *)
Definition null_kernel : kernels.Kernel :=
  kernels.mkKernel (replicate 9 f32.zero) 3 f32.zero "null".



(** A runtime with four threads, a guided default schedule and some
    arbitrary claims and picks. *)
Definition runtime4 : omp.runtime :=
  omp.mkRuntime 4 omp.GUIDED [1; 0; 3; 2; 2; 0]%nat
                [3; 2; 2; 1; 0; 0; 1; 5; 1; 2; 3; 3; 3; 0]%nat.

Definition guided3 : filter.FilterConfig :=
  filter.mkFilterConfig 3 omp.GUIDED 2 true 3.

(** The buffers of the scenarios of the reductions. *)
Definition ramp : img.GrayscaleImage :=
  img.mkGrayscaleImage 4 1 255 [0; 10; 20; 30].

Definition sparse : img.GrayscaleImage :=
  img.mkGrayscaleImage 10 1 255 [0; 0; 0; 0; 255; 0; 0; 0; 0; 0].

End examples.

Module integer.

(** Sum of a list of integers. *)
Definition sum (l : list Z) : Z := fold_right Z.add 0 l.

(** Sum of the squares. *)
Definition sum_sq (l : list Z) : Z := sum (map (fun v => v * v) l).

(** Least and greatest element of a list of byte samples (255 and 0 for
    the empty list). *)
Definition minimum (l : list Z) : Z := fold_right Z.min 255 l.
Definition maximum (l : list Z) : Z := fold_right Z.max 0 l.

(** The kernel [k] is the odd-sized square matrix of the integer weights
    [ws] with the non-zero integer divisor [d], small enough for every
    partial sum of products with byte samples to fit the 24-bit
    mantissa of a [float]. *)
Definition kernel (k : kernels.Kernel) (ws : list Z) (d : Z) : Prop :=
  kernels.data k = map f32.of_int ws /\
  kernels.divisor k = f32.of_int d /\
  0 <= kernels.radius k /\
  kernels.size k = 2 * kernels.radius k + 1 /\
  Z.of_nat (length ws) = kernels.size k * kernels.size k /\
  255 * sum (map Z.abs ws) < 2 ^ 24 /\
  d <> 0 /\ Z.abs d < 2 ^ 24.

(** The exact weighted neighbourhood sum, on integers. *)
Definition weighted_sum (input : img.GrayscaleImage) (k : kernels.Kernel)
    (ws : list Z) (x y : Z) : Z :=
  let radius := kernels.radius k in
  sum (map (fun o : Z * Z =>
              img.clamped_pixel input (x + fst o) (y + snd o)
              * nth (Z.to_nat ((snd o + radius) * kernels.size k + (fst o + radius)))
                    ws 0)
           (reference.offsets radius)).

(** The catalog entries with their integer weights. *)
Definition catalog : list (kernels.Kernel * (list Z * Z)) :=
  [ (kernels.box_blur_3x3, ([1; 1; 1; 1; 1; 1; 1; 1; 1], 9));
    (kernels.gaussian_blur_3x3, ([1; 2; 1; 2; 4; 2; 1; 2; 1], 16));
    (kernels.sharpen_3x3, ([0; -1; 0; -1; 5; -1; 0; -1; 0], 1));
    (kernels.sharpen_strong_3x3, ([-1; -1; -1; -1; 9; -1; -1; -1; -1], 1));
    (kernels.sobel_x_3x3, ([-1; 0; 1; -2; 0; 2; -1; 0; 1], 1));
    (kernels.sobel_y_3x3, ([-1; -2; -1; 0; 0; 0; 1; 2; 1], 1));
    (kernels.prewitt_x_3x3, ([-1; 0; 1; -1; 0; 1; -1; 0; 1], 1));
    (kernels.prewitt_y_3x3, ([-1; -1; -1; 0; 0; 0; 1; 1; 1], 1));
    (kernels.laplacian_3x3, ([0; 1; 0; 1; -4; 1; 0; 1; 0], 1));
    (kernels.emboss_3x3, ([-2; -1; 0; -1; 1; 1; 0; 1; 2], 1));
    (kernels.identity_3x3, ([0; 0; 0; 0; 1; 0; 0; 0; 0], 1));
    (kernels.box_blur_5x5,
      ([1; 1; 1; 1; 1; 1; 1; 1; 1; 1; 1; 1; 1; 1; 1; 1; 1; 1; 1; 1;
        1; 1; 1; 1; 1], 25));
    (kernels.gaussian_blur_5x5,
      ([1; 4; 6; 4; 1; 4; 16; 24; 16; 4; 6; 24; 36; 24; 6;
        4; 16; 24; 16; 4; 1; 4; 6; 4; 1], 256));
    (kernels.unsharp_mask_5x5,
      ([-1; -4; -6; -4; -1; -4; -16; -24; -16; -4; -6; -24; 476; -24; -6;
        -4; -16; -24; -16; -4; -1; -4; -6; -4; -1], 256));
    (kernels.sobel_x_5x5,
      ([-1; -2; 0; 2; 1; -4; -8; 0; 8; 4; -6; -12; 0; 12; 6;
        -4; -8; 0; 8; 4; -1; -2; 0; 2; 1], 1));
    (kernels.sobel_y_5x5,
      ([-1; -4; -6; -4; -1; -2; -8; -12; -8; -2; 0; 0; 0; 0; 0;
        2; 8; 12; 8; 2; 1; 4; 6; 4; 1], 1));
    (kernels.log_5x5,
      ([0; 0; -1; 0; 0; 0; -1; -2; -1; 0; -1; -2; 16; -2; -1;
        0; -1; -2; -1; 0; 0; 0; -1; 0; 0], 1)) ].

End integer.

Module summary.

Import reduce.

(** The shared reduction variables hold the exact summary of the
    samples [vs] combined so far. *)
Definition combined (acc : accum f64.t) (vs : list Z) : Prop :=
  sum acc = f64.of_int (integer.sum vs) /\
  sum_sq acc = f64.of_int (integer.sum_sq vs) /\
  local_min acc = f64.of_int (integer.minimum vs) /\
  local_max acc = f64.of_int (integer.maximum vs).

(** The private copies of a thread hold the exact summary of the
    samples [vs] it has visited; the extrema still hold their initial
    infinities when it has visited none. *)
Definition visited (acc : accum f64.t) (vs : list Z) : Prop :=
  sum acc = f64.of_int (integer.sum vs) /\
  sum_sq acc = f64.of_int (integer.sum_sq vs) /\
  local_min acc = match vs with
                  | [] => S754_infinity false
                  | _ => f64.of_int (integer.minimum vs)
                  end /\
  local_max acc = match vs with
                  | [] => S754_infinity true
                  | _ => f64.of_int (integer.maximum vs)
                  end.

End summary.

From Stdlib Require Import Sorted.

(* ===================================================================== *)
(** ** The rest of image.hpp: checked access, clamped access, RGB images *)
(* ===================================================================== *)

Module image.

(** [v[i]] on a [std::vector<uint8_t>], with the [int] index converted to
    [size_t]: a read outside the vector has no defined behaviour. *)
Definition get (data : list Z) (i : Z) : outcome Z :=
  if (0 <=? i) && (i <? Z.of_nat (length data))
  then Ok (nth (Z.to_nat i) data 0)
  else Undefined.

(** [v[i] = x]. *)
Definition put (data : list Z) (i x : Z) : outcome (list Z) :=
  if (0 <=? i) && (i <? Z.of_nat (length data))
  then Ok (<[Z.to_nat i := x]> data)
  else Undefined.

(** The [what()] of the [std::out_of_range] that [at] throws. *)
Definition out_of_bounds : string := "Pixel coordinates out of bounds".

(** [GrayscaleImage()]. *)
Definition empty_image : img.GrayscaleImage := img.mkGrayscaleImage 0 0 255 [].

(** [at(x, y)], read through the returned reference. *)
Definition at_ (im : img.GrayscaleImage) (x y : Z) : outcome Z :=
  if (x <? 0) || (img.width im <=? x) || (y <? 0) || (img.height im <=? y)
  then Throw out_of_bounds
  else get (img.data im) (y * img.width im + x).

(** [at(x, y) = v], write through the returned reference. *)
Definition set_at (im : img.GrayscaleImage) (x y v : Z)
    : outcome img.GrayscaleImage :=
  if (x <? 0) || (img.width im <=? x) || (y <? 0) || (img.height im <=? y)
  then Throw out_of_bounds
  else
    do data <- put (img.data im) (y * img.width im + x) v;
    Ok (img.mkGrayscaleImage (img.width im) (img.height im) (img.max_val im) data).

(** [pixel(x, y)], the unchecked read. *)
Definition pixel (im : img.GrayscaleImage) (x y : Z) : outcome Z :=
  get (img.data im) (y * img.width im + x).

(** [clamped_pixel(x, y)]. *)
Definition clamped_pixel (im : img.GrayscaleImage) (x y : Z) : outcome Z :=
  let x := Z.max 0 (Z.min x (img.width im - 1)) in
  let y := Z.max 0 (Z.min y (img.height im - 1)) in
  get (img.data im) (y * img.width im + x).

(** [size()] and [empty()]. *)
Definition size (im : img.GrayscaleImage) : Z := Z.of_nat (length (img.data im)).
Definition empty (im : img.GrayscaleImage) : bool :=
  match img.data im with [] => true | _ => false end.

End image.

Module rgb.

(** [class RGBImage]: interleaved samples [R G B R G B ...], row-major. *)
Record RGBImage : Type := mkRGBImage {
  width : Z;
  height : Z;
  max_val : Z;
  data : list Z
}.

(** [RGBImage(int w, int h, int maxv = 255)] with the default third
    argument: [w * h * 3] zero samples. *)
Definition create (w h : Z) : RGBImage :=
  mkRGBImage w h 255 (replicate (Z.to_nat (w * h * 3)) 0).

(** The position [(y * width + x) * 3 + c] of component [c] of pixel
    [(x, y)]. *)
Definition offset (im : RGBImage) (x y c : Z) : Z := (y * width im + x) * 3 + c.

(** [r(x, y)], [g(x, y)], [b(x, y)], read. *)
Definition r (im : RGBImage) (x y : Z) : Z :=
  nth (Z.to_nat (offset im x y 0)) (data im) 0.
Definition g (im : RGBImage) (x y : Z) : Z :=
  nth (Z.to_nat (offset im x y 1)) (data im) 0.
Definition b (im : RGBImage) (x y : Z) : Z :=
  nth (Z.to_nat (offset im x y 2)) (data im) 0.

(** [r(x, y) = v], [g(x, y) = v], [b(x, y) = v]. *)
Definition set_r (im : RGBImage) (x y v : Z) : RGBImage :=
  mkRGBImage (width im) (height im) (max_val im)
    (<[Z.to_nat (offset im x y 0) := v]> (data im)).
Definition set_g (im : RGBImage) (x y v : Z) : RGBImage :=
  mkRGBImage (width im) (height im) (max_val im)
    (<[Z.to_nat (offset im x y 1) := v]> (data im)).
Definition set_b (im : RGBImage) (x y v : Z) : RGBImage :=
  mkRGBImage (width im) (height im) (max_val im)
    (<[Z.to_nat (offset im x y 2) := v]> (data im)).

(** [clamped_r(x, y)], [clamped_g(x, y)], [clamped_b(x, y)]. *)
Definition clamped_r (im : RGBImage) (x y : Z) : Z :=
  let x := Z.max 0 (Z.min x (width im - 1)) in
  let y := Z.max 0 (Z.min y (height im - 1)) in
  nth (Z.to_nat (offset im x y 0)) (data im) 0.
Definition clamped_g (im : RGBImage) (x y : Z) : Z :=
  let x := Z.max 0 (Z.min x (width im - 1)) in
  let y := Z.max 0 (Z.min y (height im - 1)) in
  nth (Z.to_nat (offset im x y 1)) (data im) 0.
Definition clamped_b (im : RGBImage) (x y : Z) : Z :=
  let x := Z.max 0 (Z.min x (width im - 1)) in
  let y := Z.max 0 (Z.min y (height im - 1)) in
  nth (Z.to_nat (offset im x y 2)) (data im) 0.

(** The data-model invariant of an RGB buffer. *)
Definition wf (im : RGBImage) : Prop :=
  0 <= width im /\ 0 <= height im /\
  Z.of_nat (length (data im)) = width im * height im * 3 /\
  width im * height im * 3 < 2 ^ 31 /\
  Forall (fun v => 0 <= v <= 255) (data im).

(** The three kernel loops of the RGB filters, identical in the serial
    and the parallel function: the sums [sum_r], [sum_g], [sum_b]. *)
Definition conv_sums (input : RGBImage) (kernel : kernels.Kernel) (x y : Z)
    : f32.t * f32.t * f32.t :=
  let radius := kernels.radius kernel in
  fold_left (fun sums ky =>
    fold_left (fun (sums : f32.t * f32.t * f32.t) kx =>
      let '(sum_r, sum_g, sum_b) := sums in
      let px := Z.max 0 (Z.min (x + kx) (width input - 1)) in
      let py := Z.max 0 (Z.min (y + ky) (height input - 1)) in
      let kernel_val := kernels.at_ kernel (kx + radius) (ky + radius) in
      (f32.add sum_r (f32.mul (f32.of_int (r input px py)) kernel_val),
       f32.add sum_g (f32.mul (f32.of_int (g input px py)) kernel_val),
       f32.add sum_b (f32.mul (f32.of_int (b input px py)) kernel_val)))
      (range (- radius) (radius + 1)) sums)
    (range (- radius) (radius + 1)) (f32.zero, f32.zero, f32.zero).

(** [static_cast<uint8_t>(std::clamp(sum / kernel.divisor, 0.0f, 255.0f))]. *)
Definition normalize (kernel : kernels.Kernel) (sum : f32.t) : outcome Z :=
  u8_of_float (f32.clamp (f32.div sum (kernels.divisor kernel)) f32.zero filter.f255).

(** The body of the pixel loops: the sums, then the three stores in the
    order red, green, blue. *)
Definition store_pixel (input : RGBImage) (kernel : kernels.Kernel) (p : Z * Z)
    (output : RGBImage) : outcome RGBImage :=
  let '(sum_r, sum_g, sum_b) := conv_sums input kernel (fst p) (snd p) in
  do vr <- normalize kernel sum_r;
  let output := set_r output (fst p) (snd p) vr in
  do vg <- normalize kernel sum_g;
  let output := set_g output (fst p) (snd p) vg in
  do vb <- normalize kernel sum_b;
  Ok (set_b output (fst p) (snd p) vb).

Definition apply_filter_serial (input : RGBImage) (kernel : kernels.Kernel)
    : outcome RGBImage :=
  let output := create (width input) (height input) in
  for_each (range 0 (height input)) (fun y output =>
    for_each (range 0 (width input)) (fun x output =>
      store_pixel input kernel (x, y) output) output) output.

Definition apply_filter_parallel (input : RGBImage) (kernel : kernels.Kernel)
    (config : filter.FilterConfig) (rt : omp.runtime) : outcome RGBImage :=
  let output := create (width input) (height input) in
  let team := omp.team_size (filter.num_threads config) rt in
  let order :=
    omp.parallel_for omp.STATIC 0 team rt (height input)
      (filter.row_steps (width input)) in
  for_each order (store_pixel input kernel) output.

(** The three bytes the pixel loops store at [p], and the three stores,
    taken together. *)
Definition samples (input : RGBImage) (kernel : kernels.Kernel) (p : Z * Z)
    : outcome (Z * Z * Z) :=
  let '(sum_r, sum_g, sum_b) := conv_sums input kernel (fst p) (snd p) in
  do vr <- normalize kernel sum_r;
  do vg <- normalize kernel sum_g;
  do vb <- normalize kernel sum_b;
  Ok (vr, vg, vb).

Definition set_pixel (im : RGBImage) (p : Z * Z) (v : Z * Z * Z) : RGBImage :=
  let '(vr, vg, vb) := v in
  set_b (set_g (set_r im (fst p) (snd p) vr) (fst p) (snd p) vg)
        (fst p) (snd p) vb.

(** The grayscale image made of component [c] of every pixel. *)
Definition plane (c : Z) (im : RGBImage) : img.GrayscaleImage :=
  img.mkGrayscaleImage (width im) (height im) (max_val im)
    (map (fun i => nth (Z.to_nat (i * 3 + c)) (data im) 0)
         (range 0 (width im * height im))).

(** The accessors by component number: 0 is red, 1 green, 2 blue. *)
Definition component (c : Z) (im : RGBImage) (x y : Z) : Z :=
  nth (Z.to_nat (offset im x y c)) (data im) 0.
Definition set_component (c : Z) (im : RGBImage) (x y v : Z) : RGBImage :=
  mkRGBImage (width im) (height im) (max_val im)
    (<[Z.to_nat (offset im x y c) := v]> (data im)).

(** A 2 x 2 colour buffer for the scenarios. *)
Definition four_pixels : RGBImage :=
  mkRGBImage 2 2 255 [10; 20; 30; 40; 50; 60; 70; 80; 90; 100; 110; 120].

End rgb.

(* ===================================================================== *)
(** ** The rest of kernels.cpp and filter.cpp *)
(* ===================================================================== *)

Module registry.

Local Open Scope string_scope.

(** [list_kernels()]. *)
Definition list_kernels : list string :=
  [ "box_blur"; "gaussian"; "sharpen"; "sharpen_strong"; "sobel_x"; "sobel_y";
    "prewitt_x"; "prewitt_y"; "laplacian"; "emboss"; "identity";
    "box_blur_5x5"; "gaussian_5x5"; "unsharp_mask"; "sobel_x_5x5";
    "sobel_y_5x5"; "log_5x5" ].

(** The seventeen kernels of kernels.hpp. *)
Definition all_kernels : list kernels.Kernel :=
  [ kernels.box_blur_3x3; kernels.gaussian_blur_3x3; kernels.sharpen_3x3;
    kernels.sharpen_strong_3x3; kernels.sobel_x_3x3; kernels.sobel_y_3x3;
    kernels.prewitt_x_3x3; kernels.prewitt_y_3x3; kernels.laplacian_3x3;
    kernels.emboss_3x3; kernels.identity_3x3; kernels.box_blur_5x5;
    kernels.gaussian_blur_5x5; kernels.unsharp_mask_5x5; kernels.sobel_x_5x5;
    kernels.sobel_y_5x5; kernels.log_5x5 ].

(** The name is one [get_kernel_by_name] recognises. *)
Definition known (name : string) : Prop :=
  kernels.assoc (kernels.lowercase name) kernels.catalog <> None.

(** [kernel.at(kx + radius, ky + radius)] reads inside the weights for
    every offset of the convolution loops. *)
Definition reads_in_range (k : kernels.Kernel) : Prop :=
  forall kx ky,
    - kernels.radius k <= kx <= kernels.radius k ->
    - kernels.radius k <= ky <= kernels.radius k ->
    0 <= (ky + kernels.radius k) * kernels.size k + (kx + kernels.radius k)
      < Z.of_nat (length (kernels.data k)).

End registry.

(** The range of [int]. *)
Module limits.

(** [INT_MAX] of the 32-bit [int] the loops compute with. *)
Definition int_max : Z := 2 ^ 31 - 1.


End limits.

Module schedules.

Import omp.
Local Open Scope string_scope.

(** [schedule_to_string]; the [default:] label is not reachable from a
    value of the enumeration. *)
Definition schedule_to_string (s : Schedule) : string :=
  match s with
  | STATIC => "static"
  | DYNAMIC => "dynamic"
  | GUIDED => "guided"
  end.

Definition string_to_schedule (s : string) : outcome Schedule :=
  let lower := kernels.lowercase s in
  if String.eqb lower "static" then Ok STATIC
  else if String.eqb lower "dynamic" then Ok DYNAMIC
  else if String.eqb lower "guided" then Ok GUIDED
  else Throw ("Unknown schedule: " ++ s).

End schedules.

Module chains.

Import filter.

(** The [for (name : kernel_names)] loop of [apply_filter_chain_parallel];
    [rt i] holds the choices of the OpenMP runtime in the parallel region
    of pass [i]. *)
Fixpoint chain_loop (current : img.GrayscaleImage) (kernel_names : list string)
    (config : FilterConfig) (rt : nat -> runtime) (pass : nat)
    : outcome img.GrayscaleImage :=
  match kernel_names with
  | [] => Ok current
  | name :: rest =>
      do k <- kernels.get_kernel_by_name name;
      do current <- apply_filter_parallel current k config (rt pass);
      chain_loop current rest config rt (S pass)
  end.

Definition apply_filter_chain_parallel (input : img.GrayscaleImage)
    (kernel_names : list string) (config : FilterConfig) (rt : nat -> runtime)
    : outcome img.GrayscaleImage :=
  match kernel_names with
  | [] => Ok input
  | _ => let current := input in chain_loop current kernel_names config rt O
  end.

End chains.

(* ===================================================================== *)
(** ** benchmark.hpp *)
(* ===================================================================== *)

Module benchmark.

(** The largest [int]. *)
Definition int_max : Z := 2 ^ 31 - 1.

(** The loop [for (int t = 2; t <= max_threads; t *= 2)
    counts.push_back(t)] of [standard_thread_counts]; the signed overflow
    of [t *= 2] has no defined result.  An [int] doubles at most thirty
    times from 2, so the fuel given below is never used up. *)
Fixpoint doubling (fuel : nat) (t max_threads : Z) (counts : list Z)
    : outcome (list Z) :=
  match fuel with
  | O => Undefined
  | S fuel =>
      if t <=? max_threads then
        let counts := counts ++ [t] in
        if 2 * t <=? int_max then doubling fuel (2 * t) max_threads counts
        else Undefined
      else Ok counts
  end.

(** [standard_thread_counts()], with [omp_get_max_threads()] read from
    the runtime. *)
Definition standard_thread_counts (rt : omp.runtime) : outcome (list Z) :=
  let max_threads := omp.max_threads rt in
  do counts <- doubling 32 2 max_threads [1];
  if negb (List.last counts 0 =? max_threads)
  then Ok (counts ++ [max_threads])
  else Ok counts.

End benchmark.

(* ===================================================================== *)
(** * Loops and outcomes *)
(* ===================================================================== *)

Lemma range_nil lo hi : hi <= lo -> range lo hi = [].
Proof. intros. unfold range. apply seqZ_nil. lia. Qed.

Lemma range_cons lo hi : lo < hi -> range lo hi = lo :: range (lo + 1) hi.
Proof.
  intros. unfold range. rewrite seqZ_cons by lia.
  f_equal. f_equal; lia.
Qed.

Lemma range_app lo mid hi :
  lo <= mid <= hi -> range lo mid ++ range mid hi = range lo hi.
Proof.
  intros. unfold range.
  replace (hi - lo) with ((mid - lo) + (hi - mid)) by lia.
  rewrite seqZ_app by lia. do 2 f_equal. lia.
Qed.

Lemma elem_of_range lo hi k : k ∈ range lo hi <-> lo <= k < hi.
Proof. unfold range. rewrite elem_of_seqZ. lia. Qed.

Lemma In_range lo hi k : In k (range lo hi) <-> lo <= k < hi.
Proof. rewrite <- list_elem_of_In. apply elem_of_range. Qed.

Lemma NoDup_range lo hi : NoDup (range lo hi).
Proof. apply NoDup_seqZ. Qed.

Lemma for_each_app {A S : Type} (l1 l2 : list A) (body : A -> S -> outcome S) s :
  for_each (l1 ++ l2) body s = do s' <- for_each l1 body s; for_each l2 body s'.
Proof.
  revert s. induction l1 as [|a l1 IH]; intros s; simpl; [reflexivity|].
  destruct (body a s); simpl; auto.
Qed.

(** Two nested loops are one loop over the flattened iteration space. *)
Lemma for_each_flat_map {A B S : Type} (l : list A) (g : A -> list B)
    (body : B -> S -> outcome S) s :
  for_each l (fun a s => for_each (g a) body s) s = for_each (flat_map g l) body s.
Proof.
  revert s. induction l as [|a l IH]; intros s; simpl; [reflexivity|].
  rewrite for_each_app. destruct (for_each (g a) body s); simpl; auto.
Qed.

Lemma for_each_ext {A S : Type} (l : list A) (f g : A -> S -> outcome S) s :
  (forall a s, In a l -> f a s = g a s) -> for_each l f s = for_each l g s.
Proof.
  revert s. induction l as [|a l IH]; intros s H; simpl; [reflexivity|].
  rewrite H by (left; reflexivity).
  destruct (g a s); simpl; auto. apply IH. intros; apply H; right; assumption.
Qed.

(* ===================================================================== *)
(** * The OpenMP model: every schedule runs every iteration once *)
(* ===================================================================== *)

Module omp_facts.
Import omp.

Lemma concat_insert_tail {P : Type} (works : list (list P)) i a rest :
  works !! i = Some (a :: rest) ->
  Permutation (concat works) (a :: concat (<[i := rest]> works)).
Proof.
  revert i. induction works as [|w works IH]; intros i H; [discriminate|].
  destruct i as [|i]; simpl in *.
  - injection H as ->. reflexivity.
  - rewrite (IH _ H). apply Permutation_sym, Permutation_middle.
Qed.

(** Whatever the runtime picks, the team performs exactly the steps of
    its threads. *)
Lemma run_team_perm {P : Type} (picks : list nat) (works : list (list P)) :
  Permutation (run_team picks works) (concat works).
Proof.
  revert works. induction picks as [|i picks IH]; intros works; simpl.
  - reflexivity.
  - destruct (works !! i) as [[|a rest]|] eqn:E; auto.
    rewrite (concat_insert_tail works i a rest E).
    constructor. apply IH.
Qed.

Lemma fixed_chunks_cover fuel c lo hi :
  1 <= c -> (Z.to_nat (hi - lo) <= fuel)%nat ->
  concat (fixed_chunks fuel c lo hi) = range lo hi.
Proof.
  intros Hc. revert lo. induction fuel as [|fuel IH]; intros lo Hf; simpl.
  - rewrite range_nil by lia. reflexivity.
  - destruct (Z.leb_spec hi lo).
    + rewrite range_nil by lia. reflexivity.
    + simpl. rewrite IH by lia.
      destruct (Z.le_ge_cases hi (lo + c)).
      * rewrite Z.min_l by lia. rewrite (range_nil (lo + c)) by lia.
        apply app_nil_r.
      * rewrite Z.min_r by lia. apply range_app. lia.
Qed.

Lemma guided_chunks_cover fuel k team lo hi :
  1 <= k -> (Z.to_nat (hi - lo) <= fuel)%nat ->
  concat (guided_chunks fuel k team lo hi) = range lo hi.
Proof.
  intros Hk. revert lo. induction fuel as [|fuel IH]; intros lo Hf; simpl.
  - rewrite range_nil by lia. reflexivity.
  - destruct (Z.leb_spec hi lo).
    + rewrite range_nil by lia. reflexivity.
    + simpl.
      set (c := Z.min (hi - lo) (Z.max k ((hi - lo + team - 1) / team))).
      assert (1 <= c <= hi - lo) by (unfold c; lia).
      rewrite IH by lia. apply range_app. lia.
Qed.

(** The chunks of any schedule cover the iteration space, in order. *)
Lemma chunks_cover s chunk team n :
  1 <= team -> concat (chunks s chunk team n) = range 0 n.
Proof.
  intros Ht. unfold chunks. destruct s.
  - destruct (Z.ltb_spec 0 chunk).
    + apply fixed_chunks_cover; lia.
    + destruct (Z.le_gt_cases n 0).
      * rewrite range_nil by lia.
        replace (Z.to_nat n) with O by lia. reflexivity.
      * apply fixed_chunks_cover; [|lia].
        apply Z.div_le_lower_bound; lia.
  - apply fixed_chunks_cover; [|lia]. destruct (0 <? chunk) eqn:E; lia.
  - apply guided_chunks_cover; [|lia]. destruct (0 <? chunk) eqn:E; lia.
Qed.

Lemma owner_lt s team rt j : (0 < team)%nat -> (owner s team rt j < team)%nat.
Proof. intros. destruct s; simpl; apply Nat.mod_upper_bound; lia. Qed.

Lemma thread_work_cons own t j c cs :
  thread_work own t j (c :: cs)
  = (if Nat.eqb (own j) t then c else []) ++ thread_work own t (S j) cs.
Proof. simpl. destruct (Nat.eqb (own j) t); reflexivity. Qed.

Lemma concat_unselect {P : Type} (c : list P) (o : nat) (ts : list nat) :
  o ∉ ts -> concat (map (fun t => if Nat.eqb o t then c else []) ts) = [].
Proof.
  induction ts as [|t ts IH]; intros Hn; [reflexivity|].
  apply not_elem_of_cons in Hn as [Hne Hn]. simpl.
  destruct (Nat.eqb_spec o t); [contradiction|]. apply IH, Hn.
Qed.

Lemma concat_select {P : Type} (c : list P) (o : nat) (ts : list nat) :
  NoDup ts -> o ∈ ts ->
  concat (map (fun t => if Nat.eqb o t then c else []) ts) = c.
Proof.
  induction ts as [|t ts IH]; intros Hnd Hin; [inversion Hin|].
  inversion Hnd as [|? ? Hnt Hnd']; subst. simpl.
  destruct (Nat.eqb_spec o t) as [->|Hne].
  - rewrite concat_unselect by assumption. apply app_nil_r.
  - simpl. apply IH; [assumption|].
    apply elem_of_cons in Hin as [?|?]; [contradiction|assumption].
Qed.

Lemma concat_map_app {P T : Type} (f g : T -> list P) (ts : list T) :
  Permutation (concat (map (fun t => f t ++ g t) ts))
              (concat (map f ts) ++ concat (map g ts)).
Proof.
  induction ts as [|t ts IH]; simpl; [reflexivity|].
  rewrite IH. rewrite <- !app_assoc. apply Permutation_app_head.
  rewrite !app_assoc. apply Permutation_app_tail. apply Permutation_app_comm.
Qed.

(** The shares of the threads partition the chunks. *)
Lemma thread_work_partition own team j cs :
  (forall j, (own j < team)%nat) ->
  Permutation (concat (map (fun t => thread_work own t j cs) (seq 0 team)))
              (concat cs).
Proof.
  intros Hown. revert j. induction cs as [|c cs IH]; intros j.
  - simpl. induction (seq 0 team); simpl; auto.
  - erewrite map_ext by (intros; apply thread_work_cons).
    rewrite concat_map_app. simpl. apply Permutation_app.
    + rewrite concat_select; [reflexivity|apply NoDup_seq|].
      apply elem_of_seq. specialize (Hown j). lia.
    + apply IH.
Qed.

Lemma shares_partition s chunk team rt n :
  (0 < team)%nat ->
  Permutation (concat (shares s chunk team rt n)) (range 0 n).
Proof.
  intros Ht. unfold shares.
  rewrite thread_work_partition by (intros; apply owner_lt; assumption).
  rewrite chunks_cover by lia. reflexivity.
Qed.

Lemma concat_map_flat_map {P T : Type} (steps : Z -> list P) (f : T -> list Z) ts :
  concat (map (fun t => flat_map steps (f t)) ts)
  = flat_map steps (concat (map f ts)).
Proof.
  induction ts as [|t ts IH]; simpl; [reflexivity|].
  rewrite IH, flat_map_app. reflexivity.
Qed.

(** A work-sharing loop performs the steps of the sequential loop, in
    some order. *)
Lemma parallel_for_perm {P : Type} s chunk team rt n (steps : Z -> list P) :
  (0 < team)%nat ->
  Permutation (parallel_for s chunk team rt n steps)
              (flat_map steps (range 0 n)).
Proof.
  intros Ht. unfold parallel_for. rewrite run_team_perm.
  rewrite concat_map_flat_map. apply Permutation_flat_map.
  apply (shares_partition s chunk team rt n Ht).
Qed.

Lemma arrival_perm team rt : Permutation (arrival team rt) (seq 0 team).
Proof.
  unfold arrival. rewrite run_team_perm.
  induction (seq 0 team); simpl; auto.
Qed.

Lemma team_size_pos num_threads rt :
  wf rt -> (0 < team_size num_threads rt)%nat.
Proof.
  unfold wf, team_size. intros. destruct (Z.ltb_spec 0 num_threads); lia.
Qed.

End omp_facts.

(* ===================================================================== *)
(** * Writing samples into the output buffer *)
(* ===================================================================== *)

Lemma bind_assoc {A B C : Type} (m : outcome A) (k : A -> outcome B)
    (k' : B -> outcome C) :
  (do b <- (do a <- m; k a); k' b) = (do a <- m; do b <- k a; k' b).
Proof. destruct m; reflexivity. Qed.

Module store_facts.
Import grid filter.

Lemma index_inj w h p q :
  in_bounds w h p -> in_bounds w h q -> index w p = index w q -> p = q.
Proof.
  destruct p as [x1 y1], q as [x2 y2]. unfold in_bounds, index. simpl.
  intros [Hx1 Hy1] [Hx2 Hy2] H.
  assert (y1 * w + x1 = y2 * w + x2) as E by nia.
  assert (y1 = y2) by nia. subst. f_equal. lia.
Qed.

Lemma store_width f p out out' :
  store f p out = Ok out' ->
  img.width out' = img.width out /\ img.height out' = img.height out /\
  img.max_val out' = img.max_val out /\
  length (img.data out') = length (img.data out).
Proof.
  unfold store. destruct (f (fst p) (snd p)); simpl; try discriminate.
  intros [= <-]. simpl. rewrite length_insert. auto.
Qed.

(** Two stores to different pixels commute; two stores to the same pixel
    write the same value. *)
Lemma store_swap f p q out h :
  (forall x y what, f x y <> Throw what) ->
  in_bounds (img.width out) h p -> in_bounds (img.width out) h q ->
  (do o <- store f p out; store f q o) = (do o <- store f q out; store f p o).
Proof.
  intros Hnt Hp Hq. unfold store.
  destruct (f (fst p) (snd p)) as [vp| |] eqn:Ep;
    destruct (f (fst q) (snd q)) as [vq| |] eqn:Eq; simpl;
    rewrite ?Ep, ?Eq; simpl; try reflexivity;
    try (exfalso; eapply Hnt; eassumption).
  f_equal. unfold img.set_pixel. simpl. f_equal.
  destruct (decide (p = q)) as [->|Hne].
  - congruence.
  - apply list_insert_insert_ne. intros E. apply Hne.
    symmetry. eapply index_inj; eauto.
Qed.

(** The buffer after a sequence of stores does not depend on the order
    of the stores. *)
Lemma for_each_store_perm f h (o1 o2 : list (Z * Z)) :
  (forall x y what, f x y <> Throw what) ->
  Permutation o1 o2 ->
  forall out, Forall (in_bounds (img.width out) h) o1 ->
  for_each o1 (store f) out = for_each o2 (store f) out.
Proof.
  intros Hnt Hperm. induction Hperm as [|p l l' Hperm IH|p q l|l l' l'' H1 IH1 H2 IH2];
    intros out Hb.
  - reflexivity.
  - simpl. destruct (store f p out) as [out'| |] eqn:E; simpl; try reflexivity.
    apply IH. apply store_width in E as (-> & _). inversion Hb; assumption.
  - simpl. rewrite <- !bind_assoc.
    inversion Hb as [|? ? Hq Hb']; subst. inversion Hb' as [|? ? Hp Hb'']; subst.
    rewrite (store_swap f q p out h Hnt Hq Hp). reflexivity.
  - rewrite IH1 by assumption. apply IH2.
    eapply Permutation_Forall; eassumption.
Qed.

Lemma row_steps_in w y p : In p (row_steps w y) <-> 0 <= fst p < w /\ snd p = y.
Proof.
  unfold row_steps. rewrite in_map_iff. split.
  - intros (x & <- & Hx). apply In_range in Hx. simpl. lia.
  - intros [Hx Hy]. exists (fst p). rewrite In_range. destruct p; simpl in *.
    subst. split; [reflexivity|lia].
Qed.

Lemma all_pixels_in w h p : In p (all_pixels w h) <-> in_bounds w h p.
Proof.
  unfold all_pixels, in_bounds. rewrite in_flat_map. split.
  - intros (y & Hy & Hp). apply In_range in Hy. apply row_steps_in in Hp. lia.
  - intros [Hx Hy]. exists (snd p). rewrite In_range, row_steps_in. lia.
Qed.

Lemma all_pixels_bounds w h : Forall (in_bounds w h) (all_pixels w h).
Proof. apply List.Forall_forall. intros p. apply all_pixels_in. Qed.

Lemma consecutive_app w n ps qs :
  consecutive w n ps -> consecutive w (n + length ps) qs ->
  consecutive w n (ps ++ qs).
Proof.
  revert n. induction ps as [|p ps IH]; intros n Hp Hq; simpl in *.
  - rewrite Nat.add_0_r in Hq. assumption.
  - destruct Hp as [Hi Hp]. split; [assumption|]. apply IH; [assumption|].
    rewrite Nat.add_succ_comm. assumption.
Qed.

Lemma consecutive_row w y x0 :
  0 <= y -> 0 <= x0 ->
  consecutive w (Z.to_nat (y * w + x0)) (map (fun x => (x, y)) (range x0 w)).
Proof.
  intros Hy Hx0.
  remember (Z.to_nat (w - x0)) as k eqn:Hk. revert x0 Hx0 Hk.
  induction k as [|k IH]; intros x0 Hx0 Hk.
  - rewrite range_nil by lia. exact I.
  - rewrite range_cons by lia. simpl. split; [reflexivity|].
    replace (S (Z.to_nat (y * w + x0))) with (Z.to_nat (y * w + (x0 + 1))) by nia.
    apply IH; lia.
Qed.

Lemma length_row_steps w y : length (row_steps w y) = Z.to_nat w.
Proof.
  unfold row_steps, range. rewrite length_map, length_seqZ. f_equal. lia.
Qed.

Lemma consecutive_rows w y0 h :
  0 <= w -> 0 <= y0 ->
  consecutive w (Z.to_nat (y0 * w)) (flat_map (row_steps w) (range y0 h)).
Proof.
  intros Hw Hy0.
  remember (Z.to_nat (h - y0)) as k eqn:Hk. revert y0 Hy0 Hk.
  induction k as [|k IH]; intros y0 Hy0 Hk.
  - rewrite range_nil by lia. exact I.
  - rewrite range_cons by lia. simpl. apply consecutive_app.
    + replace (y0 * w) with (y0 * w + 0) by lia.
      apply consecutive_row; lia.
    + rewrite length_row_steps.
      replace (Z.to_nat (y0 * w) + Z.to_nat w)%nat with (Z.to_nat ((y0 + 1) * w)) by nia.
      apply IH; lia.
Qed.

Lemma length_all_pixels w h :
  0 <= w -> 0 <= h -> length (all_pixels w h) = Z.to_nat (w * h).
Proof.
  intros Hw Hh. unfold all_pixels.
  assert (forall y0, 0 <= y0 -> y0 <= h ->
    length (flat_map (row_steps w) (range y0 h)) = Z.to_nat (w * (h - y0))) as H.
  { intros y0 Hy0.
    remember (Z.to_nat (h - y0)) as k eqn:Hk. revert y0 Hy0 Hk.
    induction k as [|k IH]; intros y0 Hy0 Hk Hle.
    - rewrite range_nil by lia. simpl. nia.
    - rewrite range_cons by lia. simpl. rewrite length_app, length_row_steps.
      rewrite IH by lia. nia. }
  rewrite H by lia. f_equal. lia.
Qed.

(** Stores to consecutive positions fill the blank tail of the buffer. *)
Lemma store_consecutive f g w h mv ps :
  (forall p, In p ps -> f (fst p) (snd p) = Ok (g p)) ->
  forall done k,
  consecutive w (length done) ps -> (length ps <= k)%nat ->
  for_each ps (store f) (img.mkGrayscaleImage w h mv (done ++ replicate k 0))
  = Ok (img.mkGrayscaleImage w h mv
          (done ++ map g ps ++ replicate (k - length ps) 0)).
Proof.
  intros Hf. induction ps as [|p ps IH]; intros done k Hc Hk; simpl in *.
  - rewrite Nat.sub_0_r. reflexivity.
  - destruct Hc as [Hi Hc]. unfold store at 1.
    rewrite Hf by (left; reflexivity). simpl.
    unfold img.set_pixel. simpl. fold (index w p). rewrite Hi.
    destruct k as [|k]; [lia|]. simpl.
    replace (length done) with (length done + 0)%nat by lia.
    rewrite insert_app_r. simpl.
    specialize (IH (fun q Hq => Hf q (or_intror Hq)) (done ++ [g p]) k).
    rewrite <- !app_assoc in IH. simpl in IH. apply IH; [|lia].
    rewrite length_app. simpl. rewrite Nat.add_1_r. assumption.
Qed.

(** The serial loops, when every sample is defined, render the image. *)
Lemma store_all f g w h :
  0 <= w -> 0 <= h ->
  (forall p, in_bounds w h p -> f (fst p) (snd p) = Ok (g p)) ->
  for_each (all_pixels w h) (store f) (img.create w h) = Ok (render w h g).
Proof.
  intros Hw Hh Hf. unfold img.create, render.
  pose proof (store_consecutive f g w h 255 (all_pixels w h)
                (fun p Hp => Hf p (proj1 (all_pixels_in w h p) Hp))
                [] (Z.to_nat (w * h))) as H.
  simpl in H. rewrite H.
  - rewrite length_all_pixels by assumption. rewrite Nat.sub_diag. simpl.
    rewrite app_nil_r. reflexivity.
  - apply (consecutive_rows w 0 h); lia.
  - rewrite length_all_pixels by assumption. lia.
Qed.

(** A failing sample makes the whole loop fail. *)
Lemma for_each_store_fail f (l : list (Z * Z)) out p :
  (forall x y what, f x y <> Throw what) ->
  In p l -> f (fst p) (snd p) = Undefined ->
  for_each l (store f) out = Undefined.
Proof.
  intros Hnt. revert out. induction l as [|q l IH]; intros out Hin Hp; [destruct Hin|].
  simpl. unfold store at 1.
  destruct (f (fst q) (snd q)) as [v| |] eqn:E; simpl.
  - destruct Hin as [->|Hin]; [congruence|]. apply IH; assumption.
  - exfalso. eapply Hnt; eassumption.
  - reflexivity.
Qed.

(** The two serial loops are one loop over all pixels. *)
Lemma serial_loops f w h out :
  for_each (range 0 h) (fun y output =>
    for_each (range 0 w) (fun x output => store f (x, y) output) output) out
  = for_each (all_pixels w h) (store f) out.
Proof.
  unfold all_pixels. rewrite <- for_each_flat_map.
  apply for_each_ext. intros y s _. unfold row_steps.
  generalize (range 0 w). intros l. revert s.
  induction l as [|x l IH]; intros s; simpl; [reflexivity|].
  destruct (store f (x, y) s); simpl; auto.
Qed.

End store_facts.

(* ===================================================================== *)
(** * The tiles cover the output plane, each pixel once *)
(* ===================================================================== *)

Module tile_facts.
Import grid filter store_facts.

Lemma NoDup_flat_map {A B : Type} (f : A -> list B) (l : list A) :
  NoDup l ->
  (forall a, a ∈ l -> NoDup (f a)) ->
  (forall a b x, a ∈ l -> b ∈ l -> x ∈ f a -> x ∈ f b -> a = b) ->
  NoDup (flat_map f l).
Proof.
  induction l as [|a l IH]; intros Hl Hf Hd; simpl; [constructor|].
  inversion Hl as [|? ? Ha Hl']; subst.
  apply NoDup_app. split; [|split].
  - apply Hf. left.
  - intros x Hx Hx'. apply list_elem_of_In, in_flat_map in Hx' as (b & Hb & Hxb).
    apply list_elem_of_In in Hb, Hxb.
    assert (a = b) as -> by (eapply (Hd a b x); [left|right; assumption|assumption..]).
    contradiction.
  - apply IH; [assumption| |].
    + intros b Hb. apply Hf. right. assumption.
    + intros b c x Hb Hc. apply Hd; right; assumption.
Qed.

Lemma NoDup_row_steps w y : NoDup (row_steps w y).
Proof.
  unfold row_steps. apply NoDup_fmap_2; [|apply NoDup_range].
  intros a b [= ->]. reflexivity.
Qed.

Lemma NoDup_all_pixels w h : NoDup (all_pixels w h).
Proof.
  unfold all_pixels. apply NoDup_flat_map.
  - apply NoDup_range.
  - intros. apply NoDup_row_steps.
  - intros a b x _ _ Ha Hb.
    apply list_elem_of_In, row_steps_in in Ha, Hb. lia.
Qed.

Lemma tile_steps_in w h T ntx idx p :
  In p (tile_steps w h T ntx idx) <->
  Z.quot idx ntx * T <= snd p < Z.min (Z.quot idx ntx * T + T) h /\
  Z.rem idx ntx * T <= fst p < Z.min (Z.rem idx ntx * T + T) w.
Proof.
  unfold tile_steps. rewrite in_flat_map. split.
  - intros (y & Hy & Hp). apply In_range in Hy.
    apply in_map_iff in Hp as (x & <- & Hx). apply In_range in Hx. simpl. lia.
  - intros [Hy Hx]. exists (snd p). rewrite In_range. split; [lia|].
    apply in_map_iff. exists (fst p). rewrite In_range.
    destruct p; simpl in *. split; [reflexivity|lia].
Qed.

Lemma NoDup_tile_steps w h T ntx idx : NoDup (tile_steps w h T ntx idx).
Proof.
  unfold tile_steps. apply NoDup_flat_map.
  - apply NoDup_range.
  - intros y _. apply NoDup_fmap_2; [|apply NoDup_range].
    intros a b [= ->]. reflexivity.
  - intros a b x _ _ Ha Hb.
    apply list_elem_of_In, in_map_iff in Ha as (? & <- & _).
    apply list_elem_of_In, in_map_iff in Hb as (? & [= _ ->] & _). reflexivity.
Qed.

Lemma block_unique T q a : 1 <= T -> q * T <= a < q * T + T -> q = a / T.
Proof. intros HT H. apply Z.div_unique with (r := a - q * T); lia. Qed.

Lemma block_bounds T a : 1 <= T -> a / T * T <= a < a / T * T + T.
Proof.
  intros HT. pose proof (Z.div_mod a T ltac:(lia)).
  pose proof (Z.mod_pos_bound a T ltac:(lia)). lia.
Qed.

Lemma num_tiles T n :
  1 <= T -> 0 <= n ->
  Z.quot (n + T - 1) T = (n + T - 1) / T /\
  (forall a, 0 <= a < n -> 0 <= a / T < (n + T - 1) / T) /\
  (forall q, 0 <= q < (n + T - 1) / T -> q * T < n).
Proof.
  intros HT Hn. split; [apply Z.quot_div_nonneg; lia|]. split.
  - intros a Ha. split; [apply Z.div_pos; lia|].
    pose proof (block_bounds T a HT). pose proof (block_bounds T (n + T - 1) HT).
    nia.
  - intros q Hq. pose proof (block_bounds T (n + T - 1) HT). nia.
Qed.

(** The flattened tile list visits every pixel exactly once. *)
Lemma tiles_perm w h T :
  1 <= T -> 0 <= w -> 0 <= h ->
  Permutation
    (flat_map (tile_steps w h T (Z.quot (w + T - 1) T))
              (range 0 (Z.quot (w + T - 1) T * Z.quot (h + T - 1) T)))
    (all_pixels w h).
Proof.
  intros HT Hw Hh.
  destruct (num_tiles T w HT Hw) as (-> & Hxa & Hxq).
  destruct (num_tiles T h HT Hh) as (-> & Hya & Hyq).
  set (ntx := (w + T - 1) / T) in *. set (nty := (h + T - 1) / T) in *.
  assert (0 <= ntx) by (apply Z.div_pos; lia).
  assert (0 <= nty) by (apply Z.div_pos; lia).
  assert (forall idx, 0 <= idx < ntx * nty ->
            Z.quot idx ntx = idx / ntx /\ Z.rem idx ntx = idx mod ntx /\
            0 <= idx / ntx < nty /\ 0 <= idx mod ntx < ntx) as Hidx.
  { intros idx Hi. assert (0 < ntx) by nia.
    rewrite Z.quot_div_nonneg, Z.rem_mod_nonneg by lia.
    pose proof (Z.mod_pos_bound idx ntx ltac:(lia)).
    pose proof (Z.div_mod idx ntx ltac:(lia)).
    repeat split; try lia; [apply Z.div_pos; lia|].
    apply Z.div_lt_upper_bound; lia. }
  apply NoDup_Permutation.
  - apply NoDup_flat_map.
    + apply NoDup_range.
    + intros. apply NoDup_tile_steps.
    + intros a b p Ha Hb Hpa Hpb.
      apply elem_of_range in Ha, Hb.
      apply list_elem_of_In, tile_steps_in in Hpa, Hpb.
      destruct (Hidx a Ha) as (Ea1 & Ea2 & Ha1 & Ha2).
      destruct (Hidx b Hb) as (Eb1 & Eb2 & Hb1 & Hb2).
      rewrite Ea1, Ea2 in Hpa. rewrite Eb1, Eb2 in Hpb.
      assert (a / ntx = snd p / T) by (apply block_unique; lia).
      assert (b / ntx = snd p / T) by (apply block_unique; lia).
      assert (a mod ntx = fst p / T) by (apply block_unique; lia).
      assert (b mod ntx = fst p / T) by (apply block_unique; lia).
      rewrite (Z.div_mod a ntx), (Z.div_mod b ntx) by lia. congruence.
  - apply NoDup_all_pixels.
  - intros p. rewrite !list_elem_of_In, all_pixels_in, in_flat_map.
    unfold in_bounds. split.
    + intros (idx & Hi & Hp). apply In_range in Hi. apply tile_steps_in in Hp.
      destruct (Hidx idx Hi) as (E1 & E2 & H1 & H2).
      rewrite E1, E2 in Hp. nia.
    + intros [Hx Hy].
      specialize (Hxa _ Hx). specialize (Hya _ Hy).
      pose proof (block_bounds T (fst p) HT). pose proof (block_bounds T (snd p) HT).
      exists (snd p / T * ntx + fst p / T).
      assert (0 <= snd p / T * ntx + fst p / T < ntx * nty) as Hi by nia.
      rewrite In_range, tile_steps_in. split; [lia|].
      destruct (Hidx _ Hi) as (E1 & E2 & _ & _). rewrite E1, E2.
      assert ((snd p / T * ntx + fst p / T) / ntx = snd p / T) as ->.
      { symmetry. apply Z.div_unique with (r := fst p / T); lia. }
      assert ((snd p / T * ntx + fst p / T) mod ntx = fst p / T) as ->.
      { symmetry. apply Z.mod_unique with (q := snd p / T); lia. }
      lia.
Qed.

End tile_facts.

(* ===================================================================== *)
(** * Facts about the IEEE-754 operations *)
(* ===================================================================== *)

Module float_facts.
Import ieee.

Lemma digits2_size p : digits2_pos p = Pos.size p.
Proof. induction p; simpl; congruence. Qed.

Lemma Zdigits2_log2 m : 0 < m -> Zdigits2 m = Z.log2 m + 1.
Proof.
  destruct m as [|p|p]; try lia. intros _. simpl.
  rewrite digits2_size. destruct p; simpl; lia.
Qed.

Lemma Zdigits2_nonneg m : 0 <= Zdigits2 m.
Proof. destruct m; simpl; lia. Qed.

Lemma Zdigits2_pos m : 0 < m -> 1 <= Zdigits2 m.
Proof.
  intros H. rewrite Zdigits2_log2 by assumption.
  pose proof (Z.log2_nonneg m). lia.
Qed.

Lemma Zdigits2_bounds m : 0 < m -> 2 ^ (Zdigits2 m - 1) <= m < 2 ^ Zdigits2 m.
Proof.
  intros H. rewrite Zdigits2_log2 by assumption.
  replace (Z.log2 m + 1 - 1) with (Z.log2 m) by lia.
  replace (Z.log2 m + 1) with (Z.succ (Z.log2 m)) by lia.
  apply Z.log2_spec. assumption.
Qed.

Lemma Zdigits2_unique m d : 0 < m -> 2 ^ (d - 1) <= m < 2 ^ d -> Zdigits2 m = d.
Proof.
  intros Hm H. rewrite Zdigits2_log2 by assumption.
  assert (0 <= d - 1).
  { destruct (Z.le_gt_cases 0 (d - 1)); [assumption|].
    destruct (Z.eq_dec d 0) as [->|]; [simpl in H; lia|].
    rewrite (Z.pow_neg_r 2 d) in H by lia. lia. }
  rewrite (Z.log2_unique m (d - 1)); [lia|assumption|].
  replace (Z.succ (d - 1)) with d by lia. assumption.
Qed.

Lemma Zdigits2_le a b : 0 <= a <= b -> Zdigits2 a <= Zdigits2 b.
Proof.
  intros [Ha Hab]. destruct (Z.eq_dec a 0) as [->|]; [apply Zdigits2_nonneg|].
  rewrite !Zdigits2_log2 by lia. pose proof (Z.log2_le_mono a b Hab). lia.
Qed.

Lemma Zdigits2_shiftr m n :
  0 <= n -> 0 < Z.shiftr m n -> Zdigits2 (Z.shiftr m n) = Zdigits2 m - n.
Proof.
  intros Hn Hpos.
  assert (0 < m).
  { destruct (Z.lt_trichotomy m 0) as [Hm|[->|Hm]]; try assumption.
    - pose proof (Z.shiftr_neg m n). lia.
    - rewrite Z.shiftr_0_l in Hpos. lia. }
  rewrite !Zdigits2_log2 by assumption.
  rewrite Z.log2_shiftr by assumption.
  assert (0 <= Z.log2 m - n); [|lia].
  destruct (Z.le_gt_cases n (Z.log2 m)); [lia|].
  rewrite Z.shiftr_eq_0 in Hpos by lia. lia.
Qed.

Lemma Zdigits2_shiftr_zero m n :
  0 <= m -> 0 <= n -> Z.shiftr m n = 0 -> Zdigits2 m <= n.
Proof.
  intros Hm Hn H. destruct (Z.eq_dec m 0) as [->|]; [simpl; lia|].
  rewrite Zdigits2_log2 by lia.
  apply Z.shiftr_eq_0_iff in H as [?|[? ?]]; lia.
Qed.

Lemma Zdigits2_mul_pow m k :
  0 < m -> 0 <= k -> Zdigits2 (m * 2 ^ k) = Zdigits2 m + k.
Proof.
  intros Hm Hk. pose proof (Zdigits2_bounds m Hm) as [Hlo Hhi].
  pose proof (Zdigits2_pos m Hm).
  assert (0 < 2 ^ k) by (apply Z.pow_pos_nonneg; lia).
  apply Zdigits2_unique; [nia|].
  replace (Zdigits2 m + k - 1) with (Zdigits2 m - 1 + k) by lia.
  rewrite !Z.pow_add_r by lia. nia.
Qed.

(** *** Shifting a mantissa to the right *)

Lemma iter_pos_nat {A : Type} (f : A -> A) (p : positive) (x : A) :
  SpecFloat.iter_pos f p x = Nat.iter (Pos.to_nat p) f x.
Proof.
  revert x. induction p as [p IH|p IH|]; intros x.
  - rewrite Pos2Nat.inj_xI. cbn [SpecFloat.iter_pos]. rewrite !IH.
    rewrite Nat.iter_succ_r.
    replace (2 * Pos.to_nat p)%nat with (Pos.to_nat p + Pos.to_nat p)%nat by lia.
    rewrite Nat.iter_add. reflexivity.
  - rewrite Pos2Nat.inj_xO. cbn [SpecFloat.iter_pos]. rewrite !IH.
    replace (2 * Pos.to_nat p)%nat with (Pos.to_nat p + Pos.to_nat p)%nat by lia.
    rewrite Nat.iter_add. reflexivity.
  - reflexivity.
Qed.

Lemma shr_1_m mrs : 0 <= shr_m mrs -> shr_m (shr_1 mrs) = Z.div2 (shr_m mrs).
Proof. destruct mrs as [[|[p|p|]|p] r s]; simpl; try reflexivity; lia. Qed.

Lemma shr_iter_m k mrs :
  0 <= shr_m mrs ->
  shr_m (Nat.iter k shr_1 mrs) = Z.shiftr (shr_m mrs) (Z.of_nat k).
Proof.
  intros Hm. induction k as [|k IH].
  - simpl. rewrite Z.shiftr_0_r. reflexivity.
  - rewrite Nat2Z.inj_succ. simpl Nat.iter. rewrite shr_1_m.
    + rewrite IH. rewrite <- Z.add_1_r. rewrite <- Z.shiftr_shiftr by lia.
      rewrite Z.div2_spec. reflexivity.
    + rewrite IH. apply Z.shiftr_nonneg. assumption.
Qed.

Lemma shr_record_of_loc_m m l : shr_m (shr_record_of_loc m l) = m.
Proof. destruct l as [|[]]; reflexivity. Qed.

Lemma shr_m_spec mrs e n :
  0 <= shr_m mrs -> 0 <= n ->
  shr_m (fst (shr mrs e n)) = Z.shiftr (shr_m mrs) n /\ snd (shr mrs e n) = e + n.
Proof.
  intros Hm Hn. destruct n as [|p|p]; simpl; try lia.
  - split; [reflexivity|lia].
  - split; [|reflexivity]. rewrite iter_pos_nat, shr_iter_m by assumption.
    rewrite positive_nat_Z. reflexivity.
Qed.

Section Format.
Variables prec emax : Z.
Hypothesis Hprec : 0 < prec.
Hypothesis Hemax : prec < emax.

Local Abbreviation fexp := (SpecFloat.fexp prec emax).
Local Abbreviation emin := (SpecFloat.emin prec emax).
Local Abbreviation canonical := (ieee.canonical prec emax).

Lemma fexp_mono a b : a <= b -> fexp a <= fexp b.
Proof. unfold SpecFloat.fexp. lia. Qed.

Lemma fexp_ge_emin a : emin <= fexp a.
Proof. unfold SpecFloat.fexp. lia. Qed.

(** After one alignment step the exponent is canonical for the
    shifted mantissa. *)
Lemma shr_fexp_canonical m e l :
  0 <= m -> e <= fexp (Zdigits2 m + e) ->
  0 <= shr_m (fst (shr_fexp prec emax m e l)) /\
  canonical (shr_m (fst (shr_fexp prec emax m e l)))
            (snd (shr_fexp prec emax m e l)).
Proof.
  intros Hm He. unfold shr_fexp.
  set (n := fexp (Zdigits2 m + e) - e).
  destruct (shr_m_spec (shr_record_of_loc m l) e n) as [E1 E2];
    [rewrite shr_record_of_loc_m; lia|lia|].
  rewrite E1, E2, shr_record_of_loc_m.
  split; [apply Z.shiftr_nonneg; assumption|].
  unfold ieee.canonical.
  replace (e + n) with (fexp (Zdigits2 m + e)) by (unfold n; lia).
  destruct (Z.eq_dec (Z.shiftr m n) 0) as [E0|Hne].
  - rewrite E0. simpl Zdigits2. rewrite Z.add_0_l.
    pose proof (Zdigits2_shiftr_zero m n Hm ltac:(lia) E0).
    unfold SpecFloat.fexp in *. unfold n in *. lia.
  - pose proof (Z.shiftr_nonneg m n).
    rewrite Zdigits2_shiftr by lia. f_equal. unfold n. lia.
Qed.

Lemma round_nearest_even_range m l :
  round_nearest_even m l = m \/ round_nearest_even m l = m + 1.
Proof.
  destruct l as [|[]]; simpl; auto. destruct (Z.even m); auto.
Qed.

(** Rounding always produces a number of the format. *)
Lemma binary_round_aux_valid sx mx ex lx :
  0 <= mx -> ex <= fexp (Zdigits2 mx + ex) ->
  valid_binary prec emax (binary_round_aux prec emax sx mx ex lx) = true.
Proof.
  intros Hm He. unfold binary_round_aux.
  destruct (shr_fexp_canonical mx ex lx Hm He) as [H1 C1].
  destruct (shr_fexp prec emax mx ex lx) as [mrs' e'] eqn:E1. simpl in H1, C1.
  set (m1 := round_nearest_even (shr_m mrs') (loc_of_shr_record mrs')).
  assert (shr_m mrs' <= m1 <= shr_m mrs' + 1) as Hr.
  { unfold m1.
    destruct (round_nearest_even_range (shr_m mrs') (loc_of_shr_record mrs'))
      as [-> | ->]; lia. }
  assert (e' <= fexp (Zdigits2 m1 + e')) as He1.
  { unfold ieee.canonical in C1. rewrite <- C1 at 1. apply fexp_mono.
    pose proof (Zdigits2_le (shr_m mrs') m1 ltac:(lia)). lia. }
  destruct (shr_fexp_canonical m1 e' loc_Exact ltac:(lia) He1) as [H2 C2].
  destruct (shr_fexp prec emax m1 e' loc_Exact) as [mrs'' e''] eqn:E2.
  simpl in H2, C2.
  destruct (shr_m mrs'') as [|m|m] eqn:Em; try reflexivity.
  destruct (Z.leb_spec e'' (emax - prec)); [|reflexivity].
  simpl. unfold bounded, canonical_mantissa.
  unfold ieee.canonical in C2. simpl in C2. rewrite C2.
  rewrite Z.eqb_refl. simpl. apply Z.leb_le. assumption.
Qed.

Lemma div_core_shift m1 e1 m2 e2 :
  0 < m1 -> 0 < m2 ->
  let '(q, e', _) := SFdiv_core_binary prec emax m1 e1 m2 e2 in
  0 <= q /\ e' <= fexp (Zdigits2 q + e').
Proof.
  intros H1 H2. unfold SFdiv_core_binary.
  set (d1 := Zdigits2 m1). set (d2 := Zdigits2 m2).
  set (e' := Z.min (fexp (d1 + e1 - (d2 + e2))) (e1 - e2)).
  set (s := e1 - e2 - e').
  assert (0 <= s) by (unfold s, e'; lia).
  set (m' := match s with Z.pos _ => Z.shiftl m1 s | 0 => m1 | Z.neg _ => 0 end).
  assert (m' = m1 * 2 ^ s) as Em'.
  { unfold m'. clearbody s. destruct s as [|p|p]; try lia.
    rewrite Z.shiftl_mul_pow2 by lia. reflexivity. }
  pose proof (Z_div_mod m' m2 ltac:(lia)) as Hdm.
  destruct (Z.div_eucl m' m2) as [q r]. destruct Hdm as [Hq Hr].
  assert (0 < 2 ^ s) by (apply Z.pow_pos_nonneg; lia).
  assert (0 <= q) by nia.
  split; [assumption|].
  pose proof (Zdigits2_bounds m1 H1) as [Hl1 Hh1].
  pose proof (Zdigits2_bounds m2 H2) as [Hl2 Hh2].
  fold d1 in Hl1, Hh1. fold d2 in Hl2, Hh2.
  assert (1 <= d1) by (apply Zdigits2_pos; assumption).
  assert (1 <= d2) by (apply Zdigits2_pos; assumption).
  destruct (Z.le_gt_cases e' emin) as [Hle|Hgt].
  { pose proof (fexp_ge_emin (Zdigits2 q + e')). lia. }
  (* the quotient has at least [prec] digits *)
  assert (prec <= d1 + s - d2) as Hs.
  { unfold s, e' in *. unfold SpecFloat.fexp in *. lia. }
  assert (2 ^ (d1 + s - d2 - 1) <= q) as Hq2.
  { assert (2 ^ (d1 - 1 + s) <= m') by (rewrite Em', Z.pow_add_r by lia; nia).
    assert (2 ^ (d1 - 1 + s) = 2 ^ (d1 + s - d2 - 1) * 2 ^ d2) as E.
    { rewrite <- Z.pow_add_r by lia. f_equal. lia. }
    assert (0 < 2 ^ (d1 + s - d2 - 1)) by (apply Z.pow_pos_nonneg; lia).
    nia. }
  assert (d1 + s - d2 <= Zdigits2 q) as Hdq.
  { assert (0 < 2 ^ (d1 + s - d2 - 1)) by (apply Z.pow_pos_nonneg; lia).
    assert (0 < q) as Hq0 by lia.
    destruct (Z.le_gt_cases (d1 + s - d2) (Zdigits2 q)); [assumption|].
    pose proof (Zdigits2_bounds q Hq0) as [_ Hhq].
    assert (2 ^ Zdigits2 q <= 2 ^ (d1 + s - d2 - 1)).
    { apply Z.pow_le_mono_r; lia. }
    lia. }
  etransitivity; [apply Z.le_min_l|]. apply fexp_mono. unfold s in Hdq. lia.
Qed.

(** The quotient of two numbers is a number of the format (or an
    infinity or a NaN), whatever the operands. *)
Lemma SFdiv_valid x y : valid_binary prec emax (SFdiv prec emax x y) = true.
Proof.
  destruct x as [sx|sx| |sx mx ex], y as [sy|sy| |sy my ey]; try reflexivity.
  unfold SFdiv.
  pose proof (div_core_shift (Z.pos mx) ex (Z.pos my) ey ltac:(lia) ltac:(lia)) as H.
  destruct (SFdiv_core_binary prec emax (Z.pos mx) ex (Z.pos my) ey) as [[q e'] l].
  destruct H as [Hq He]. apply binary_round_aux_valid; assumption.
Qed.

End Format.
End float_facts.

(* ===================================================================== *)
(** * Saturation to [0, 255] and the conversion to a byte *)
(* ===================================================================== *)

Module saturation_facts.
Import float_facts filter.

Lemma f255_eq : f255 = S754_finite false 16711680 (-16).
Proof. reflexivity. Qed.

Lemma valid_mantissa_lt s m e :
  valid_binary 24 128 (S754_finite s m e) = true -> Z.pos m < 2 ^ 24.
Proof.
  simpl. unfold bounded, canonical_mantissa.
  intros H. apply andb_prop in H as [H _]. apply Z.eqb_eq in H.
  change (Z.pos (digits2_pos m)) with (Zdigits2 (Z.pos m)) in H.
  pose proof (Zdigits2_bounds (Z.pos m) ltac:(lia)) as [_ Hhi].
  assert (Zdigits2 (Z.pos m) <= 24) by (unfold fexp in H; lia).
  eapply Z.lt_le_trans; [exact Hhi|]. apply Z.pow_le_mono_r; lia.
Qed.

Lemma shiftl_neg_bound m e k :
  0 <= m -> e < 0 -> m < k * 2 ^ (- e) -> 0 <= Z.shiftl m e < k.
Proof.
  intros Hm He Hk.
  replace e with (- (- e)) by lia. rewrite Z.shiftl_opp_r.
  rewrite Z.shiftr_div_pow2 by lia.
  assert (0 < 2 ^ (- e)) by (apply Z.pow_pos_nonneg; lia).
  split; [apply Z.div_pos; lia|].
  apply Z.div_lt_upper_bound; lia.
Qed.

Lemma SFcompare_pos m1 e1 m2 e2 :
  SFcompare (S754_finite false m1 e1) (S754_finite false m2 e2)
  = Some (match e1 ?= e2 with
          | Lt => Lt
          | Gt => Gt
          | Eq => (Z.pos m1 ?= Z.pos m2)
          end).
Proof. reflexivity. Qed.

Lemma u8_of_float_pos m e :
  0 <= Z.shiftl (Z.pos m) e <= 255 ->
  u8_of_float (S754_finite false m e) = Ok (Z.shiftl (Z.pos m) e).
Proof.
  intros H. unfold u8_of_float, trunc_float, cond_Zopp.
  destruct (Z.leb_spec 0 (Z.shiftl (Z.pos m) e)); [|lia].
  destruct (Z.leb_spec (Z.shiftl (Z.pos m) e) 255); [|lia]. reflexivity.
Qed.

(** [max(0.0f, min(255.0f, v))] on a positive finite [v]. *)
Lemma serial_saturation_pos m e :
  f32.max f32.zero (f32.min (S754_finite false 16711680 (-16))
                            (S754_finite false m e))
  = match e ?= -16 with
    | Lt => S754_finite false m e
    | Gt => S754_finite false 16711680 (-16)
    | Eq => match Z.pos m ?= 16711680 with
            | Lt => S754_finite false m e
            | _ => S754_finite false 16711680 (-16)
            end
    end.
Proof.
  unfold f32.min, f32.ltb, SFltb. rewrite SFcompare_pos.
  destruct (e ?= -16); try reflexivity.
  destruct (Z.pos m ?= 16711680); reflexivity.
Qed.

(** [std::clamp(v, 0.0f, 255.0f)] on a positive finite [v]. *)
Lemma clamp_pos m e :
  f32.clamp (S754_finite false m e) f32.zero (S754_finite false 16711680 (-16))
  = match e ?= -16 with
    | Lt => S754_finite false m e
    | Gt => S754_finite false 16711680 (-16)
    | Eq => match Z.pos m ?= 16711680 with
            | Gt => S754_finite false 16711680 (-16)
            | _ => S754_finite false m e
            end
    end.
Proof.
  unfold f32.clamp, f32.ltb, SFltb. rewrite SFcompare_pos.
  change (SFcompare (S754_finite false m e) f32.zero) with (Some Gt).
  cbv iota. rewrite (Z.compare_antisym e (-16)), (Z.compare_antisym (Z.pos m) 16711680).
  destruct (e ?= -16); try reflexivity.
  destruct (Z.pos m ?= 16711680); reflexivity.
Qed.

(** The serial saturation always yields a value that converts to a
    byte, also when the normalised sum is an infinity or a NaN. *)
Lemma serial_saturation_defined v :
  valid_binary 24 128 v = true ->
  exists z, 0 <= z <= 255 /\
    u8_of_float (f32.max f32.zero (f32.min f255 v)) = Ok z.
Proof.
  intros Hv. rewrite f255_eq.
  destruct v as [s|s| |s m e].
  - exists 0. split; [lia|]. destruct s; reflexivity.
  - destruct s; [exists 0|exists 255]; (split; [lia|reflexivity]).
  - exists 255. split; [lia|reflexivity].
  - destruct s.
    { exists 0. split; [lia|]. reflexivity. }
    pose proof (valid_mantissa_lt _ _ _ Hv) as Hm.
    rewrite serial_saturation_pos.
    assert (u8_of_float (S754_finite false 16711680 (-16)) = Ok 255) as E255
      by reflexivity.
    destruct (Z.compare_spec e (-16)) as [->|He|He].
    + destruct (Z.compare_spec (Z.pos m) 16711680) as [Heq|Hlt|Hgt].
      * exists 255. split; [lia|exact E255].
      * exists (Z.shiftl (Z.pos m) (-16)).
        assert (0 <= Z.shiftl (Z.pos m) (-16) < 255) as Hb.
        { apply shiftl_neg_bound; [lia|lia|]. change (2 ^ (- -16)) with 65536. lia. }
        split; [lia|]. apply u8_of_float_pos. lia.
      * exists 255. split; [lia|exact E255].
    + exists (Z.shiftl (Z.pos m) e).
      assert (0 <= Z.shiftl (Z.pos m) e < 256) as Hb.
      { apply shiftl_neg_bound; [lia|lia|].
        assert (2 ^ 17 <= 2 ^ (- e)) as Hp by (apply Z.pow_le_mono_r; lia).
        change (2 ^ 17) with 131072 in Hp. change (2 ^ 24) with 16777216 in Hm.
        lia. }
      split; [lia|]. apply u8_of_float_pos. lia.
    + exists 255. split; [lia|exact E255].
Qed.

(** On everything but a NaN, [std::clamp] and [max(0, min(255, .))]
    convert to the same byte. *)
Lemma saturation_agree v :
  v <> S754_nan ->
  u8_of_float (f32.clamp v f32.zero f255)
  = u8_of_float (f32.max f32.zero (f32.min f255 v)).
Proof.
  intros Hv. rewrite f255_eq.
  destruct v as [s|s| |s m e]; try congruence.
  - destruct s; reflexivity.
  - destruct s; reflexivity.
  - destruct s; [reflexivity|].
    rewrite clamp_pos, serial_saturation_pos.
    destruct (Z.compare_spec e (-16)) as [->|He|He]; try reflexivity.
    destruct (Z.compare_spec (Z.pos m) 16711680) as [[= ->]|Hlt|Hgt]; reflexivity.
Qed.

(** On a NaN the two disagree: the serial code stores 255, the parallel
    code converts the NaN itself. *)
Lemma saturation_nan :
  u8_of_float (f32.max f32.zero (f32.min f255 S754_nan)) = Ok 255 /\
  u8_of_float (f32.clamp S754_nan f32.zero f255) = Undefined.
Proof. split; reflexivity. Qed.

End saturation_facts.

(* ===================================================================== *)
(** * Exact arithmetic on integers that fit the mantissa *)
(* ===================================================================== *)

Module exact_facts.
Import ieee float_facts.

Lemma shr_1_even a :
  0 <= a ->
  shr_1 (Build_shr_record (2 * a) false false) = Build_shr_record a false false.
Proof. destruct a as [|p|p]; intros H; try lia; reflexivity. Qed.

Lemma shr_iter_exact k a :
  0 <= a ->
  Nat.iter k shr_1 (Build_shr_record (a * 2 ^ Z.of_nat k) false false)
  = Build_shr_record a false false.
Proof.
  intros Ha. induction k as [|k IH].
  - simpl. f_equal. lia.
  - rewrite Nat.iter_succ_r.
    replace (a * 2 ^ Z.of_nat (S k)) with (2 * (a * 2 ^ Z.of_nat k)).
    + rewrite shr_1_even; [exact IH|].
      assert (0 <= 2 ^ Z.of_nat k) by (apply Z.pow_nonneg; lia). nia.
    + rewrite Nat2Z.inj_succ, Z.pow_succ_r by lia. lia.
Qed.

Lemma shr_exact a e k :
  0 <= a -> 0 <= k ->
  shr (Build_shr_record (a * 2 ^ k) false false) e k
  = (Build_shr_record a false false, e + k).
Proof.
  intros Ha Hk. destruct k as [|p|p]; try lia; simpl shr.
  - rewrite Z.pow_0_r, Z.mul_1_r, Z.add_0_r. reflexivity.
  - rewrite iter_pos_nat. rewrite <- (positive_nat_Z p) at 1.
    rewrite shr_iter_exact by assumption. reflexivity.
Qed.

Lemma pos_iter_xO p d : Z.pos (Pos.iter xO p d) = Z.pos p * 2 ^ Z.pos d.
Proof.
  rewrite <- Z.shiftl_mul_pow2 by lia. simpl.
  apply (Pos.iter_swap_gen _ _ Z.pos xO (Z.mul 2)). reflexivity.
Qed.

Lemma shl_align_fst mx ex ez :
  ez <= ex -> Z.pos (fst (shl_align mx ex ez)) = Z.pos mx * 2 ^ (ex - ez).
Proof.
  intros H. unfold shl_align.
  destruct (ez - ex) as [|d|d] eqn:E; try lia; simpl fst.
  - replace (ex - ez) with 0 by lia. lia.
  - rewrite pos_iter_xO. f_equal. f_equal. lia.
Qed.

Lemma Zdigits2_pow k : 0 <= k -> Zdigits2 (2 ^ k) = k + 1.
Proof.
  intros Hk. assert (0 < 2 ^ k) by (apply Z.pow_pos_nonneg; lia).
  apply Zdigits2_unique; [assumption|].
  replace (k + 1 - 1) with k by lia. rewrite Z.pow_add_r by lia. lia.
Qed.

Lemma Zdigits2_mul a b :
  0 < a -> 0 < b -> Zdigits2 a + Zdigits2 b - 1 <= Zdigits2 (a * b).
Proof.
  intros Ha Hb.
  pose proof (Zdigits2_bounds a Ha) as [Hla _].
  pose proof (Zdigits2_bounds b Hb) as [Hlb _].
  pose proof (Zdigits2_pos a Ha). pose proof (Zdigits2_pos b Hb).
  assert (0 < 2 ^ (Zdigits2 a - 1)) by (apply Z.pow_pos_nonneg; lia).
  assert (0 < 2 ^ (Zdigits2 b - 1)) by (apply Z.pow_pos_nonneg; lia).
  assert (2 ^ (Zdigits2 a + Zdigits2 b - 2) <= a * b).
  { replace (Zdigits2 a + Zdigits2 b - 2) with ((Zdigits2 a - 1) + (Zdigits2 b - 1)) by lia.
    rewrite Z.pow_add_r by lia. nia. }
  pose proof (Zdigits2_le (2 ^ (Zdigits2 a + Zdigits2 b - 2)) (a * b)) as Hle.
  rewrite Zdigits2_pow in Hle by lia.
  assert (0 <= 2 ^ (Zdigits2 a + Zdigits2 b - 2)) by (apply Z.pow_nonneg; lia).
  lia.
Qed.

Lemma Zdigits2_lt_pow a d : 0 <= a < 2 ^ d -> 0 <= d -> Zdigits2 a <= d.
Proof.
  intros [Ha Hlt] Hd. destruct (Z.eq_dec a 0) as [->|]; [simpl; lia|].
  destruct (Z.le_gt_cases (Zdigits2 a) d); [assumption|].
  pose proof (Zdigits2_bounds a ltac:(lia)) as [Hlo _].
  assert (2 ^ d <= 2 ^ (Zdigits2 a - 1)) by (apply Z.pow_le_mono_r; lia).
  lia.
Qed.

Section Format.
Variables prec emax : Z.
Hypothesis Hprec : 0 < prec.
Hypothesis Hemax : prec < emax.

Local Abbreviation fexp := (SpecFloat.fexp prec emax).
Local Abbreviation emin := (SpecFloat.emin prec emax).
Local Abbreviation canonical := (ieee.canonical prec emax).
Local Abbreviation is_int := (ieee.is_int prec emax).

(** Rounding a mantissa that only carries trailing zeros beyond the
    canonical one is exact. *)
Lemma binary_round_aux_exact s m E k :
  canonical (Z.pos m) E -> E <= emax - prec -> 0 <= k ->
  binary_round_aux prec emax s (Z.pos m * 2 ^ k) (E - k) loc_Exact
  = S754_finite s m E.
Proof.
  intros Hc HE Hk. unfold binary_round_aux, shr_fexp.
  rewrite Zdigits2_mul_pow by lia.
  replace (Zdigits2 (Z.pos m) + k + (E - k)) with (Zdigits2 (Z.pos m) + E) by lia.
  unfold ieee.canonical in Hc. rewrite Hc.
  replace (E - (E - k)) with k by lia.
  simpl shr_record_of_loc. rewrite shr_exact by lia.
  replace (E - k + k) with E by lia.
  simpl shr_m. simpl loc_of_shr_record. simpl round_nearest_even.
  rewrite Hc. rewrite Z.sub_diag. cbn [shr shr_m].
  rewrite (proj2 (Z.leb_le _ _) HE). reflexivity.
Qed.

(** Rounding any representation of a representable magnitude yields
    its canonical representation. *)
Lemma binary_round_exact s mx ex m E :
  canonical (Z.pos m) E -> E <= emax - prec ->
  (ex <= E /\ Z.pos mx = Z.pos m * 2 ^ (E - ex)) \/
  (E <= ex /\ Z.pos m = Z.pos mx * 2 ^ (ex - E)) ->
  binary_round prec emax s mx ex = S754_finite s m E.
Proof.
  intros Hc HE Hrel. unfold binary_round.
  change (Z.pos (digits2_pos mx)) with (Zdigits2 (Z.pos mx)).
  assert (fexp (Zdigits2 (Z.pos mx) + ex) = E) as ->.
  { transitivity (fexp (Zdigits2 (Z.pos m) + E)); [|exact Hc]. f_equal.
    destruct Hrel as [[H1 H2]|[H1 H2]]; rewrite H2;
      rewrite Zdigits2_mul_pow by lia; lia. }
  destruct Hrel as [[H1 H2]|[H1 H2]].
  - unfold shl_align. destruct (E - ex) as [|d|d] eqn:Ed; try lia.
    + rewrite H2, Z.pow_0_r.
      replace ex with (E - 0) by lia. rewrite <- (Z.pow_0_r 2).
      apply binary_round_aux_exact; [assumption|assumption|lia].
    + rewrite H2. replace ex with (E - Z.pos d) by lia.
      apply binary_round_aux_exact; [assumption|assumption|lia].
  - pose proof (shl_align_fst mx ex E H1) as Hf.
    destruct (shl_align mx ex E) as [mz ez] eqn:Es. simpl in Hf.
    assert (ez = E) as ->.
    { unfold shl_align in Es. destruct (E - ex) as [|d|d] eqn:Ed;
        injection Es as _ <-; lia. }
    rewrite Hf, <- H2.
    replace (Z.pos m) with (Z.pos m * 2 ^ 0) by (rewrite Z.pow_0_r; lia).
    replace E with (E - 0) at 1 by lia.
    apply binary_round_aux_exact; [assumption|assumption|lia].
Qed.

(** Every positive integer below [2^prec] is a number of the format. *)
Lemma int_repr n :
  0 < n < 2 ^ prec ->
  exists m, Z.pos m = n * 2 ^ (- fexp (Zdigits2 n)) /\
            fexp (Zdigits2 n) <= 0 /\
            canonical (Z.pos m) (fexp (Zdigits2 n)) /\
            fexp (Zdigits2 n) <= emax - prec.
Proof.
  intros [Hn Hlt].
  pose proof (Zdigits2_pos n Hn) as Hd.
  pose proof (Zdigits2_lt_pow n prec ltac:(lia) ltac:(lia)) as Hdp.
  set (E := fexp (Zdigits2 n)).
  assert (E <= 0) as HE0 by (unfold E, SpecFloat.fexp, SpecFloat.emin; lia).
  assert (0 < 2 ^ (- E)) by (apply Z.pow_pos_nonneg; lia).
  assert (0 < n * 2 ^ (- E)) as Hpos by nia.
  destruct (n * 2 ^ (- E)) as [|m|m] eqn:Em; try lia.
  exists m. split; [reflexivity|]. split; [assumption|]. split.
  - unfold ieee.canonical. rewrite <- Em. rewrite Zdigits2_mul_pow by lia.
    replace (Zdigits2 n + - E + E) with (Zdigits2 n) by lia. reflexivity.
  - unfold E, SpecFloat.fexp, SpecFloat.emin. lia.
Qed.

Lemma is_int_exp s m e z :
  is_int (S754_finite s m e) z -> e = fexp (Zdigits2 (Z.abs z)).
Proof.
  simpl. intros (Hz & _ & He & Hm & Hc & _).
  unfold ieee.canonical in Hc. rewrite <- Hc at 1. f_equal.
  rewrite Hm. rewrite Zdigits2_mul_pow by lia. lia.
Qed.

(** Normalising a representable magnitude gives the float of the
    integer. *)
Lemma binary_round_int s mx ex z :
  ex <= 0 -> Z.pos mx = Z.abs z * 2 ^ (- ex) -> Z.abs z < 2 ^ prec ->
  s = (z <? 0) ->
  is_int (binary_round prec emax s mx ex) z.
Proof.
  intros Hex Hmx Hlt Hs.
  assert (0 < 2 ^ (- ex)) by (apply Z.pow_pos_nonneg; lia).
  assert (0 < Z.abs z) as Hz by nia.
  destruct (int_repr (Z.abs z) ltac:(lia)) as (m & Hm & HE0 & Hc & HE).
  set (E := fexp (Zdigits2 (Z.abs z))) in *.
  rewrite (binary_round_exact s mx ex m E Hc HE).
  - simpl. repeat split; try assumption. lia.
  - destruct (Z.le_gt_cases ex E).
    + left. split; [assumption|]. rewrite Hmx, Hm.
      rewrite <- Z.mul_assoc, <- Z.pow_add_r by lia. do 2 f_equal. lia.
    + right. split; [lia|]. rewrite Hmx, Hm.
      rewrite <- Z.mul_assoc, <- Z.pow_add_r by lia. do 2 f_equal. lia.
Qed.

Lemma binary_normalize_int S ez z :
  ez <= 0 -> S = z * 2 ^ (- ez) -> Z.abs z < 2 ^ prec ->
  is_int (binary_normalize prec emax S ez false) z.
Proof.
  intros Hez HS Hlt.
  assert (0 < 2 ^ (- ez)) by (apply Z.pow_pos_nonneg; lia).
  destruct S as [|p|p]; simpl binary_normalize.
  - simpl. nia.
  - apply binary_round_int; try assumption.
    + rewrite HS. f_equal. nia.
    + symmetry. apply Z.ltb_ge. nia.
  - apply binary_round_int; try assumption.
    + assert (z < 0) by nia. rewrite Z.abs_neq by lia. lia.
    + symmetry. apply Z.ltb_lt. nia.
Qed.

(** Conversion of an integer that fits the mantissa is exact. *)
Lemma of_int_is_int z :
  Z.abs z < 2 ^ prec -> is_int (binary_normalize prec emax z 0 false) z.
Proof.
  intros H. apply binary_normalize_int; [lia| |assumption].
  simpl. lia.
Qed.

Lemma is_int_signed s m e z :
  is_int (S754_finite s m e) z -> cond_Zopp s (Z.pos m) = z * 2 ^ (- e).
Proof.
  simpl. intros (Hz & Hs & He & Hm & _). rewrite Hm, Hs.
  destruct (Z.ltb_spec z 0); simpl; [rewrite Z.abs_neq by lia|rewrite Z.abs_eq by lia];
    lia.
Qed.

(** Addition of two integers whose sum fits the mantissa is exact. *)
Lemma add_exact x y a b :
  is_int x a -> is_int y b -> Z.abs (a + b) < 2 ^ prec ->
  is_int (SFadd prec emax x y) (a + b).
Proof.
  intros Hx Hy Hlt.
  destruct x as [sx|sx| |sx mx ex], y as [sy|sy| |sy my ey];
    simpl in Hx, Hy; try contradiction.
  - subst. destruct sx, sy; reflexivity.
  - subst. exact Hy.
  - subst. rewrite Z.add_0_r. exact Hx.
  - pose proof (is_int_signed _ _ _ _ Hx) as Sx.
    pose proof (is_int_signed _ _ _ _ Hy) as Sy.
    destruct Hx as (_ & _ & Hex & _). destruct Hy as (_ & _ & Hey & _).
    unfold SFadd. set (ez := Z.min ex ey).
    apply binary_normalize_int; [lia| |assumption].
    assert (forall s (m : positive) e, ez <= e ->
              cond_Zopp s (Z.pos (fst (shl_align m e ez)))
              = cond_Zopp s (Z.pos m) * 2 ^ (e - ez)) as Hal.
    { intros s m e He. rewrite shl_align_fst by assumption.
      destruct s; simpl; lia. }
    rewrite !Hal by (unfold ez; lia). rewrite Sx, Sy.
    rewrite <- !Z.mul_assoc, <- !Z.pow_add_r by (unfold ez; lia).
    replace (- ex + (ex - ez)) with (- ez) by lia.
    replace (- ey + (ey - ez)) with (- ez) by lia. lia.
Qed.

(** Multiplication of two integers whose product fits the mantissa
    is exact. *)
Lemma mul_exact x y a b :
  is_int x a -> is_int y b -> Z.abs (a * b) < 2 ^ prec ->
  is_int (SFmul prec emax x y) (a * b).
Proof.
  intros Hx Hy Hlt.
  destruct x as [sx|sx| |sx mx ex], y as [sy|sy| |sy my ey];
    simpl in Hx; simpl in Hy; try contradiction.
  - subst. reflexivity.
  - subst. reflexivity.
  - subst. simpl. lia.
  - pose proof (is_int_exp _ _ _ _ Hx) as Eex.
    pose proof (is_int_exp _ _ _ _ Hy) as Eey.
    destruct Hx as (Ha & Hsx & Hex & Hmx & _).
    destruct Hy as (Hb & Hsy & Hey & Hmy & _).
    assert (0 < Z.abs (a * b)) as Hab by (rewrite Z.abs_mul; nia).
    destruct (int_repr (Z.abs (a * b)) ltac:(lia)) as (m & Hm & HE0 & Hc & HE).
    set (E := fexp (Zdigits2 (Z.abs (a * b)))) in *.
    assert (ex + ey <= E) as Hk.
    { pose proof (Zdigits2_mul (Z.abs a) (Z.abs b) ltac:(lia) ltac:(lia)) as Hd.
      rewrite <- Z.abs_mul in Hd.
      pose proof (Zdigits2_pos (Z.abs a) ltac:(lia)).
      pose proof (Zdigits2_pos (Z.abs b) ltac:(lia)).
      unfold E. rewrite Eex, Eey. unfold SpecFloat.fexp in *.
      unfold SpecFloat.fexp in Eex, Eey. lia. }
    unfold SFmul.
    assert (Z.pos (mx * my) = Z.pos m * 2 ^ (E - (ex + ey))) as ->.
    { rewrite Pos2Z.inj_mul, Hmx, Hmy, Hm, Z.abs_mul.
      assert (2 ^ (- E) * 2 ^ (E - (ex + ey)) = 2 ^ (- ex) * 2 ^ (- ey)) as Hp.
      { rewrite <- !Z.pow_add_r by lia. f_equal. lia. }
      transitivity (Z.abs a * Z.abs b * (2 ^ (- E) * 2 ^ (E - (ex + ey))));
        [rewrite Hp|]; ring. }
    replace (ex + ey) with (E - (E - (ex + ey))) at 2 by lia.
    rewrite binary_round_aux_exact by (try assumption; lia).
    simpl. repeat split; try assumption; try lia.
    rewrite Hsx, Hsy.
    destruct (Z.ltb_spec a 0), (Z.ltb_spec b 0), (Z.ltb_spec (a * b) 0);
      simpl; try reflexivity; nia.
Qed.

(** Division of an integer by one of its divisors is exact. *)
Lemma div_exact x y a b c :
  is_int x a -> is_int y b -> b <> 0 -> a = c * b -> Z.abs c < 2 ^ prec ->
  is_int (SFdiv prec emax x y) c.
Proof.
  intros Hx Hy Hb0 Hac Hlt.
  destruct x as [sx|sx| |sx mx ex], y as [sy|sy| |sy my ey];
    simpl in Hx; simpl in Hy; try contradiction; try lia.
  - simpl. nia.
  - pose proof (is_int_exp _ _ _ _ Hx) as Eex.
    pose proof (is_int_exp _ _ _ _ Hy) as Eey.
    destruct Hx as (Ha & Hsx & Hex & Hmx & _).
    destruct Hy as (Hb & Hsy & Hey & Hmy & _).
    assert (c <> 0) as Hc0 by nia.
    assert (Z.abs a = Z.abs c * Z.abs b) as Habs by (rewrite Hac, Z.abs_mul; ring).
    destruct (int_repr (Z.abs c) ltac:(lia)) as (m & Hm & HE0 & Hc & HE).
    set (E := fexp (Zdigits2 (Z.abs c))) in *.
    set (da := Zdigits2 (Z.abs a)) in *. set (db := Zdigits2 (Z.abs b)) in *.
    assert (Zdigits2 (Z.pos mx) + ex = da) as Hd1.
    { rewrite Hmx, Zdigits2_mul_pow by lia. unfold da. lia. }
    assert (Zdigits2 (Z.pos my) + ey = db) as Hd2.
    { rewrite Hmy, Zdigits2_mul_pow by lia. unfold db. lia. }
    (* digits of the operands and of the quotient *)
    pose proof (Zdigits2_bounds (Z.abs a) ltac:(lia)) as [Hla Hha].
    pose proof (Zdigits2_bounds (Z.abs b) ltac:(lia)) as [Hlb Hhb].
    pose proof (Zdigits2_bounds (Z.abs c) ltac:(lia)) as [Hlc Hhc].
    pose proof (Zdigits2_pos (Z.abs a) ltac:(lia)) as Pa.
    pose proof (Zdigits2_pos (Z.abs b) ltac:(lia)) as Pb.
    pose proof (Zdigits2_pos (Z.abs c) ltac:(lia)) as Pc.
    fold da in Hla, Hha, Pa. fold db in Hlb, Hhb, Pb.
    assert (da <= Zdigits2 (Z.abs c) + db) as Hdc.
    { destruct (Z.le_gt_cases da (Zdigits2 (Z.abs c) + db)); [assumption|].
      assert (2 ^ (Zdigits2 (Z.abs c) + db) <= 2 ^ (da - 1))
        by (apply Z.pow_le_mono_r; lia).
      rewrite Z.pow_add_r in * by lia. nia. }
    assert (Zdigits2 (Z.abs c) <= prec) as Hcp
      by (apply Zdigits2_lt_pow; lia).
    unfold SFdiv, SFdiv_core_binary.
    replace (Zdigits2 (Z.pos mx) + ex - (Zdigits2 (Z.pos my) + ey))
      with (da - db) by lia.
    set (e' := Z.min (fexp (da - db)) (ex - ey)).
    assert (e' <= E) as He'E.
    { unfold e', E. etransitivity; [apply Z.le_min_l|].
      apply fexp_mono. lia. }
    assert (e' <= ex - ey) as He'1 by (unfold e'; lia).
    set (sh := ex - ey - e').
    assert (0 <= sh) as Hsh by (unfold sh; lia).
    assert (match sh with
            | Z.pos _ => Z.shiftl (Z.pos mx) sh
            | 0 => Z.pos mx
            | Z.neg _ => 0
            end = Z.pos mx * 2 ^ sh) as ->.
    { clearbody sh. destruct sh as [|p|p]; try lia.
      rewrite Z.shiftl_mul_pow2 by lia. reflexivity. }
    assert (Z.pos mx * 2 ^ sh = Z.pos my * (Z.pos m * 2 ^ (E - e')) + 0) as Hdiv.
    { rewrite Hmx, Hmy, Hm, Habs.
      assert (2 ^ (- ex) * 2 ^ sh = 2 ^ (- ey) * (2 ^ (- E) * 2 ^ (E - e'))) as Hp.
      { rewrite <- !Z.pow_add_r by lia. f_equal. unfold sh. lia. }
      transitivity (Z.abs c * Z.abs b * (2 ^ (- ex) * 2 ^ sh));
        [|rewrite Hp]; ring. }
    pose proof (Z.div_eucl_eq (Z.pos mx * 2 ^ sh) (Z.pos my) ltac:(lia)) as Heq.
    pose proof (Z.mod_pos_bound (Z.pos mx * 2 ^ sh) (Z.pos my) ltac:(lia)) as Hmod.
    unfold Z.modulo in Hmod.
    destruct (Z.div_eucl (Z.pos mx * 2 ^ sh) (Z.pos my)) as [q r].
    assert (0 < 2 ^ (E - e')) by (apply Z.pow_pos_nonneg; lia).
    assert (q = Z.pos m * 2 ^ (E - e') /\ r = 0) as [-> ->].
    { assert (Z.pos my * q + r = Z.pos my * (Z.pos m * 2 ^ (E - e')) + 0) as Hu by lia.
      apply Z.div_mod_unique in Hu; [exact Hu|left; lia|left; lia]. }
    assert (new_location (Z.pos my) 0 = loc_Exact) as ->.
    { unfold new_location. destruct (Z.even (Z.pos my)); reflexivity. }
    replace e' with (E - (E - e')) at 2 by lia.
    rewrite binary_round_aux_exact by (try assumption; lia).
    simpl. repeat split; try assumption; try lia.
    rewrite Hsx, Hsy.
    destruct (Z.ltb_spec a 0), (Z.ltb_spec b 0), (Z.ltb_spec c 0);
      simpl; try reflexivity; nia.
Qed.

(** Comparison of two integer-valued floats is comparison of the
    integers. *)
Lemma compare_exact x y a b :
  is_int x a -> is_int y b -> SFcompare x y = Some (a ?= b).
Proof.
  intros Hx Hy.
  destruct x as [sx|sx| |sx mx ex], y as [sy|sy| |sy my ey];
    simpl in Hx; simpl in Hy; try contradiction.
  - subst. reflexivity.
  - destruct Hy as (Hb & -> & _). subst.
    destruct b; try contradiction; reflexivity.
  - destruct Hx as (Ha & -> & _). subst.
    destruct a; try contradiction; reflexivity.
  - pose proof (is_int_exp _ _ _ _ Hx) as Eex.
    pose proof (is_int_exp _ _ _ _ Hy) as Eey.
    destruct Hx as (Ha & -> & Hex & Hmx & _).
    destruct Hy as (Hb & -> & Hey & Hmy & _).
    assert (forall u v, 0 < u -> 0 < v -> fexp (Zdigits2 u) < fexp (Zdigits2 v) ->
              u < v) as Hexp.
    { intros u v Hu Hv Hf.
      assert (Zdigits2 u < Zdigits2 v).
      { destruct (Z.lt_ge_cases (Zdigits2 u) (Zdigits2 v)); [assumption|].
        pose proof (fexp_mono prec emax (Zdigits2 v) (Zdigits2 u) ltac:(lia)). lia. }
      pose proof (Zdigits2_bounds u Hu) as [_ Hhu].
      pose proof (Zdigits2_bounds v Hv) as [Hlv _].
      assert (2 ^ Zdigits2 u <= 2 ^ (Zdigits2 v - 1)); [|lia].
      apply Z.pow_le_mono_r; [lia|]. lia. }
    assert (0 < 2 ^ (- ex)) as Hpx by (apply Z.pow_pos_nonneg; lia).
    assert (match ex ?= ey with
            | Lt => Lt
            | Gt => Gt
            | Eq => Z.pos mx ?= Z.pos my
            end = (Z.abs a ?= Z.abs b)) as Hmag.
    { destruct (Z.compare_spec ex ey) as [He|He|He].
      - rewrite Hmx, Hmy, <- He. symmetry. apply Zmult_compare_compat_r. lia.
      - symmetry. apply Z.compare_lt_iff. rewrite Eex, Eey in He.
        apply Hexp; [lia|lia|assumption].
      - symmetry. apply Z.compare_gt_iff. rewrite Eex, Eey in He.
        apply Hexp; [lia|lia|assumption]. }
    unfold SFcompare.
    change (Pos.compare_cont Eq mx my) with (Z.pos mx ?= Z.pos my).
    destruct (Z.ltb_spec a 0) as [Na|Pa], (Z.ltb_spec b 0) as [Nb|Pb]; f_equal.
    + transitivity (CompOpp (Z.abs a ?= Z.abs b)).
      * rewrite <- Hmag. destruct (ex ?= ey); reflexivity.
      * rewrite !Z.abs_neq by lia. rewrite Z.compare_opp.
        symmetry. apply Z.compare_antisym.
    + symmetry. apply Z.compare_lt_iff. lia.
    + symmetry. apply Z.compare_gt_iff. lia.
    + rewrite Hmag. rewrite !Z.abs_eq by lia. reflexivity.
Qed.

Lemma ltb_exact x y a b :
  is_int x a -> is_int y b -> SFltb x y = (a <? b).
Proof.
  intros Hx Hy. unfold SFltb. rewrite (compare_exact x y a b Hx Hy).
  unfold Z.ltb. destruct (a ?= b); reflexivity.
Qed.


Lemma is_int_not_nan x a : is_int x a -> x <> S754_nan.
Proof. intros H ->. exact H. Qed.


Lemma is_int_zero_inv x : is_int x 0 -> exists s, x = S754_zero s.
Proof.
  destruct x as [s|s| |s m e]; simpl; try contradiction.
  - intros _. exists s. reflexivity.
  - intros (H & _). contradiction.
Qed.

(** The float of a non-zero integer is unique. *)
Lemma is_int_unique x y a : a <> 0 -> is_int x a -> is_int y a -> x = y.
Proof.
  intros Ha Hx Hy.
  destruct x as [sx|sx| |sx mx ex], y as [sy|sy| |sy my ey];
    simpl in Hx; simpl in Hy; try contradiction; try lia.
  pose proof (is_int_exp _ _ _ _ Hx) as Eex.
  pose proof (is_int_exp _ _ _ _ Hy) as Eey.
  destruct Hx as (_ & -> & _ & Hmx & _). destruct Hy as (_ & -> & _ & Hmy & _).
  subst ex ey. f_equal. rewrite <- Hmy in Hmx. injection Hmx as ->. reflexivity.
Qed.

End Format.
End exact_facts.

(* ===================================================================== *)
(** * The convolution variants as one loop over the pixels *)
(* ===================================================================== *)

Module filter_facts.
Import grid filter store_facts omp_facts tile_facts float_facts saturation_facts.

Lemma u8_of_float_no_throw f what : u8_of_float f <> Throw what.
Proof.
  unfold u8_of_float. destruct (trunc_float f) as [z|]; [|discriminate].
  destruct ((0 <=? z) && (z <=? 255)); discriminate.
Qed.

Lemma serial_sample_no_throw input kernel x y what :
  serial_sample input kernel x y <> Throw what.
Proof. apply u8_of_float_no_throw. Qed.

Lemma parallel_sample_no_throw input kernel x y what :
  parallel_sample input kernel x y <> Throw what.
Proof. apply u8_of_float_no_throw. Qed.

Lemma sobel_sample_no_throw input x y what :
  sobel_sample input x y <> Throw what.
Proof.
  unfold sobel_sample. destruct (fold_left _ _ _) as [gx gy].
  apply u8_of_float_no_throw.
Qed.

(** The serial body never leaves the language: its conversion always
    receives a value in [0, 255]. *)
Lemma serial_sample_defined input kernel x y :
  exists z, 0 <= z <= 255 /\ serial_sample input kernel x y = Ok z.
Proof.
  unfold serial_sample. apply serial_saturation_defined.
  apply SFdiv_valid. reflexivity.
Qed.

Lemma serial_sample_value input kernel x y :
  serial_sample input kernel x y
  = Ok (outcomes.value (serial_sample input kernel x y)).
Proof.
  destruct (serial_sample_defined input kernel x y) as (z & _ & ->). reflexivity.
Qed.

Lemma apply_filter_serial_loop input kernel :
  apply_filter_serial input kernel
  = for_each (all_pixels (img.width input) (img.height input))
             (store (serial_sample input kernel))
             (img.create (img.width input) (img.height input)).
Proof. unfold apply_filter_serial. apply serial_loops. Qed.

(** The serial filter returns the image of its samples. *)
Lemma apply_filter_serial_render input kernel :
  0 <= img.width input -> 0 <= img.height input ->
  apply_filter_serial input kernel
  = Ok (render (img.width input) (img.height input)
          (fun p => outcomes.value (serial_sample input kernel (fst p) (snd p)))).
Proof.
  intros Hw Hh. rewrite apply_filter_serial_loop.
  apply store_all; [assumption..|]. intros p _. apply serial_sample_value.
Qed.

(** A loop of stores in the order of a work-sharing construct is the
    loop in serial order. *)
Lemma for_each_store_order f w h order :
  (forall x y what, f x y <> Throw what) ->
  Permutation order (all_pixels w h) ->
  for_each order (store f) (img.create w h)
  = for_each (all_pixels w h) (store f) (img.create w h).
Proof.
  intros Hnt Hperm. apply for_each_store_perm with (h := h); try assumption.
  simpl. eapply Permutation_Forall; [symmetry; exact Hperm|].
  apply all_pixels_bounds.
Qed.

Lemma apply_filter_parallel_loop input kernel config rt :
  omp.wf rt ->
  apply_filter_parallel input kernel config rt
  = for_each (all_pixels (img.width input) (img.height input))
             (store (parallel_sample input kernel))
             (img.create (img.width input) (img.height input)).
Proof.
  intros Hrt. unfold apply_filter_parallel.
  pose proof (team_size_pos (num_threads config) rt Hrt) as Ht.
  apply for_each_store_order; [apply parallel_sample_no_throw|].
  destruct (schedule config); destruct (0 <? chunk_size config);
    apply parallel_for_perm; assumption.
Qed.

Lemma apply_filter_tiled_loop input kernel config rt :
  omp.wf rt -> 1 <= tile_size config ->
  0 <= img.width input -> 0 <= img.height input ->
  apply_filter_tiled input kernel config rt
  = for_each (all_pixels (img.width input) (img.height input))
             (store (parallel_sample input kernel))
             (img.create (img.width input) (img.height input)).
Proof.
  intros Hrt HT Hw Hh. unfold apply_filter_tiled.
  pose proof (team_size_pos (num_threads config) rt Hrt) as Ht.
  apply for_each_store_order; [apply parallel_sample_no_throw|].
  rewrite parallel_for_perm by assumption.
  apply tiles_perm; assumption.
Qed.

Lemma sobel_serial_loop input :
  sobel_edge_detection_serial input
  = for_each (all_pixels (img.width input) (img.height input))
             (store (sobel_sample input))
             (img.create (img.width input) (img.height input)).
Proof. unfold sobel_edge_detection_serial. apply serial_loops. Qed.

Lemma sobel_parallel_loop input config rt :
  omp.wf rt ->
  sobel_edge_detection_parallel input config rt
  = for_each (all_pixels (img.width input) (img.height input))
             (store (sobel_sample input))
             (img.create (img.width input) (img.height input)).
Proof.
  intros Hrt. unfold sobel_edge_detection_parallel.
  pose proof (team_size_pos (num_threads config) rt Hrt) as Ht.
  apply for_each_store_order; [apply sobel_sample_no_throw|].
  apply parallel_for_perm; assumption.
Qed.

(** Whatever a loop of stores returns has the geometry of the buffer it
    started from. *)
Lemma for_each_store_shape f (l : list (Z * Z)) out out' :
  for_each l (store f) out = Ok out' ->
  img.width out' = img.width out /\ img.height out' = img.height out /\
  img.max_val out' = img.max_val out /\
  length (img.data out') = length (img.data out).
Proof.
  revert out. induction l as [|p l IH]; intros out H; simpl in H.
  - injection H as <-. auto.
  - destruct (store f p out) as [o| |] eqn:E; simpl in H; try discriminate.
    apply IH in H as (-> & -> & -> & ->). apply store_width in E. exact E.
Qed.

(** Away from NaN the parallel body computes the serial sample. *)
Lemma samples_agree input kernel x y :
  f32.div (conv_sum input kernel x y) (kernels.divisor kernel) <> S754_nan ->
  parallel_sample input kernel x y = serial_sample input kernel x y.
Proof. intros H. unfold parallel_sample, serial_sample. apply saturation_agree, H. Qed.

Lemma parallel_loop_agrees input kernel :
  (forall x y, 0 <= x < img.width input -> 0 <= y < img.height input ->
     f32.div (conv_sum input kernel x y) (kernels.divisor kernel) <> S754_nan) ->
  for_each (all_pixels (img.width input) (img.height input))
           (store (parallel_sample input kernel))
           (img.create (img.width input) (img.height input))
  = apply_filter_serial input kernel.
Proof.
  intros Hnan. rewrite apply_filter_serial_loop.
  apply for_each_ext. intros p s Hp. apply all_pixels_in in Hp as [Hx Hy].
  unfold store. rewrite samples_agree by (apply Hnan; assumption). reflexivity.
Qed.

(** Parallel and tiled filtering return the serial result whenever no
    normalised sum is a NaN, for every schedule, chunk size, thread count
    and tile size. *)
Lemma parallel_equals_serial input kernel config rt :
  omp.wf rt -> 0 <= img.width input -> 0 <= img.height input ->
  (forall x y, 0 <= x < img.width input -> 0 <= y < img.height input ->
     f32.div (conv_sum input kernel x y) (kernels.divisor kernel) <> S754_nan) ->
  apply_filter_parallel input kernel config rt = apply_filter_serial input kernel /\
  (1 <= tile_size config ->
   apply_filter_tiled input kernel config rt = apply_filter_serial input kernel).
Proof.
  intros Hrt Hw Hh Hnan. split.
  - rewrite apply_filter_parallel_loop by assumption.
    apply parallel_loop_agrees, Hnan.
  - intros HT. rewrite apply_filter_tiled_loop by assumption.
    apply parallel_loop_agrees, Hnan.
Qed.

(** A NaN at one pixel makes the parallel loop undefined. *)
Lemma parallel_loop_nan input kernel x y :
  0 <= x < img.width input -> 0 <= y < img.height input ->
  f32.div (conv_sum input kernel x y) (kernels.divisor kernel) = S754_nan ->
  for_each (all_pixels (img.width input) (img.height input))
           (store (parallel_sample input kernel))
           (img.create (img.width input) (img.height input))
  = Undefined.
Proof.
  intros Hx Hy Hnan.
  apply for_each_store_fail with (p := (x, y)).
  - apply parallel_sample_no_throw.
  - apply all_pixels_in. split; assumption.
  - simpl. unfold parallel_sample. rewrite Hnan. reflexivity.
Qed.

End filter_facts.

(* ===================================================================== *)
(** * The kernel registry *)
(* ===================================================================== *)

Module kernels_facts.
Import kernels.

Lemma tolower_idempotent c : tolower (tolower c) = tolower c.
Proof.
  destruct c as [[] [] [] [] [] [] [] []]; reflexivity.
Qed.

Lemma lowercase_idempotent s : lowercase (lowercase s) = lowercase s.
Proof.
  induction s as [|c s IH]; simpl; [reflexivity|].
  rewrite tolower_idempotent, IH. reflexivity.
Qed.

(** The chain of comparisons in [get_kernel_by_name] is a lookup of the
    lowercased name in the catalog. *)
Lemma get_kernel_by_name_assoc name :
  get_kernel_by_name name
  = match assoc (lowercase name) catalog with
    | Some k => Ok k
    | None => Throw ("Unknown kernel: " ++ name)
    end.
Proof.
  unfold get_kernel_by_name, catalog, assoc.
  generalize (lowercase name). intros l.
  repeat (destruct (String.eqb l _); [reflexivity|]; cbn [orb]).
  reflexivity.
Qed.

(** C7. Lookup is case-insensitive: a name and its lowercased form find
    the same kernel; a name whose lowercased form is not in the catalog
    raises [std::invalid_argument], an outcome different from every
    successful lookup; ["not_a_filter"] is such a name. *)
Theorem get_kernel_by_name_case_insensitive (name : string) :
  (forall k, get_kernel_by_name name = Ok k
             <-> get_kernel_by_name (lowercase name) = Ok k) /\
  (get_kernel_by_name name
   = match assoc (lowercase name) catalog with
     | Some k => Ok k
     | None => Throw ("Unknown kernel: " ++ name)
     end) /\
  (assoc (lowercase name) catalog = None ->
   forall k, get_kernel_by_name name <> Ok k) /\
  get_kernel_by_name "not_a_filter" = Throw "Unknown kernel: not_a_filter" /\
  get_kernel_by_name "BOX_BLUR" = get_kernel_by_name "box_blur".
Proof.
  split; [|split; [|split; [|split]]].
  - intros k. rewrite !get_kernel_by_name_assoc, lowercase_idempotent.
    destruct (assoc (lowercase name) catalog); split; intros H;
      try discriminate; assumption.
  - apply get_kernel_by_name_assoc.
  - intros H k. rewrite get_kernel_by_name_assoc, H. discriminate.
  - reflexivity.
  - reflexivity.
Qed.

End kernels_facts.

(* ===================================================================== *)
(** * Filter chains *)
(* ===================================================================== *)

Module chain_facts.
Import filter.

Lemma chain_step_fail_throw names what :
  fold_left reference.chain_step names (Throw what) = Throw what.
Proof. induction names as [|n names IH]; simpl; auto. Qed.

Lemma chain_step_fail_undefined names :
  fold_left reference.chain_step names Undefined = Undefined.
Proof. induction names as [|n names IH]; simpl; auto. Qed.

Lemma chain_loop_fold names current :
  chain_loop current names = fold_left reference.chain_step names (Ok current).
Proof.
  revert current. induction names as [|n names IH]; intros current; simpl.
  - reflexivity.
  - destruct (kernels.get_kernel_by_name n) as [k|what|]; simpl.
    + destruct (apply_filter_serial current k) as [next|what|]; simpl.
      * apply IH.
      * symmetry. apply chain_step_fail_throw.
      * symmetry. apply chain_step_fail_undefined.
    + symmetry. apply chain_step_fail_throw.
    + symmetry. apply chain_step_fail_undefined.
Qed.

(** C8. The chain is the left fold of the serial filter over the
    looked-up kernels, in the order given; on the empty sequence it
    returns its input unchanged. *)
Theorem apply_filter_chain_serial_fold (input : img.GrayscaleImage)
    (kernel_names : list string) :
  apply_filter_chain_serial input kernel_names
  = fold_left reference.chain_step kernel_names (Ok input) /\
  apply_filter_chain_serial input [] = Ok input.
Proof.
  split; [|reflexivity].
  destruct kernel_names as [|n names]; [reflexivity|].
  unfold apply_filter_chain_serial. apply chain_loop_fold.
Qed.

End chain_facts.

(* ===================================================================== *)
(** * Convolution: functional correctness and the output geometry *)
(* ===================================================================== *)

Module convolution_facts.
Import grid filter store_facts omp_facts tile_facts float_facts
       saturation_facts filter_facts.

Lemma fold_left_flat_map {A B C : Type} (f : A -> C -> A) (g : B -> list C)
    (l : list B) (a : A) :
  fold_left f (flat_map g l) a = fold_left (fun a x => fold_left f (g x) a) l a.
Proof.
  revert a. induction l as [|x l IH]; intros a; simpl; [reflexivity|].
  rewrite fold_left_app. apply IH.
Qed.

Lemma fold_left_map {A B C : Type} (f : A -> C -> A) (h : B -> C)
    (l : list B) (a : A) :
  fold_left f (map h l) a = fold_left (fun a x => f a (h x)) l a.
Proof.
  revert a. induction l as [|x l IH]; intros a; simpl; [reflexivity|]. apply IH.
Qed.

Lemma fold_left_ext_in {A B : Type} (f g : A -> B -> A) (l : list B) (a : A) :
  (forall a x, In x l -> f a x = g a x) -> fold_left f l a = fold_left g l a.
Proof.
  revert a. induction l as [|x l IH]; intros a H; simpl; [reflexivity|].
  rewrite H by (left; reflexivity). apply IH. intros; apply H; right; assumption.
Qed.

(** The two kernel loops accumulate the weighted neighbourhood sum of
    the reference, in the same order. *)
Lemma conv_sum_weighted_sum input kernel x y :
  conv_sum input kernel x y = reference.weighted_sum input kernel x y.
Proof.
  unfold conv_sum, reference.weighted_sum, reference.offsets.
  rewrite fold_left_flat_map. apply fold_left_ext_in. intros s ky _.
  rewrite fold_left_map. reflexivity.
Qed.


Lemma consecutive_lookup w n ps i p :
  consecutive w n ps -> ps !! i = Some p -> index w p = (n + i)%nat.
Proof.
  revert n i. induction ps as [|q ps IH]; intros n i Hc Hl; [discriminate|].
  destruct Hc as [Hq Hc]. destruct i as [|i]; simpl in Hl.
  - injection Hl as <-. lia.
  - rewrite (IH (S n) i Hc Hl). lia.
Qed.

Lemma all_pixels_lookup w h p :
  0 <= w -> 0 <= h -> in_bounds w h p -> all_pixels w h !! index w p = Some p.
Proof.
  intros Hw Hh Hp. apply all_pixels_in, list_elem_of_In in Hp.
  apply list_elem_of_lookup in Hp as [i Hi].
  pose proof (consecutive_lookup w 0 _ i p (consecutive_rows w 0 h Hw ltac:(lia)) Hi) as E.
  simpl in E. rewrite E. exact Hi.
Qed.

(** Reading a rendered image gives the rendered sample. *)
Lemma pixel_render w h g x y :
  0 <= x < w -> 0 <= y < h -> img.pixel (render w h g) x y = g (x, y).
Proof.
  intros Hx Hy. unfold img.pixel, render. simpl.
  change (Z.to_nat (y * w + x)) with (index w (x, y)).
  rewrite nth_lookup, list_lookup_fmap.
  rewrite all_pixels_lookup by (unfold in_bounds; simpl; lia). reflexivity.
Qed.

Lemma render_samples w h g lo hi :
  (forall p, lo <= g p <= hi) ->
  Forall (fun v => lo <= v <= hi) (img.data (render w h g)).
Proof.
  intros Hg. unfold render. simpl. apply List.Forall_forall.
  intros v Hv. apply in_map_iff in Hv as (p & <- & _). apply Hg.
Qed.

Lemma serial_value_range input kernel p :
  0 <= outcomes.value (serial_sample input kernel (fst p) (snd p)) <= 255.
Proof.
  destruct (serial_sample_defined input kernel (fst p) (snd p)) as (z & Hz & ->).
  exact Hz.
Qed.






End convolution_facts.

(* ===================================================================== *)
(** * Serial against parallel: where they part *)
(* ===================================================================== *)

Module divergence_facts.
Import grid filter filter_facts convolution_facts.


Lemma wf_white_pixel : img.wf examples.white_pixel.
Proof.
  unfold img.wf. simpl. repeat split; try lia.
  repeat constructor; lia.
Qed.

Lemma wf_runtime4 : omp.wf examples.runtime4.
Proof. unfold omp.wf. simpl. lia. Qed.




(** C1 at a kernel whose divisor is zero, where the normalised sum
    [0.0f / 0.0f] is a NaN: the serial filter stores 255, while the
    parallel and the tiled filter convert the NaN itself to a byte, which
    C++ leaves undefined, under every schedule, chunk size, thread count
    and tile size. *)
Theorem parallel_differs_from_serial_on_nan (config : FilterConfig)
    (rt : omp.runtime) :
  omp.wf rt -> 1 <= tile_size config ->
  apply_filter_serial examples.white_pixel examples.null_kernel
    = Ok (img.mkGrayscaleImage 1 1 255 [255]) /\
  apply_filter_parallel examples.white_pixel examples.null_kernel config rt
    = Undefined /\
  apply_filter_tiled examples.white_pixel examples.null_kernel config rt
    = Undefined.
Proof.
  intros Hrt HT.
  assert (f32.div (conv_sum examples.white_pixel examples.null_kernel 0 0)
                  (kernels.divisor examples.null_kernel) = S754_nan) as Hnan
    by (vm_compute; reflexivity).
  split; [vm_compute; reflexivity|]. split.
  - rewrite apply_filter_parallel_loop by assumption.
    apply (parallel_loop_nan _ _ 0 0); [simpl; lia|simpl; lia|exact Hnan].
  - rewrite apply_filter_tiled_loop by (try assumption; simpl; lia).
    apply (parallel_loop_nan _ _ 0 0); [simpl; lia|simpl; lia|exact Hnan].
Qed.

Lemma parallel_differs_from_serial_on_nan_witness :
  omp.wf examples.runtime4 /\ 1 <= tile_size examples.guided3 /\
  apply_filter_serial examples.white_pixel examples.null_kernel
    = Ok (img.mkGrayscaleImage 1 1 255 [255]) /\
  apply_filter_parallel examples.white_pixel examples.null_kernel
    examples.guided3 examples.runtime4 = Undefined /\
  apply_filter_tiled examples.white_pixel examples.null_kernel
    examples.guided3 examples.runtime4 = Undefined.
Proof.
  split; [unfold omp.wf; simpl; lia|]. split; [simpl; lia|].
  apply (parallel_differs_from_serial_on_nan examples.guided3 examples.runtime4).
  - unfold omp.wf. simpl. lia.
  - simpl. lia.
Defined.



End divergence_facts.

(* ===================================================================== *)
(** * Constant images *)
(* ===================================================================== *)

Module constant_facts.
Import grid filter store_facts filter_facts convolution_facts.

Lemma clamp_bounds v n : 0 < n -> 0 <= Z.max 0 (Z.min v (n - 1)) < n.
Proof. lia. Qed.

Lemma pixel_bounds input x y :
  img.wf input -> 0 <= x < img.width input -> 0 <= y < img.height input ->
  exists v, img.data input !! Z.to_nat (y * img.width input + x) = Some v /\
            img.pixel input x y = v /\ 0 <= v <= 255.
Proof.
  intros (Hw & Hh & Hlen & _ & Hall) Hx Hy.
  assert (Z.to_nat (y * img.width input + x) < length (img.data input))%nat as Hi by nia.
  apply lookup_lt_is_Some in Hi as [v Hv]. exists v.
  split; [assumption|]. split.
  - unfold img.pixel. rewrite nth_lookup, Hv. reflexivity.
  - rewrite Forall_lookup in Hall. apply (Hall _ _ Hv).
Qed.

(** Every clamped read of a constant image returns the constant. *)
Lemma constant_read input c x y kx ky :
  img.wf input -> img.constant input c ->
  0 <= x < img.width input -> 0 <= y < img.height input ->
  img.pixel input (Z.max 0 (Z.min (x + kx) (img.width input - 1)))
                  (Z.max 0 (Z.min (y + ky) (img.height input - 1))) = c.
Proof.
  intros Hwf Hc Hx Hy.
  destruct (pixel_bounds input _ _ Hwf
              (clamp_bounds (x + kx) (img.width input) ltac:(lia))
              (clamp_bounds (y + ky) (img.height input) ltac:(lia)))
    as (v & Hv & -> & _).
  unfold img.constant in Hc. rewrite Forall_lookup in Hc. apply (Hc _ _ Hv).
Qed.

Lemma constant_range input c x y :
  img.wf input -> img.constant input c ->
  0 <= x < img.width input -> 0 <= y < img.height input -> 0 <= c <= 255.
Proof.
  intros Hwf Hc Hx Hy.
  destruct (pixel_bounds input x y Hwf Hx Hy) as (v & Hv & _ & Hr).
  unfold img.constant in Hc. rewrite Forall_lookup in Hc.
  rewrite <- (Hc _ _ Hv). exact Hr.
Qed.

Lemma render_constant w h c :
  0 <= w -> 0 <= h ->
  render w h (fun _ => c)
  = img.mkGrayscaleImage w h 255 (replicate (Z.to_nat (w * h)) c).
Proof.
  intros Hw Hh. unfold render. f_equal.
  rewrite <- (length_all_pixels w h Hw Hh).
  induction (all_pixels w h) as [|p l IH]; simpl; congruence.
Qed.

(** A loop of stores whose every sample is [c] fills the buffer with
    [c]. *)
Lemma store_constant f w h c :
  0 <= w -> 0 <= h ->
  (forall x y, 0 <= x < w -> 0 <= y < h -> f x y = Ok c) ->
  for_each (all_pixels w h) (store f) (img.create w h)
  = Ok (img.mkGrayscaleImage w h 255 (replicate (Z.to_nat (w * h)) c)).
Proof.
  intros Hw Hh Hf. rewrite <- render_constant by assumption.
  apply store_all; [assumption..|]. intros p [Hx Hy]. apply Hf; assumption.
Qed.

(* ------------------------------------------------------------------- *)
(** ** Sobel on a constant image *)

(** The Sobel body only depends on the nine clamped reads. *)
Lemma sobel_sample_ext a b x y x' y' :
  (forall kx ky,
     img.pixel a (Z.max 0 (Z.min (x + kx) (img.width a - 1)))
                 (Z.max 0 (Z.min (y + ky) (img.height a - 1)))
     = img.pixel b (Z.max 0 (Z.min (x' + kx) (img.width b - 1)))
                   (Z.max 0 (Z.min (y' + ky) (img.height b - 1)))) ->
  sobel_sample a x y = sobel_sample b x' y'.
Proof.
  intros H. unfold sobel_sample.
  match goal with
  | |- (let '(_, _) := ?A in _) = (let '(_, _) := ?B in _) =>
      assert (A = B) as ->; [|reflexivity]
  end.
  apply fold_left_ext_in. intros g ky _.
  apply fold_left_ext_in. intros g' kx _.
  rewrite H. reflexivity.
Qed.

(** The gradient magnitude of a flat neighbourhood, for each of the 256
    byte values. *)
Lemma sobel_flat c :
  0 <= c <= 255 ->
  sobel_sample (img.mkGrayscaleImage 1 1 255 [c]) 0 0 = Ok 0.
Proof.
  intros Hc.
  assert (forallb (fun c =>
            match sobel_sample (img.mkGrayscaleImage 1 1 255 [c]) 0 0 with
            | Ok 0 => true
            | _ => false
            end) (range 0 256) = true) as H by (vm_compute; reflexivity).
  rewrite forallb_forall in H. specialize (H c (proj2 (In_range 0 256 c) ltac:(lia))).
  destruct (sobel_sample (img.mkGrayscaleImage 1 1 255 [c]) 0 0) as [[| |]| |];
    try discriminate H. reflexivity.
Qed.

Lemma sobel_sample_constant input c x y :
  img.wf input -> img.constant input c ->
  0 <= x < img.width input -> 0 <= y < img.height input ->
  sobel_sample input x y = Ok 0.
Proof.
  intros Hwf Hc Hx Hy.
  rewrite <- (sobel_flat c (constant_range input c x y Hwf Hc Hx Hy)).
  apply sobel_sample_ext. intros kx ky.
  rewrite (constant_read input c x y kx ky Hwf Hc Hx Hy).
  unfold img.pixel. cbn [img.width img.height img.data].
  replace (Z.to_nat (Z.max 0 (Z.min (0 + ky) (1 - 1)) * 1
                     + Z.max 0 (Z.min (0 + kx) (1 - 1)))) with O by lia.
  reflexivity.
Qed.

(** C6. On a constant-valued image the serial and the parallel Sobel
    operator return the image of the same dimensions whose samples are
    all zero. *)
Theorem sobel_constant_is_zero (input : img.GrayscaleImage) (c : Z)
    (config : FilterConfig) (rt : omp.runtime) :
  img.wf input -> img.constant input c -> omp.wf rt ->
  sobel_edge_detection_serial input
  = Ok (img.mkGrayscaleImage (img.width input) (img.height input) 255
          (replicate (Z.to_nat (img.width input * img.height input)) 0)) /\
  sobel_edge_detection_parallel input config rt
  = sobel_edge_detection_serial input.
Proof.
  intros Hwf Hc Hrt. pose proof Hwf as (Hw & Hh & _).
  rewrite sobel_parallel_loop by assumption. rewrite sobel_serial_loop.
  split; [|reflexivity].
  apply store_constant; [assumption..|].
  intros x y Hx Hy. apply (sobel_sample_constant input c); assumption.
Qed.

Lemma sobel_constant_is_zero_witness :
  img.wf examples.flat_8x8 /\ img.constant examples.flat_8x8 77 /\
  omp.wf examples.runtime4 /\
  sobel_edge_detection_serial examples.flat_8x8
  = Ok (img.mkGrayscaleImage 8 8 255 (replicate 64 0)) /\
  sobel_edge_detection_parallel examples.flat_8x8 examples.guided3 examples.runtime4
  = sobel_edge_detection_serial examples.flat_8x8.
Proof.
  assert (img.wf examples.flat_8x8) as Hwf.
  { unfold img.wf. simpl. repeat split; try lia. repeat constructor; lia. }
  assert (img.constant examples.flat_8x8 77) as Hc.
  { unfold img.constant. simpl. repeat constructor. }
  assert (omp.wf examples.runtime4) as Hrt by (unfold omp.wf; simpl; lia).
  split; [exact Hwf|]. split; [exact Hc|]. split; [exact Hrt|].
  exact (sobel_constant_is_zero examples.flat_8x8 77 examples.guided3
           examples.runtime4 Hwf Hc Hrt).
Defined.

End constant_facts.

(* ===================================================================== *)
(** * Kernels with integer weights: the float arithmetic is exact *)
(* ===================================================================== *)

Module integer_facts.
Import grid filter store_facts filter_facts convolution_facts constant_facts.
Import ieee float_facts exact_facts saturation_facts.

Local Abbreviation is_int32 := (ieee.is_int 24 128).

Lemma prec32 : 0 < 24.
Proof. lia. Qed.

Lemma emax32 : 24 < 128.
Proof. lia. Qed.

Lemma of_int32 z : Z.abs z < 2 ^ 24 -> is_int32 (f32.of_int z) z.
Proof. apply (of_int_is_int 24 128 prec32 emax32). Qed.

Lemma sum_abs_nonneg l : 0 <= integer.sum (map Z.abs l).
Proof. induction l as [|a l IH]; simpl; lia. Qed.

Lemma sum_app l1 l2 : integer.sum (l1 ++ l2) = integer.sum l1 + integer.sum l2.
Proof. induction l1 as [|a l1 IH]; simpl; lia. Qed.

(** One pass of multiply-accumulate over byte samples and integer
    weights stays exact while the bound on the partial sums holds. *)
Lemma mac_exact (l : list (Z * Z)) (s0 : f32.t) (a0 : Z) :
  is_int32 s0 a0 ->
  Forall (fun pw => 0 <= fst pw <= 255) l ->
  Z.abs a0 + 255 * integer.sum (map (fun pw => Z.abs (snd pw)) l) < 2 ^ 24 ->
  is_int32 (fold_left (fun s (pw : Z * Z) =>
              f32.add s (f32.mul (f32.of_int (fst pw)) (f32.of_int (snd pw)))) l s0)
           (a0 + integer.sum (map (fun pw => fst pw * snd pw) l)) /\
  Z.abs (a0 + integer.sum (map (fun pw => fst pw * snd pw) l))
    <= Z.abs a0 + 255 * integer.sum (map (fun pw => Z.abs (snd pw)) l).
Proof.
  revert s0 a0. induction l as [|[p w] l IH]; intros s0 a0 Hs Hp Hb; simpl in *.
  - rewrite Z.add_0_r. split; [assumption|lia].
  - inversion Hp as [|? ? Hp1 Hp2]; subst. simpl in Hp1.
    pose proof (sum_abs_nonneg (map snd l)) as Hn.
    rewrite map_map in Hn.
    assert (Z.abs (p * w) <= 255 * Z.abs w) as Hpw by (rewrite Z.abs_mul; nia).
    assert (is_int32 (f32.add s0 (f32.mul (f32.of_int p) (f32.of_int w)))
                     (a0 + p * w)) as Hstep.
    { apply (add_exact 24 128 prec32 emax32); [assumption| |lia].
      apply (mul_exact 24 128 prec32 emax32); [apply of_int32; lia|apply of_int32; lia|lia]. }
    destruct (IH _ _ Hstep Hp2 ltac:(lia)) as [H1 H2].
    rewrite Z.add_assoc. split; [exact H1|lia].
Qed.

Lemma offsets_shift r :
  map (fun o : Z * Z => (fst o + r, snd o + r)) (reference.offsets r)
  = all_pixels (2 * r + 1) (2 * r + 1).
Proof.
  unfold reference.offsets, all_pixels, row_steps.
  assert (range 0 (2 * r + 1) = map (Z.add r) (range (- r) (r + 1))) as ->.
  { unfold range. change (map (Z.add r)) with (fmap (M := list) (Z.add r)).
    rewrite fmap_add_seqZ. f_equal; lia. }
  rewrite flat_map_concat_map, concat_map, map_map, flat_map_concat_map, map_map.
  f_equal. apply map_ext. intros ky. rewrite !map_map.
  apply map_ext. intros kx. simpl. f_equal; lia.
Qed.

(** The kernel loops read every weight once, in storage order. *)
Lemma weights_read {A : Type} (l : list A) (d : A) (size r : Z) :
  0 <= r -> size = 2 * r + 1 -> Z.of_nat (length l) = size * size ->
  map (fun o : Z * Z => nth (Z.to_nat ((snd o + r) * size + (fst o + r))) l d)
      (reference.offsets r) = l.
Proof.
  intros Hr Hs Hlen.
  transitivity (map (fun p => nth (index size p) l d)
                    (map (fun o : Z * Z => (fst o + r, snd o + r))
                         (reference.offsets r))).
  { rewrite map_map. reflexivity. }
  rewrite offsets_shift, <- Hs.
  apply list_eq. intros i. rewrite list_lookup_fmap.
  destruct (all_pixels size size !! i) as [p|] eqn:E.
  - pose proof (consecutive_lookup size 0 _ i p
                  (consecutive_rows size 0 size ltac:(lia) ltac:(lia)) E) as Hi.
    simpl in Hi. simpl. rewrite Hi.
    apply lookup_lt_Some in E. rewrite length_all_pixels in E by lia.
    assert (i < length l)%nat as Hl by lia.
    apply lookup_lt_is_Some in Hl as [v Hv].
    rewrite Hv. f_equal. apply nth_lookup_Some. assumption.
  - simpl. symmetry. apply lookup_ge_None.
    apply lookup_ge_None in E. rewrite length_all_pixels in E by lia. lia.
Qed.

Lemma clamped_pixel_range input x y :
  img.wf input -> 0 < img.width input -> 0 < img.height input ->
  0 <= img.clamped_pixel input x y <= 255.
Proof.
  intros Hwf Hw Hh. unfold img.clamped_pixel.
  destruct (pixel_bounds input _ _ Hwf
              (clamp_bounds x (img.width input) Hw)
              (clamp_bounds y (img.height input) Hh)) as (v & _ & Hv & Hr).
  unfold img.pixel in Hv. rewrite Hv. exact Hr.
Qed.

(** With an integer kernel the accumulated [float] sum is the exact
    integer weighted sum. *)
Lemma conv_sum_exact input kernel ws d x y :
  img.wf input -> integer.kernel kernel ws d ->
  0 <= x < img.width input -> 0 <= y < img.height input ->
  is_int32 (conv_sum input kernel x y) (integer.weighted_sum input kernel ws x y) /\
  Z.abs (integer.weighted_sum input kernel ws x y)
    <= 255 * integer.sum (map Z.abs ws).
Proof.
  intros Hwf (Hdata & _ & Hr & Hsize & Hlen & Hbound & _) Hx Hy.
  rewrite conv_sum_weighted_sum.
  unfold reference.weighted_sum, integer.weighted_sum.
  set (r := kernels.radius kernel) in *. set (offs := reference.offsets r).
  set (P := fun o : Z * Z => img.clamped_pixel input (x + fst o) (y + snd o)).
  set (W := fun o : Z * Z =>
              nth (Z.to_nat ((snd o + r) * kernels.size kernel + (fst o + r))) ws 0).
  assert (map W offs = ws) as HW.
  { apply (weights_read ws 0 (kernels.size kernel) r Hr Hsize Hlen). }
  pose proof (mac_exact (map (fun o => (P o, W o)) offs) f32.zero 0) as Hmac.
  rewrite fold_left_map in Hmac. rewrite !map_map in Hmac. simpl in Hmac.
  assert (map (fun o => Z.abs (W o)) offs = map Z.abs ws) as HA.
  { clearbody W. rewrite <- HW, map_map. reflexivity. }
  rewrite HA in Hmac.
  destruct Hmac as [H1 H2].
  - reflexivity.
  - apply List.Forall_forall. intros pw Hin.
    apply in_map_iff in Hin as (o & <- & _). simpl.
    apply clamped_pixel_range; [assumption|lia|lia].
  - lia.
  - split; [|exact H2].
    erewrite fold_left_ext_in; [exact H1|].
    intros s o _. simpl. unfold kernels.at_. rewrite Hdata.
    change f32.zero with (f32.of_int 0). rewrite map_nth. reflexivity.
Qed.

(** The quotient of two integer-valued floats is never a NaN. *)
Lemma div_not_nan x y a b :
  is_int32 x a -> is_int32 y b -> b <> 0 -> f32.div x y <> S754_nan.
Proof.
  intros Hx Hy Hb.
  destruct x as [sx|sx| |sx mx ex], y as [sy|sy| |sy my ey];
    simpl in Hx; simpl in Hy; try contradiction; try lia; try discriminate.
  unfold f32.div, f32.prec, f32.emax, SFdiv.
  pose proof (div_core_shift 24 128 prec32 (Z.pos mx) ex (Z.pos my) ey
                ltac:(lia) ltac:(lia)) as H.
  destruct (SFdiv_core_binary 24 128 (Z.pos mx) ex (Z.pos my) ey) as [[q e'] l].
  destruct H as [Hq He]. unfold binary_round_aux.
  destruct (shr_fexp_canonical 24 128 prec32 q e' l Hq He) as [H1 C1].
  destruct (shr_fexp 24 128 q e' l) as [mrs' e1]. simpl in H1, C1.
  set (m1 := round_nearest_even (shr_m mrs') (loc_of_shr_record mrs')).
  assert (shr_m mrs' <= m1 <= shr_m mrs' + 1) as Hr.
  { unfold m1.
    destruct (round_nearest_even_range (shr_m mrs') (loc_of_shr_record mrs'))
      as [-> | ->]; lia. }
  assert (e1 <= fexp 24 128 (Zdigits2 m1 + e1)) as He1.
  { unfold ieee.canonical in C1. rewrite <- C1 at 1. apply fexp_mono.
    pose proof (Zdigits2_le (shr_m mrs') m1 ltac:(lia)). lia. }
  destruct (shr_fexp_canonical 24 128 prec32 m1 e1 loc_Exact ltac:(lia) He1) as [H2 _].
  destruct (shr_fexp 24 128 m1 e1 loc_Exact) as [mrs'' e'']. simpl in H2.
  destruct (shr_m mrs'') as [|m|m] eqn:Em; try discriminate; [|lia].
  destruct (e'' <=? 128 - 24); discriminate.
Qed.

Lemma of_int32_divisor kernel ws d :
  integer.kernel kernel ws d -> is_int32 (kernels.divisor kernel) d /\ d <> 0.
Proof.
  intros (_ & -> & _ & _ & _ & _ & Hd & Hb). split; [|assumption].
  apply of_int32. assumption.
Qed.

(** With an integer kernel no normalised sum is a NaN. *)
Lemma integer_kernel_no_nan input kernel ws d x y :
  img.wf input -> integer.kernel kernel ws d ->
  0 <= x < img.width input -> 0 <= y < img.height input ->
  f32.div (conv_sum input kernel x y) (kernels.divisor kernel) <> S754_nan.
Proof.
  intros Hwf Hk Hx Hy.
  destruct (conv_sum_exact input kernel ws d x y Hwf Hk Hx Hy) as [Hs _].
  destruct (of_int32_divisor kernel ws d Hk) as [Hd Hd0].
  exact (div_not_nan _ _ _ _ Hs Hd Hd0).
Qed.

(** For every kernel with integer weights (every kernel of the catalog
    is one), parallel and tiled filtering return the serial result. *)
Lemma integer_kernel_parallel_equals_serial input kernel ws d config rt :
  img.wf input -> integer.kernel kernel ws d -> omp.wf rt ->
  apply_filter_parallel input kernel config rt = apply_filter_serial input kernel /\
  (1 <= tile_size config ->
   apply_filter_tiled input kernel config rt = apply_filter_serial input kernel).
Proof.
  intros Hwf Hk Hrt. pose proof Hwf as (Hw & Hh & _).
  apply parallel_equals_serial; try assumption.
  intros x y Hx Hy. apply (integer_kernel_no_nan input kernel ws d); assumption.
Qed.

Ltac integer_kernel :=
  unfold integer.kernel; cbn [fst snd];
  split; [reflexivity|]; split; [reflexivity|];
  split; [vm_compute; discriminate|]; split; [reflexivity|];
  split; [reflexivity|]; split; [reflexivity|];
  split; [discriminate|reflexivity].

(** Every kernel of the header has integer weights and an integer
    divisor. *)
Lemma catalog_integer :
  Forall (fun e : kernels.Kernel * (list Z * Z) =>
            integer.kernel (fst e) (fst (snd e)) (snd (snd e)) /\ 0 < snd (snd e))
         integer.catalog.
Proof.
  unfold integer.catalog.
  repeat (apply List.Forall_cons; [split; [integer_kernel|reflexivity]|]).
  apply List.Forall_nil.
Qed.

End integer_facts.

(* ===================================================================== *)
(** * Flat images under kernels that sum to their divisor *)
(* ===================================================================== *)

Module flat_facts.
Import grid filter store_facts filter_facts convolution_facts constant_facts.
Import ieee float_facts exact_facts saturation_facts integer_facts.

Local Abbreviation is_int32 := (ieee.is_int 24 128).



Lemma sum_abs_ge l : Z.abs (integer.sum l) <= integer.sum (map Z.abs l).
Proof. induction l as [|a l IH]; simpl; lia. Qed.



Lemma box_blur_3x3_integer :
  integer.kernel kernels.box_blur_3x3 [1; 1; 1; 1; 1; 1; 1; 1; 1] 9.
Proof.
  unfold integer.kernel. simpl.
  repeat split; try reflexivity; try lia. discriminate.
Qed.







End flat_facts.

(* ===================================================================== *)
(** * The histogram *)
(* ===================================================================== *)

Module histogram_facts.
Import reduce omp_facts.

(** The samples at the positions of a share. *)
Local Abbreviation samples data share :=
  (map (fun i : Z => nth (Z.to_nat i) data 0) share).

Lemma sum_perm l l' : Permutation l l' -> integer.sum l = integer.sum l'.
Proof. induction 1; simpl; lia. Qed.

Lemma count_app v l1 l2 :
  reference.count v (l1 ++ l2) = reference.count v l1 + reference.count v l2.
Proof. unfold reference.count. rewrite count_occ_app. lia. Qed.

Lemma count_perm v l l' :
  Permutation l l' -> reference.count v l = reference.count v l'.
Proof.
  intros H. unfold reference.count. f_equal.
  apply (proj1 (Permutation_count_occ Z.eq_dec l l') H).
Qed.

Lemma count_cons v a l :
  reference.count v (a :: l) = (if Z.eq_dec a v then 1 else 0) + reference.count v l.
Proof.
  unfold reference.count. simpl. destruct (Z.eq_dec a v); lia.
Qed.

Lemma count_nonneg v l : 0 <= reference.count v l.
Proof. unfold reference.count. lia. Qed.

Lemma sample_range data i :
  Forall (fun v => 0 <= v <= 255) data -> 0 <= nth i data 0 <= 255.
Proof.
  intros H. destruct (nth_lookup_or_length data i 0) as [Hl|Hl].
  - rewrite Forall_lookup in H. apply (H _ _ Hl).
  - rewrite nth_overflow by lia. lia.
Qed.

Lemma samples_all data :
  samples data (range 0 (Z.of_nat (length data))) = data.
Proof.
  apply list_eq. intros i. rewrite list_lookup_fmap.
  destruct (data !! i) as [v|] eqn:E.
  - pose proof (lookup_lt_Some _ _ _ E) as Hi.
    unfold range. rewrite lookup_seqZ_lt by lia. simpl.
    rewrite Z.add_0_l, Nat2Z.id. f_equal. apply nth_lookup_Some. assumption.
  - apply lookup_ge_None in E.
    unfold range. rewrite lookup_seqZ_ge by lia. reflexivity.
Qed.

(** *** One increment *)

Lemma bump_length hist v : length (bump hist v) = length hist.
Proof. unfold bump. apply length_insert. Qed.

Lemma bump_nth hist v u :
  0 <= v -> (Z.to_nat v < length hist)%nat ->
  nth u (bump hist v) 0 = nth u hist 0 + (if Z.eq_dec v (Z.of_nat u) then 1 else 0).
Proof.
  intros Hv Hlt. unfold bump. rewrite !nth_lookup.
  destruct (Z.eq_dec v (Z.of_nat u)) as [->|Hne].
  - rewrite Nat2Z.id. rewrite Nat2Z.id in Hlt.
    rewrite list_lookup_insert_eq by assumption. simpl. reflexivity.
  - rewrite list_lookup_insert_ne by lia. lia.
Qed.

(** The private histogram of a thread counts the samples of its share. *)
Lemma local_fold data share h0 :
  Forall (fun v => 0 <= v <= 255) data -> length h0 = 256%nat ->
  let h := fold_left (fun local_hist i => bump local_hist (nth (Z.to_nat i) data 0))
                     share h0 in
  length h = 256%nat /\
  forall u, nth u h 0 = nth u h0 0 + reference.count (Z.of_nat u) (samples data share).
Proof.
  intros Hd. revert h0. induction share as [|i share IH]; intros h0 Hlen; simpl.
  - split; [assumption|]. intros u. unfold reference.count. simpl. lia.
  - pose proof (sample_range data (Z.to_nat i) Hd) as Hr.
    destruct (IH (bump h0 (nth (Z.to_nat i) data 0))) as [H1 H2].
    { rewrite bump_length. assumption. }
    split; [exact H1|]. intros u. rewrite H2, count_cons.
    rewrite bump_nth by lia. lia.
Qed.

Lemma zero_bins_nth u : nth u zero_bins 0 = 0.
Proof.
  unfold zero_bins. destruct (nth_lookup_or_length (replicate 256 0) u 0) as [H|H].
  - apply lookup_replicate in H as [H _]. exact H.
  - apply nth_overflow. lia.
Qed.

Lemma local_histogram_spec data share :
  Forall (fun v => 0 <= v <= 255) data ->
  length (local_histogram data share) = 256%nat /\
  forall u, nth u (local_histogram data share) 0
            = reference.count (Z.of_nat u) (samples data share).
Proof.
  intros Hd.
  destruct (local_fold data share zero_bins Hd (length_replicate 256 0)) as [H1 H2].
  split; [exact H1|]. intros u. unfold local_histogram.
  rewrite H2, zero_bins_nth. lia.
Qed.

(** *** The critical section adds bin by bin *)

Lemma merge_fold (js : list nat) histogram local_hist :
  NoDup js -> Forall (fun j => (j < length histogram)%nat) js ->
  let h := fold_left (fun histogram j =>
               <[j := nth j histogram 0 + nth j local_hist 0]> histogram)
             js histogram in
  length h = length histogram /\
  forall u, nth u h 0
            = nth u histogram 0
              + (if decide (u ∈ js) then nth u local_hist 0 else 0).
Proof.
  revert histogram. induction js as [|j js IH]; intros histogram Hnd Hlt; simpl.
  - split; [reflexivity|]. intros u.
    destruct (decide (u ∈ [])) as [H|_]; [inversion H|lia].
  - inversion Hnd as [|? ? Hj Hnd']; subst.
    inversion Hlt as [|? ? Hj1 Hlt']; subst.
    destruct (IH (<[j := nth j histogram 0 + nth j local_hist 0]> histogram) Hnd')
      as [H1 H2].
    { rewrite length_insert. assumption. }
    rewrite length_insert in H1. split; [exact H1|]. intros u. rewrite H2.
    rewrite (nth_lookup (<[j := _]> histogram)).
    destruct (decide (u = j)) as [->|Hne].
    + rewrite list_lookup_insert_eq by assumption. simpl.
      destruct (decide (j ∈ js)); [contradiction|].
      destruct (decide (j ∈ j :: js)) as [_|Hn]; [lia|].
      exfalso. apply Hn. left.
    + rewrite list_lookup_insert_ne by congruence. rewrite <- nth_lookup.
      destruct (decide (u ∈ js)) as [Hin|Hin];
        destruct (decide (u ∈ j :: js)) as [Hin'|Hin']; try lia.
      * exfalso. apply Hin'. right. assumption.
      * exfalso. apply elem_of_cons in Hin' as [?|?]; contradiction.
Qed.

Lemma merge_spec histogram local_hist :
  length histogram = 256%nat ->
  length (merge histogram local_hist) = 256%nat /\
  forall u, (u < 256)%nat ->
    nth u (merge histogram local_hist) 0 = nth u histogram 0 + nth u local_hist 0.
Proof.
  intros Hlen. unfold merge.
  pose proof (merge_fold (seq 0 256) histogram local_hist (NoDup_seq 0 256)) as H.
  assert (fold_left (fun histogram (i : Z) =>
            <[Z.to_nat i := nth (Z.to_nat i) histogram 0
                            + nth (Z.to_nat i) local_hist 0]> histogram)
            (range 0 256) histogram
          = fold_left (fun histogram j =>
              <[j := nth j histogram 0 + nth j local_hist 0]> histogram)
            (seq 0 256) histogram) as ->.
  { replace (seq 0 256) with (map Z.to_nat (range 0 256)) by (vm_compute; reflexivity).
    rewrite convolution_facts.fold_left_map. reflexivity. }
  destruct H as [H1 H2].
  { apply Forall_forall. intros j Hj. apply elem_of_seq in Hj. lia. }
  split; [lia|]. intros u Hu. rewrite H2.
  destruct (decide (u ∈ seq 0 256)) as [_|Hn]; [reflexivity|].
  exfalso. apply Hn. apply elem_of_seq. lia.
Qed.

(** *** All threads merged *)

Lemma sum_cons a l : integer.sum (a :: l) = a + integer.sum l.
Proof. reflexivity. Qed.

Lemma fold_left_cons {A B : Type} (f : A -> B -> A) (b : B) (l : list B) (a : A) :
  fold_left f (b :: l) a = fold_left f l (f a b).
Proof. reflexivity. Qed.

Lemma merged_spec (locals : list (list Z)) (order : list nat) h0 :
  length h0 = 256%nat ->
  length (fold_left (fun histogram t => merge histogram (nth t locals zero_bins))
                    order h0) = 256%nat /\
  forall u, (u < 256)%nat ->
    nth u (fold_left (fun histogram t => merge histogram (nth t locals zero_bins))
                     order h0) 0
    = nth u h0 0
      + integer.sum (map (fun t => nth u (nth t locals zero_bins) 0) order).
Proof.
  revert h0. induction order as [|t order IH]; intros h0 Hlen.
  - split; [assumption|]. intros u Hu. change (integer.sum (map _ [])) with 0.
    change (fold_left _ [] h0) with h0. lia.
  - destruct (merge_spec h0 (nth t locals zero_bins) Hlen) as [M1 M2].
    destruct (IH _ M1) as [H1 H2]. rewrite fold_left_cons.
    split; [exact H1|].
    intros u Hu. rewrite map_cons, sum_cons.
    rewrite H2, M2 by assumption. lia.
Qed.

Lemma count_concat v (ls : list (list Z)) :
  reference.count v (concat ls) = integer.sum (map (reference.count v) ls).
Proof.
  induction ls as [|l ls IH]; simpl; [reflexivity|].
  rewrite count_app, IH. reflexivity.
Qed.

Lemma concat_samples data (shares : list (list Z)) :
  concat (map (fun share => samples data share) shares)
  = samples data (concat shares).
Proof.
  induction shares as [|s shares IH]; simpl; [reflexivity|].
  rewrite IH, map_app. reflexivity.
Qed.

Lemma nth_seq_map {A : Type} (f : list Z -> A) (d : A) (shares : list (list Z)) :
  map (fun t => nth t (map f shares) d) (seq 0 (length shares)) = map f shares.
Proof.
  apply list_eq. intros i. rewrite !list_lookup_fmap.
  destruct (shares !! i) as [s|] eqn:E.
  - pose proof (lookup_lt_Some _ _ _ E) as Hi.
    rewrite lookup_seq_lt by assumption. simpl. f_equal.
    apply nth_lookup_Some. rewrite list_lookup_fmap, E. reflexivity.
  - apply lookup_ge_None in E. rewrite lookup_seq_ge by lia. reflexivity.
Qed.

Lemma length_shares s chunk team rt n : length (shares s chunk team rt n) = team.
Proof. unfold shares. rewrite length_map, length_seq. reflexivity. Qed.

(** Bin [u] of the parallel histogram is the number of samples equal to
    [u], whatever the runtime does. *)
Lemma histogram_bins im rt :
  img.wf im -> omp.wf rt ->
  length (compute_histogram_parallel im rt) = 256%nat /\
  forall u, (u < 256)%nat ->
    nth u (compute_histogram_parallel im rt) 0
    = reference.count (Z.of_nat u) (img.data im).
Proof.
  intros (_ & _ & _ & _ & Hd) Hrt. unfold compute_histogram_parallel.
  set (n := Z.of_nat (length (img.data im))).
  set (team := team_size 0 rt).
  set (sh := shares (def_schedule rt) 0 team rt n).
  pose proof (team_size_pos 0 rt Hrt) as Ht. fold team in Ht.
  destruct (merged_spec (map (local_histogram (img.data im)) sh)
              (arrival team rt) zero_bins) as [H1 H2].
  { unfold zero_bins. apply length_replicate. }
  split; [exact H1|]. intros u Hu. rewrite H2 by assumption.
  rewrite zero_bins_nth, Z.add_0_l.
  rewrite (sum_perm _ (map (fun t => nth u (nth t (map (local_histogram (img.data im)) sh)
                                               zero_bins) 0) (seq 0 team))).
  2:{ apply Permutation_map. apply arrival_perm. }
  rewrite <- (map_map (fun t => nth t (map (local_histogram (img.data im)) sh) zero_bins)
                      (fun h => nth u h 0)).
  replace team with (length sh) at 1 by apply length_shares.
  rewrite nth_seq_map, !map_map.
  erewrite map_ext.
  2:{ intros share. apply (proj2 (local_histogram_spec (img.data im) share Hd)). }
  rewrite <- (map_map (fun share => samples (img.data im) share)
                      (reference.count (Z.of_nat u))).
  rewrite <- count_concat, concat_samples.
  rewrite (count_perm _ _ (samples (img.data im) (range 0 n))).
  - unfold n. rewrite samples_all. reflexivity.
  - apply Permutation_map. apply shares_partition. assumption.
Qed.

Lemma sum_map_add {A : Type} (f g : A -> Z) (l : list A) :
  integer.sum (map (fun v => f v + g v) l)
  = integer.sum (map f l) + integer.sum (map g l).
Proof. induction l as [|a l IH]; simpl; lia. Qed.

Lemma sum_indicator a (l : list Z) :
  NoDup l -> a ∈ l ->
  integer.sum (map (fun v => if Z.eq_dec a v then 1 else 0) l) = 1.
Proof.
  induction l as [|b l IH]; intros Hnd Hin; [inversion Hin|].
  inversion Hnd as [|? ? Hb Hnd']; subst. simpl.
  destruct (Z.eq_dec a b) as [->|Hne].
  - assert (integer.sum (map (fun v => if Z.eq_dec b v then 1 else 0) l) = 0) as ->;
      [|reflexivity].
    clear IH Hin Hnd Hnd'. induction l as [|c l IH]; simpl; [reflexivity|].
    apply not_elem_of_cons in Hb as [Hbc Hb].
    destruct (Z.eq_dec b c); [contradiction|]. apply IH. assumption.
  - apply elem_of_cons in Hin as [?|Hin]; [contradiction|].
    rewrite IH by assumption. reflexivity.
Qed.

(** The counts of the 256 byte values add up to the number of samples. *)
Lemma sum_counts data :
  Forall (fun v => 0 <= v <= 255) data ->
  integer.sum (map (fun v => reference.count v data) (range 0 256))
  = Z.of_nat (length data).
Proof.
  induction data as [|a data IH]; intros Hd.
  - unfold reference.count. simpl count_occ.
    induction (range 0 256); unfold integer.sum in *; simpl in *; lia.
  - inversion Hd as [|? ? Ha Hd']; subst.
    erewrite map_ext by (intros v; apply count_cons).
    rewrite sum_map_add, IH by assumption.
    rewrite sum_indicator; [simpl length; lia|apply NoDup_range|].
    apply elem_of_range. lia.
Qed.

Lemma three_counts a b c l :
  a <> b -> a <> c -> b <> c ->
  reference.count a l + reference.count b l + reference.count c l
  <= Z.of_nat (length l).
Proof.
  intros Hab Hac Hbc. induction l as [|v l IH]; [unfold reference.count; simpl; lia|].
  rewrite !count_cons. simpl length.
  destruct (Z.eq_dec v a), (Z.eq_dec v b), (Z.eq_dec v c); subst; try congruence; lia.
Qed.

Lemma map_zero {A : Type} (f : A -> Z) (l : list A) :
  (forall v, In v l -> f v = 0) -> map f l = replicate (length l) 0.
Proof.
  induction l as [|a l IH]; intros H; simpl; [reflexivity|].
  rewrite H by (left; reflexivity). f_equal. apply IH.
  intros v Hv. apply H. right. assumption.
Qed.

(** The histogram in closed form. *)
Lemma histogram_closed_form im rt :
  img.wf im -> omp.wf rt ->
  compute_histogram_parallel im rt
  = map (fun v => reference.count v (img.data im)) (range 0 256).
Proof.
  intros Hwf Hrt. destruct (histogram_bins im rt Hwf Hrt) as [Hlen Hnth].
  apply list_eq. intros i. rewrite list_lookup_fmap.
  destruct (Nat.lt_ge_cases i 256) as [Hi|Hi].
  - unfold range. rewrite lookup_seqZ_lt by lia. simpl. rewrite Z.add_0_l.
    rewrite <- Hnth by assumption.
    destruct (nth_lookup_or_length (compute_histogram_parallel im rt) i 0)
      as [H|H]; [exact H|lia].
  - unfold range. rewrite lookup_seqZ_ge by lia.
    apply lookup_ge_None. lia.
Qed.

Lemma wf_single_worker : omp.wf single_worker.
Proof. unfold omp.wf. simpl. lia. Qed.

(** C3. The parallel histogram has 256 bins; bin [v] is the number of
    samples equal to [v]; the bins add up to the number of samples; the
    result is the single-worker histogram and is the same for every
    runtime, that is for every worker count, partition and merge order.
    A buffer of ten samples, nine of them 0 and one 255, gives
    [bin[0] = 9], [bin[255] = 1] and zero elsewhere. *)
Theorem compute_histogram_parallel_correct (im : img.GrayscaleImage)
    (rt : omp.runtime) :
  img.wf im -> omp.wf rt ->
  length (compute_histogram_parallel im rt) = 256%nat /\
  (forall v, 0 <= v < 256 ->
     nth (Z.to_nat v) (compute_histogram_parallel im rt) 0
     = reference.count v (img.data im)) /\
  integer.sum (compute_histogram_parallel im rt) = img.width im * img.height im /\
  compute_histogram_parallel im rt = compute_histogram_parallel im single_worker /\
  (forall rt', omp.wf rt' ->
     compute_histogram_parallel im rt' = compute_histogram_parallel im rt) /\
  (length (img.data im) = 10%nat ->
   reference.count 0 (img.data im) = 9 ->
   reference.count 255 (img.data im) = 1 ->
   compute_histogram_parallel im rt = 9 :: replicate 254 0 ++ [1]).
Proof.
  intros Hwf Hrt. pose proof Hwf as (_ & _ & Hlen & _ & Hd).
  destruct (histogram_bins im rt Hwf Hrt) as [H256 Hnth].
  split; [exact H256|]. split; [|split; [|split; [|split]]].
  - intros v Hv. rewrite Hnth by lia. f_equal. lia.
  - rewrite histogram_closed_form by assumption.
    rewrite sum_counts by assumption. exact Hlen.
  - rewrite !histogram_closed_form by (try assumption; apply wf_single_worker).
    reflexivity.
  - intros rt' Hrt'. rewrite !histogram_closed_form by assumption. reflexivity.
  - intros H10 H0 H255. rewrite histogram_closed_form by assumption.
    replace (range 0 256) with (0 :: range 1 255 ++ [255]) by (vm_compute; reflexivity).
    cbn [map]. rewrite map_app. cbn [map]. rewrite H0, H255.
    f_equal. f_equal. rewrite map_zero.
    + f_equal.
    + intros v Hv. apply In_range in Hv.
      pose proof (three_counts 0 255 v (img.data im) ltac:(lia) ltac:(lia) ltac:(lia)).
      pose proof (count_nonneg v (img.data im)). lia.
Qed.

Lemma compute_histogram_parallel_correct_witness :
  img.wf examples.sparse /\ omp.wf examples.runtime4 /\
  compute_histogram_parallel examples.sparse examples.runtime4
  = 9 :: replicate 254 0 ++ [1].
Proof.
  assert (img.wf examples.sparse) as Hwf.
  { unfold img.wf. simpl. repeat split; try lia. repeat constructor; lia. }
  assert (omp.wf examples.runtime4) as Hrt by (unfold omp.wf; simpl; lia).
  split; [exact Hwf|]. split; [exact Hrt|].
  apply (compute_histogram_parallel_correct examples.sparse examples.runtime4 Hwf Hrt);
    reflexivity.
Defined.

End histogram_facts.

(* ===================================================================== *)
(** * Statistics: the reductions are exact on [double] *)
(* ===================================================================== *)

Module statistics_facts.
Import reduce omp_facts ieee exact_facts histogram_facts.

Local Abbreviation is_int64 := (ieee.is_int 53 1024).
Local Abbreviation samples data share :=
  (map (fun i : Z => nth (Z.to_nat i) data 0) share).
Local Abbreviation bytes := (Forall (fun v : Z => 0 <= v <= 255)).

Lemma prec64 : 0 < 53.
Proof. lia. Qed.

Lemma emax64 : 53 < 1024.
Proof. lia. Qed.

Lemma of_int64 z : Z.abs z < 2 ^ 53 -> is_int64 (f64.of_int z) z.
Proof. apply (of_int_is_int 53 1024 prec64 emax64). Qed.

Lemma of_int64_shape a :
  0 < a < 2 ^ 53 -> exists m e, f64.of_int a = S754_finite false m e.
Proof.
  intros Ha. pose proof (of_int64 a ltac:(lia)) as H.
  destruct (f64.of_int a) as [s|s| |s m e]; simpl in H; try contradiction; try lia.
  destruct H as (_ & -> & _). exists m, e. f_equal.
  apply Z.ltb_ge. lia.
Qed.

Lemma nonneg_unique x a :
  0 <= a < 2 ^ 53 -> is_int64 x a -> x <> S754_zero true -> x = f64.of_int a.
Proof.
  intros Ha Hx Hn. destruct (Z.eq_dec a 0) as [->|Hne].
  - destruct (is_int_zero_inv 53 1024 x Hx) as [[] ->]; [contradiction|reflexivity].
  - apply (is_int_unique 53 1024 x (f64.of_int a) a Hne Hx).
    apply of_int64. lia.
Qed.

(** Addition of non-negative integers below [2^53] is exact. *)
Lemma add64_exact a b :
  0 <= a -> 0 <= b -> a + b < 2 ^ 53 ->
  f64.add (f64.of_int a) (f64.of_int b) = f64.of_int (a + b).
Proof.
  intros Ha Hb Hlt.
  destruct (Z.eq_dec a 0) as [->|Ha0].
  { rewrite Z.add_0_l. destruct (Z.eq_dec b 0) as [->|Hb0]; [reflexivity|].
    destruct (of_int64_shape b ltac:(lia)) as (m & e & ->). reflexivity. }
  destruct (Z.eq_dec b 0) as [->|Hb0].
  { rewrite Z.add_0_r.
    destruct (of_int64_shape a ltac:(lia)) as (m & e & ->). reflexivity. }
  apply (is_int_unique 53 1024 _ _ (a + b)); [lia| |apply of_int64; lia].
  apply (add_exact 53 1024 prec64 emax64); [apply of_int64; lia..|lia].
Qed.

(** Multiplication of non-negative integers with a product below
    [2^53] is exact. *)
Lemma mul64_exact a b :
  0 <= a -> 0 <= b -> a * b < 2 ^ 53 -> a < 2 ^ 53 -> b < 2 ^ 53 ->
  f64.mul (f64.of_int a) (f64.of_int b) = f64.of_int (a * b).
Proof.
  intros Ha Hb Hlt Hal Hbl.
  destruct (Z.eq_dec a 0) as [->|Ha0].
  { rewrite Z.mul_0_l. destruct (Z.eq_dec b 0) as [->|Hb0]; [reflexivity|].
    destruct (of_int64_shape b ltac:(lia)) as (m & e & ->). reflexivity. }
  destruct (Z.eq_dec b 0) as [->|Hb0].
  { rewrite Z.mul_0_r.
    destruct (of_int64_shape a ltac:(lia)) as (m & e & ->). reflexivity. }
  apply (is_int_unique 53 1024 _ _ (a * b)); [nia| |apply of_int64; nia].
  apply (mul_exact 53 1024 prec64 emax64); [apply of_int64; lia..|nia].
Qed.

Lemma ltb64_exact a b :
  Z.abs a < 2 ^ 53 -> Z.abs b < 2 ^ 53 ->
  f64.ltb (f64.of_int a) (f64.of_int b) = (a <? b).
Proof.
  intros Ha Hb. apply (ltb_exact 53 1024); apply of_int64; assumption.
Qed.

Lemma of_int64_not_special a :
  Z.abs a < 2 ^ 53 ->
  (exists s, f64.of_int a = S754_zero s) \/
  (exists s m e, f64.of_int a = S754_finite s m e).
Proof.
  intros Ha. pose proof (of_int64 a Ha) as H.
  destruct (f64.of_int a) as [s|s| |s m e]; simpl in H; try contradiction; eauto.
Qed.

Lemma ltb64_below_inf a :
  Z.abs a < 2 ^ 53 -> f64.ltb (f64.of_int a) (S754_infinity false) = true.
Proof.
  intros Ha. destruct (of_int64_not_special a Ha) as [(s & ->)|(s & m & e & ->)];
    reflexivity.
Qed.

Lemma ltb64_above_inf a :
  Z.abs a < 2 ^ 53 -> f64.ltb (S754_infinity true) (f64.of_int a) = true.
Proof.
  intros Ha. destruct (of_int64_not_special a Ha) as [(s & ->)|(s & m & e & ->)];
    reflexivity.
Qed.

Lemma ltb64_inf_not_below a :
  Z.abs a < 2 ^ 53 -> f64.ltb (S754_infinity false) (f64.of_int a) = false.
Proof.
  intros Ha. destruct (of_int64_not_special a Ha) as [(s & ->)|(s & m & e & ->)];
    reflexivity.
Qed.

Lemma ltb64_not_above_inf a :
  Z.abs a < 2 ^ 53 -> f64.ltb (f64.of_int a) (S754_infinity true) = false.
Proof.
  intros Ha. destruct (of_int64_not_special a Ha) as [(s & ->)|(s & m & e & ->)];
    reflexivity.
Qed.

(** *** Integer summaries of lists of bytes *)

Lemma sum_bytes l : bytes l -> 0 <= integer.sum l <= 255 * Z.of_nat (length l).
Proof.
  induction 1 as [|v l Hv Hl IH]; simpl; [lia|].
  unfold integer.sum in *. simpl. lia.
Qed.

Lemma sum_sq_bytes l :
  bytes l -> 0 <= integer.sum_sq l <= 65025 * Z.of_nat (length l).
Proof.
  induction 1 as [|v l Hv Hl IH]; simpl; [unfold integer.sum_sq; simpl; lia|].
  unfold integer.sum_sq, integer.sum in *. simpl. nia.
Qed.

Lemma minimum_bytes l : bytes l -> 0 <= integer.minimum l <= 255.
Proof. induction 1 as [|v l Hv Hl IH]; simpl; unfold integer.minimum in *; simpl; lia. Qed.

Lemma maximum_bytes l : bytes l -> 0 <= integer.maximum l <= 255.
Proof. induction 1 as [|v l Hv Hl IH]; simpl; unfold integer.maximum in *; simpl; lia. Qed.

Lemma sum_sq_app l1 l2 :
  integer.sum_sq (l1 ++ l2) = integer.sum_sq l1 + integer.sum_sq l2.
Proof. unfold integer.sum_sq. rewrite map_app. apply integer_facts.sum_app. Qed.

Lemma minimum_app l1 l2 :
  bytes l2 ->
  integer.minimum (l1 ++ l2) = Z.min (integer.minimum l1) (integer.minimum l2).
Proof.
  intros H2. pose proof (minimum_bytes l2 H2).
  unfold integer.minimum in *. induction l1 as [|a l1 IH]; simpl; lia.
Qed.

Lemma maximum_app l1 l2 :
  bytes l2 ->
  integer.maximum (l1 ++ l2) = Z.max (integer.maximum l1) (integer.maximum l2).
Proof.
  intros H2. pose proof (maximum_bytes l2 H2).
  unfold integer.maximum in *. induction l1 as [|a l1 IH]; simpl; lia.
Qed.

Lemma sum_sq_perm l l' : Permutation l l' -> integer.sum_sq l = integer.sum_sq l'.
Proof. intros H. unfold integer.sum_sq. apply sum_perm, Permutation_map, H. Qed.

Lemma minimum_perm l l' : Permutation l l' -> integer.minimum l = integer.minimum l'.
Proof. unfold integer.minimum. induction 1; simpl; lia. Qed.

Lemma maximum_perm l l' : Permutation l l' -> integer.maximum l = integer.maximum l'.
Proof. unfold integer.maximum. induction 1; simpl; lia. Qed.

Lemma minimum_least l : Forall (fun v => integer.minimum l <= v) l.
Proof.
  unfold integer.minimum. induction l as [|a l IH]; simpl; constructor; [lia|].
  eapply Forall_impl; [exact IH|]. simpl. intros; lia.
Qed.

Lemma maximum_greatest l : Forall (fun v => v <= integer.maximum l) l.
Proof.
  unfold integer.maximum. induction l as [|a l IH]; simpl; constructor; [lia|].
  eapply Forall_impl; [exact IH|]. simpl. intros; lia.
Qed.

Lemma minimum_in l : bytes l -> l <> [] -> In (integer.minimum l) l.
Proof.
  unfold integer.minimum. induction 1 as [|a l Ha Hl IH]; intros Hne; [congruence|].
  simpl. destruct l as [|b l].
  - left. simpl. lia.
  - destruct (Z.le_gt_cases a (fold_right Z.min 255 (b :: l))).
    + left. lia.
    + right. rewrite Z.min_r by lia. apply IH. discriminate.
Qed.

Lemma maximum_in l : bytes l -> l <> [] -> In (integer.maximum l) l.
Proof.
  unfold integer.maximum. induction 1 as [|a l Ha Hl IH]; intros Hne; [congruence|].
  simpl. destruct l as [|b l].
  - left. simpl. lia.
  - destruct (Z.le_gt_cases (fold_right Z.max 0 (b :: l)) a).
    + left. lia.
    + right. rewrite Z.max_r by lia. apply IH. discriminate.
Qed.

End statistics_facts.

(* ===================================================================== *)
(** * Statistics: the result *)
(* ===================================================================== *)

Module statistics_result.
Import reduce omp_facts ieee exact_facts histogram_facts statistics_facts summary.

Local Abbreviation samples data share :=
  (map (fun i : Z => nth (Z.to_nat i) data 0) share).
Local Abbreviation bytes := (Forall (fun v : Z => 0 <= v <= 255)).

Lemma pow31_53 n : n < 2 ^ 31 -> 65025 * n < 2 ^ 53 /\ 255 * n < 2 ^ 53.
Proof.
  change (2 ^ 31) with 2147483648. change (2 ^ 53) with 9007199254740992. lia.
Qed.

Lemma bytes_app l1 l2 : bytes l1 -> bytes l2 -> bytes (l1 ++ l2).
Proof. intros. apply Forall_app; split; assumption. Qed.

Lemma bytes_samples data share : bytes data -> bytes (samples data share).
Proof.
  intros Hd. apply List.Forall_forall. intros v Hv.
  apply in_map_iff in Hv as (i & <- & _). apply sample_range. assumption.
Qed.

(** One iteration keeps the private copies exact. *)
Lemma stat_step_visited data acc vs i :
  bytes data -> bytes vs -> Z.of_nat (length vs) + 1 < 2 ^ 31 ->
  visited acc vs ->
  visited (stat_step ieee_double data acc i) (vs ++ [nth (Z.to_nat i) data 0]).
Proof.
  intros Hd Hvs Hlen (Hs & Hq & Hmin & Hmax).
  set (v := nth (Z.to_nat i) data 0).
  pose proof (sample_range data (Z.to_nat i) Hd) as Hv. fold v in Hv.
  pose proof (sum_bytes vs Hvs) as Bs. pose proof (sum_sq_bytes vs Hvs) as Bq.
  pose proof (minimum_bytes vs Hvs) as Bmin. pose proof (maximum_bytes vs Hvs) as Bmax.
  destruct (pow31_53 (Z.of_nat (length vs) + 1) Hlen) as [P1 P2].
  assert (2 ^ 53 = 9007199254740992) as E53 by reflexivity.
  unfold visited, stat_step. cbn [sum sum_sq local_min local_max].
  cbn [reduce.add reduce.mul reduce.ltb reduce.of_int ieee_double].
  fold v. rewrite Hs, Hq, Hmin, Hmax. repeat split.
  - rewrite add64_exact by lia. f_equal. rewrite integer_facts.sum_app. simpl. lia.
  - rewrite mul64_exact by nia. rewrite add64_exact by nia.
    f_equal. rewrite sum_sq_app. unfold integer.sum_sq. simpl. lia.
  - destruct vs as [|u vs'].
    + rewrite ltb64_below_inf by lia. simpl. f_equal.
      unfold integer.minimum. simpl. lia.
    + rewrite ltb64_exact by lia.
      change ((u :: vs') ++ [v]) with (u :: (vs' ++ [v])). cbv iota.
      change (u :: (vs' ++ [v])) with ((u :: vs') ++ [v]).
      rewrite minimum_app by (repeat constructor; lia).
      replace (integer.minimum [v]) with v by (unfold integer.minimum; simpl; lia).
      destruct (Z.ltb_spec v (integer.minimum (u :: vs'))); f_equal; lia.
  - destruct vs as [|u vs'].
    + rewrite ltb64_above_inf by lia. simpl. f_equal.
      unfold integer.maximum. simpl. lia.
    + rewrite ltb64_exact by lia.
      change ((u :: vs') ++ [v]) with (u :: (vs' ++ [v])). cbv iota.
      change (u :: (vs' ++ [v])) with ((u :: vs') ++ [v]).
      rewrite maximum_app by (repeat constructor; lia).
      replace (integer.maximum [v]) with v by (unfold integer.maximum; simpl; lia).
      destruct (Z.ltb_spec (integer.maximum (u :: vs')) v); f_equal; lia.
Qed.

Lemma private_fold data share acc vs :
  bytes data -> bytes vs ->
  Z.of_nat (length vs) + Z.of_nat (length share) < 2 ^ 31 ->
  visited acc vs ->
  visited (fold_left (stat_step ieee_double data) share acc)
          (vs ++ samples data share).
Proof.
  intros Hd. revert acc vs. induction share as [|i share IH]; intros acc vs Hvs Hlen Hacc.
  - simpl. rewrite app_nil_r. assumption.
  - rewrite fold_left_cons. simpl map.
    replace (vs ++ nth (Z.to_nat i) data 0 :: samples data share)
      with ((vs ++ [nth (Z.to_nat i) data 0]) ++ samples data share)
      by (rewrite <- app_assoc; reflexivity).
    simpl length in Hlen. apply IH.
    + apply bytes_app; [assumption|]. repeat constructor; apply sample_range; assumption.
    + rewrite length_app. simpl length. lia.
    + apply stat_step_visited; [assumption|assumption|lia|assumption].
Qed.

(** The private copies of a thread after its share. *)
Lemma private_visited data share :
  bytes data -> Z.of_nat (length share) < 2 ^ 31 ->
  visited (private ieee_double data share) (samples data share).
Proof.
  intros Hd Hlen. unfold private.
  apply (private_fold data share _ [] Hd); [constructor|simpl; lia|].
  repeat split.
Qed.

(** Combining a private copy keeps the shared variables exact. *)
Lemma combine_combined out inn vs ws :
  bytes vs -> bytes ws -> Z.of_nat (length (vs ++ ws)) < 2 ^ 31 ->
  combined out vs -> visited inn ws ->
  combined (combine ieee_double out inn) (vs ++ ws).
Proof.
  intros Hvs Hws Hlen (Hs & Hq & Hmin & Hmax) (Is & Iq & Imin & Imax).
  pose proof (sum_bytes vs Hvs) as Bs. pose proof (sum_sq_bytes vs Hvs) as Bq.
  pose proof (sum_bytes ws Hws) as Cs. pose proof (sum_sq_bytes ws Hws) as Cq.
  pose proof (minimum_bytes vs Hvs) as Bmin. pose proof (maximum_bytes vs Hvs) as Bmax.
  pose proof (minimum_bytes ws Hws) as Cmin. pose proof (maximum_bytes ws Hws) as Cmax.
  rewrite length_app, Nat2Z.inj_add in Hlen.
  destruct (pow31_53 _ Hlen) as [P1 P2].
  assert (2 ^ 53 = 9007199254740992) as E53 by reflexivity.
  unfold combined, combine. cbn [sum sum_sq local_min local_max].
  cbn [reduce.add reduce.ltb ieee_double].
  rewrite Hs, Hq, Hmin, Hmax, Is, Iq, Imin, Imax. repeat split.
  - rewrite add64_exact by lia. f_equal. rewrite integer_facts.sum_app. reflexivity.
  - rewrite add64_exact by lia. f_equal. rewrite sum_sq_app. reflexivity.
  - rewrite minimum_app by assumption. destruct ws as [|w ws'].
    + rewrite ltb64_inf_not_below by lia. f_equal.
      change (integer.minimum []) with 255. lia.
    + rewrite ltb64_exact by lia.
      destruct (Z.ltb_spec (integer.minimum (w :: ws')) (integer.minimum vs));
        f_equal; lia.
  - rewrite maximum_app by assumption. destruct ws as [|w ws'].
    + rewrite ltb64_not_above_inf by lia. f_equal.
      change (integer.maximum []) with 0. lia.
    + rewrite ltb64_exact by lia.
      destruct (Z.ltb_spec (integer.maximum vs) (integer.maximum (w :: ws')));
        f_equal; lia.
Qed.

Lemma length_concat_samples data (sh : list (list Z)) (order : list nat) :
  length (concat (map (fun t => samples data (nth t sh [])) order))
  = length (concat (map (fun t => nth t sh []) order)).
Proof.
  induction order as [|t order IH]; simpl; [reflexivity|].
  rewrite !length_app, length_map, IH. reflexivity.
Qed.

(** The shared variables after the threads of [order] have combined. *)
Lemma combine_fold data (sh : list (list Z)) (order : list nat) acc vs original :
  bytes data -> bytes vs ->
  Forall (fun t => (t < length sh)%nat) order ->
  Z.of_nat (length vs)
    + Z.of_nat (length (concat (map (fun t => nth t sh []) order))) < 2 ^ 31 ->
  combined acc vs ->
  combined
    (fold_left (fun out t =>
                  combine ieee_double out
                    (nth t (map (private ieee_double data) sh) original))
               order acc)
    (vs ++ concat (map (fun t => samples data (nth t sh [])) order)).
Proof.
  intros Hd. revert acc vs.
  induction order as [|t order IH]; intros acc vs Hvs Hord Hlen Hacc.
  - simpl. rewrite app_nil_r. assumption.
  - rewrite fold_left_cons. simpl map. simpl concat. rewrite app_assoc.
    inversion Hord as [|? ? Ht Hord']; subst.
    simpl map in Hlen. simpl concat in Hlen. rewrite length_app in Hlen.
    assert (nth t (map (private ieee_double data) sh) original
            = private ieee_double data (nth t sh [])) as ->.
    { apply lookup_lt_is_Some in Ht as [s Hs].
      rewrite (nth_lookup_Some sh t [] s Hs).
      apply nth_lookup_Some. rewrite list_lookup_fmap, Hs. reflexivity. }
    apply IH.
    + apply bytes_app; [assumption|apply bytes_samples; assumption].
    + assumption.
    + rewrite length_app, length_map. lia.
    + apply combine_combined; try assumption.
      * apply bytes_samples; assumption.
      * rewrite length_app, length_map. lia.
      * apply private_visited; [assumption|lia].
Qed.

Lemma concat_nth_seq (sh : list (list Z)) :
  concat (map (fun t => nth t sh []) (seq 0 (length sh))) = concat sh.
Proof.
  f_equal. apply list_eq. intros i. rewrite list_lookup_fmap.
  destruct (sh !! i) as [s|] eqn:E.
  - pose proof (lookup_lt_Some _ _ _ E) as Hi.
    rewrite lookup_seq_lt by assumption. simpl. f_equal.
    apply nth_lookup_Some. assumption.
  - apply lookup_ge_None in E. rewrite lookup_seq_ge by lia. reflexivity.
Qed.

Lemma concat_samples_order data (sh : list (list Z)) (order : list nat) :
  concat (map (fun t => samples data (nth t sh [])) order)
  = samples data (concat (map (fun t => nth t sh []) order)).
Proof.
  induction order as [|t order IH]; simpl; [reflexivity|].
  rewrite IH, map_app. reflexivity.
Qed.

(** The samples the team has combined are the samples of the buffer, in
    some order. *)
Lemma combined_samples_perm data team rt :
  (0 < team)%nat ->
  let n := Z.of_nat (length data) in
  let sh := shares (def_schedule rt) 0 team rt n in
  Permutation (concat (map (fun t => nth t sh []) (arrival team rt))) (range 0 n) /\
  Permutation (concat (map (fun t => samples data (nth t sh [])) (arrival team rt)))
              data.
Proof.
  intros Ht n sh.
  assert (Permutation (concat (map (fun t => nth t sh []) (arrival team rt)))
                      (range 0 n)) as Hp.
  { rewrite <- flat_map_concat_map.
    rewrite (Permutation_flat_map (fun t => nth t sh []) (arrival_perm team rt)).
    rewrite flat_map_concat_map.
    replace team with (length sh) by apply length_shares.
    rewrite concat_nth_seq. apply shares_partition. assumption. }
  split; [exact Hp|].
  rewrite concat_samples_order. rewrite (Permutation_map _ Hp).
  unfold n. rewrite samples_all. reflexivity.
Qed.

End statistics_result.

(* ===================================================================== *)
(** * Statistics: the four outputs *)
(* ===================================================================== *)

Module statistics_final.
Import reduce omp_facts ieee exact_facts histogram_facts statistics_facts summary
       statistics_result.

(** The shared reduction variables once the whole team has combined. *)
Lemma reduction_combined (data : list Z) (rt : runtime) :
  Forall (fun v : Z => 0 <= v <= 255) data ->
  Z.of_nat (length data) < 2 ^ 31 -> omp.wf rt ->
  let team := team_size 0 rt in
  let sh := shares (def_schedule rt) 0 team rt (Z.of_nat (length data)) in
  let original :=
    mkAccum (f64.of_int 0) (f64.of_int 0) (f64.of_int 255) (f64.of_int 0) in
  combined
    (fold_left (fun out t =>
                  combine ieee_double out
                    (nth t (map (private ieee_double data) sh) original))
               (arrival team rt) original)
    data.
Proof.
  intros Hd Hlen Hrt team sh original.
  pose proof (team_size_pos 0 rt Hrt) as Hteam. fold team in Hteam.
  destruct (combined_samples_perm data team rt Hteam) as [Hp Hq].
  fold sh in Hp, Hq.
  assert (combined original []) as H0 by (repeat split).
  pose proof (combine_fold data sh (arrival team rt) original [] original Hd
                (List.Forall_nil _)) as H.
  cbn [app length] in H.
  assert (combined
            (fold_left (fun out t =>
                          combine ieee_double out
                            (nth t (map (private ieee_double data) sh) original))
                       (arrival team rt) original)
            (concat (map (fun t => map (fun i : Z => nth (Z.to_nat i) data 0)
                                       (nth t sh [])) (arrival team rt))))
    as (Hs & Hsq & Hmin & Hmax).
  { apply H; [| |exact H0].
    - apply List.Forall_forall. intros t Ht.
      apply (Permutation_in _ (arrival_perm team rt)) in Ht.
      apply in_seq in Ht. unfold sh. rewrite length_shares. lia.
    - rewrite (Permutation_length Hp). unfold range. rewrite length_seqZ. lia. }
  unfold combined.
  rewrite Hs, Hsq, Hmin, Hmax.
  rewrite (sum_perm _ _ Hq), (sum_sq_perm _ _ Hq),
    (minimum_perm _ _ Hq), (maximum_perm _ _ Hq).
  repeat split.
Qed.

(** The four outputs, for a buffer that is not empty. *)
Lemma compute_statistics_parallel_value (im : img.GrayscaleImage) (rt : runtime) :
  img.wf im -> omp.wf rt -> img.data im <> [] ->
  let n := Z.of_nat (length (img.data im)) in
  let mean := f64.div (f64.of_int (integer.sum (img.data im))) (f64.of_int n) in
  compute_statistics_parallel im rt
  = mkStatistics
      (f64.of_int (integer.minimum (img.data im)))
      (f64.of_int (integer.maximum (img.data im)))
      mean
      (f64.sub (f64.div (f64.of_int (integer.sum_sq (img.data im))) (f64.of_int n))
               (f64.mul mean mean)).
Proof.
  intros (Hw & Hh & Hlen & Hsz & Hd) Hrt Hne n mean.
  unfold compute_statistics_parallel, compute_statistics. fold n.
  destruct (Z.eqb_spec n 0) as [E|E].
  { exfalso. apply Hne. apply length_zero_iff_nil. unfold n in E. lia. }
  assert (Z.of_nat (length (img.data im)) < 2 ^ 31) as Hn by lia.
  destruct (reduction_combined (img.data im) rt Hd Hn Hrt) as (Hs & Hsq & Hmin & Hmax).
  cbn [reduce.of_int reduce.div reduce.sub reduce.mul ieee_double].
  cbv zeta. unfold n.
  rewrite Hs, Hsq, Hmin, Hmax. reflexivity.
Qed.

(** C4: for a buffer that is not empty the four outputs are the least
    sample, the greatest sample, the quotient of the sum of the samples by
    their number, and the quotient of the sum of the squared samples by
    their number minus the square of the mean, each operation being the
    binary64 one applied to the exact integer sums; for an empty buffer
    all four outputs are zero; and the buffer [0, 10, 20, 30] gives
    0, 30, 15 and 125.  This holds for every team size, schedule and order
    in which the threads combine. *)
Theorem compute_statistics_parallel_correct
    (im : img.GrayscaleImage) (rt : runtime) :
  img.wf im -> omp.wf rt ->
  let data := img.data im in
  let n := Z.of_nat (length data) in
  (data <> [] ->
   exists lo hi : Z,
     In lo data /\ In hi data /\
     (forall v, In v data -> lo <= v <= hi) /\
     let mean := f64.div (f64.of_int (integer.sum data)) (f64.of_int n) in
     compute_statistics_parallel im rt
     = mkStatistics (f64.of_int lo) (f64.of_int hi) mean
         (f64.sub (f64.div (f64.of_int (integer.sum_sq data)) (f64.of_int n))
                  (f64.mul mean mean))) /\
  (data = [] ->
   compute_statistics_parallel im rt
   = mkStatistics (f64.of_int 0) (f64.of_int 0) (f64.of_int 0) (f64.of_int 0)) /\
  (data = [0; 10; 20; 30] ->
   compute_statistics_parallel im rt
   = mkStatistics (f64.of_int 0) (f64.of_int 30) (f64.of_int 15) (f64.of_int 125)).
Proof.
  intros Him Hrt data n. split; [|split].
  - intros Hne.
    exists (integer.minimum data), (integer.maximum data).
    destruct Him as (Hw & Hh & Hlen & Hsz & Hd).
    split; [apply minimum_in; assumption|].
    split; [apply maximum_in; assumption|].
    split.
    + intros v Hv. split.
      * pose proof (minimum_least data) as H.
        rewrite List.Forall_forall in H. apply H. assumption.
      * pose proof (maximum_greatest data) as H.
        rewrite List.Forall_forall in H. apply H. assumption.
    + apply compute_statistics_parallel_value; [|assumption|assumption].
      repeat split; assumption.
  - intros E. unfold compute_statistics_parallel, compute_statistics.
    fold data. rewrite E. reflexivity.
  - intros E.
    assert (data <> []) as Hne by (rewrite E; discriminate).
    rewrite (compute_statistics_parallel_value im rt Him Hrt Hne).
    fold data. rewrite E. vm_compute. reflexivity.
Qed.

Lemma wf_ramp : img.wf examples.ramp.
Proof.
  unfold img.wf, examples.ramp. cbn.
  split; [lia|]. split; [lia|]. split; [reflexivity|]. split; [reflexivity|].
  repeat constructor; lia.
Qed.

Lemma compute_statistics_parallel_correct_witness :
  img.wf examples.ramp /\ omp.wf examples.runtime4 /\
  compute_statistics_parallel examples.ramp examples.runtime4
  = mkStatistics (f64.of_int 0) (f64.of_int 30) (f64.of_int 15) (f64.of_int 125).
Proof.
  split; [exact wf_ramp|]. split; [exact divergence_facts.wf_runtime4|].
  exact (proj2 (proj2 (compute_statistics_parallel_correct
                         examples.ramp examples.runtime4
                         wf_ramp divergence_facts.wf_runtime4))
               eq_refl).
Defined.

End statistics_final.

(* ===================================================================== *)
(** * Rounding to nearest: how far the result is from the operand *)
(* ===================================================================== *)

Module rounding_facts.
Import float_facts exact_facts.

Lemma shiftr_bounds m k :
  0 <= m -> 0 <= k ->
  Z.shiftr m k * 2 ^ k <= m < (Z.shiftr m k + 1) * 2 ^ k.
Proof.
  intros Hm Hk. rewrite Z.shiftr_div_pow2 by assumption.
  assert (0 < 2 ^ k) as Hp by (apply Z.pow_pos_nonneg; lia).
  pose proof (Z.div_mod m (2 ^ k) ltac:(lia)) as E.
  pose proof (Z.mod_pos_bound m (2 ^ k) Hp). nia.
Qed.

Section Format.
Variables prec emax : Z.
Hypothesis Hprec : 0 < prec.
Hypothesis Hemax : prec < emax.

Local Abbreviation fexp := (SpecFloat.fexp prec emax).
Local Abbreviation emin := (SpecFloat.emin prec emax).

(** A mantissa of at least [prec] digits, in the normal range, is
    rounded to its leading [prec] digits or to their successor. *)
Lemma binary_round_aux_near mx ex lx :
  0 < mx -> prec <= Zdigits2 mx ->
  emin <= ex + Zdigits2 mx - prec -> ex + Zdigits2 mx < emax ->
  let k := Zdigits2 mx - prec in
  let t := Z.shiftr mx k in
  exists m e,
    binary_round_aux prec emax false mx ex lx = S754_finite false m e /\
    Zdigits2 (Z.pos m) = prec /\
    2 ^ (prec - 1) <= t < 2 ^ prec /\
    ((e = ex + k /\ (Z.pos m = t \/ Z.pos m = t + 1)) \/
     (e = ex + k + 1 /\ Z.pos m = 2 ^ (prec - 1) /\ t + 1 = 2 ^ prec)).
Proof.
  intros Hm Hd Hlo Hhi k t.
  assert (0 <= k) as Hk by (unfold k; lia).
  assert (fexp (Zdigits2 mx + ex) - ex = k) as Ek.
  { unfold SpecFloat.fexp, SpecFloat.emin, k in *. lia. }
  pose proof (Zdigits2_bounds mx Hm) as [Bl Bh].
  pose proof (shiftr_bounds mx k ltac:(lia) Hk) as [Sl Sh]. fold t in Sl, Sh.
  assert (0 < 2 ^ k) as Pk by (apply Z.pow_pos_nonneg; lia).
  assert (2 ^ (Zdigits2 mx - 1) = 2 ^ (prec - 1) * 2 ^ k) as E1.
  { rewrite <- Z.pow_add_r by lia. f_equal. unfold k. lia. }
  assert (2 ^ Zdigits2 mx = 2 ^ prec * 2 ^ k) as E2.
  { rewrite <- Z.pow_add_r by lia. f_equal. unfold k. lia. }
  assert (2 ^ (prec - 1) <= t < 2 ^ prec) as Ht by nia.
  assert (0 < 2 ^ (prec - 1)) as Pp by (apply Z.pow_pos_nonneg; lia).
  assert (2 ^ prec = 2 * 2 ^ (prec - 1)) as E3.
  { replace prec with (1 + (prec - 1)) at 1 by lia.
    rewrite Z.pow_add_r by lia. reflexivity. }
  unfold binary_round_aux.
  unfold shr_fexp at 1. rewrite Ek.
  destruct (shr_m_spec (shr_record_of_loc mx lx) ex k) as [M1 X1];
    [rewrite shr_record_of_loc_m; lia|exact Hk|].
  rewrite shr_record_of_loc_m in M1. fold t in M1.
  destruct (shr (shr_record_of_loc mx lx) ex k) as [mrs' e'].
  simpl in M1, X1. subst e'. rewrite M1.
  set (l' := loc_of_shr_record mrs').
  destruct (round_nearest_even_range t l') as [R|R]; rewrite R; clear R.
  - (* the leading digits themselves *)
    assert (Zdigits2 t = prec) as Dt by (apply Zdigits2_unique; lia).
    unfold shr_fexp. rewrite Dt.
    replace (fexp (prec + (ex + k)) - (ex + k)) with 0
      by (unfold SpecFloat.fexp, SpecFloat.emin, k in *; lia).
    simpl shr. cbn [shr_record_of_loc shr_m].
    destruct t as [|p|p] eqn:Et; try lia.
    replace (ex + k <=? emax - prec) with true
      by (symmetry; apply Z.leb_le; unfold k; lia).
    exists p, (ex + k). repeat split; lia.
  - destruct (Z.eq_dec (t + 1) (2 ^ prec)) as [Ec|Hc].
    + (* the successor carries into the next binade *)
      assert (Zdigits2 (t + 1) = prec + 1) as Dt.
      { apply Zdigits2_unique; [lia|].
        replace (prec + 1 - 1) with prec by lia.
        rewrite Z.pow_add_r by lia. simpl (2 ^ 1). lia. }
      unfold shr_fexp. rewrite Dt.
      replace (fexp (prec + 1 + (ex + k)) - (ex + k)) with 1
        by (unfold SpecFloat.fexp, SpecFloat.emin, k in *; lia).
      destruct (shr_m_spec (shr_record_of_loc (t + 1) loc_Exact) (ex + k) 1)
        as [M2 X2]; [rewrite shr_record_of_loc_m; lia|lia|].
      rewrite shr_record_of_loc_m in M2.
      destruct (shr (shr_record_of_loc (t + 1) loc_Exact) (ex + k) 1)
        as [mrs'' e''].
      simpl fst in M2. simpl snd in X2. subst e''. rewrite M2.
      assert (Z.shiftr (t + 1) 1 = 2 ^ (prec - 1)) as Es.
      { rewrite Z.shiftr_div_pow2 by lia. rewrite Ec, E3.
        change (2 ^ 1) with 2. rewrite Z.mul_comm, Z.div_mul by lia.
        reflexivity. }
      rewrite Es.
      destruct (2 ^ (prec - 1)) as [|p|p] eqn:Ep; try lia.
      replace (ex + k + 1 <=? emax - prec) with true
        by (symmetry; apply Z.leb_le; unfold k; lia).
      exists p, (ex + k + 1). split; [reflexivity|].
      split; [|split; [lia|right; repeat split; lia]].
      rewrite <- Ep. replace (prec - 1) with (prec - 1) by lia.
      rewrite Zdigits2_pow by lia. lia.
    + assert (Zdigits2 (t + 1) = prec) as Dt by (apply Zdigits2_unique; lia).
      unfold shr_fexp. rewrite Dt.
      replace (fexp (prec + (ex + k)) - (ex + k)) with 0
        by (unfold SpecFloat.fexp, SpecFloat.emin, k in *; lia).
      simpl shr. cbn [shr_record_of_loc shr_m].
      destruct (t + 1) as [|p|p] eqn:Et; try lia.
      replace (ex + k <=? emax - prec) with true
        by (symmetry; apply Z.leb_le; unfold k; lia).
      exists p, (ex + k). repeat split; lia.
Qed.

(** Rounding a mantissa that is not negative never gives a negative
    number or a NaN. *)
Lemma binary_round_aux_sign mx ex lx :
  0 <= mx ->
  ieee.nonnegative (binary_round_aux prec emax false mx ex lx).
Proof.
  intros Hm. unfold ieee.nonnegative, binary_round_aux.
  destruct (shr_fexp prec emax mx ex lx) as [mrs' e'] eqn:E1.
  assert (0 <= shr_m mrs') as H1.
  { unfold shr_fexp in E1.
    set (n := fexp (Zdigits2 mx + ex) - ex) in E1.
    destruct (Z.le_gt_cases 0 n) as [Hn|Hn].
    - destruct (shr_m_spec (shr_record_of_loc mx lx) ex n) as [M _];
        [rewrite shr_record_of_loc_m; lia|exact Hn|].
      rewrite E1 in M. simpl in M. rewrite M, shr_record_of_loc_m.
      apply Z.shiftr_nonneg. assumption.
    - destruct n as [|p|p]; try lia. simpl in E1. injection E1 as <- _.
      rewrite shr_record_of_loc_m. assumption. }
  set (m1 := round_nearest_even (shr_m mrs') (loc_of_shr_record mrs')).
  assert (0 <= m1) as H2.
  { unfold m1.
    destruct (round_nearest_even_range (shr_m mrs') (loc_of_shr_record mrs'))
      as [-> | ->]; lia. }
  destruct (shr_fexp prec emax m1 e' loc_Exact) as [mrs'' e''] eqn:E2.
  assert (0 <= shr_m mrs'') as H3.
  { unfold shr_fexp in E2.
    set (n := fexp (Zdigits2 m1 + e') - e') in E2.
    destruct (Z.le_gt_cases 0 n) as [Hn|Hn].
    - destruct (shr_m_spec (shr_record_of_loc m1 loc_Exact) e' n) as [M _];
        [rewrite shr_record_of_loc_m; lia|exact Hn|].
      rewrite E2 in M. simpl in M. rewrite M.
      apply Z.shiftr_nonneg. assumption.
    - destruct n as [|p|p]; try lia. simpl in E2. injection E2 as <- _.
      simpl. assumption. }
  destruct (shr_m mrs'') as [|p|p]; [reflexivity| |lia].
  destruct (e'' <=? emax - prec); reflexivity.
Qed.

End Format.
End rounding_facts.

(* ===================================================================== *)
(** * Rounding to nearest: the relative error of a product and a quotient *)
(* ===================================================================== *)

Module value_facts.
Import float_facts exact_facts rounding_facts.
Local Open Scope Q_scope.

Lemma pow2_pos e : 0 < 2 ^ e.
Proof. apply Qpower_0_lt. reflexivity. Qed.

Lemma pow2_add a b : 2 ^ (a + b) == 2 ^ a * 2 ^ b.
Proof. apply Qpower_plus. discriminate. Qed.

Lemma pow2_inject k : (0 <= k)%Z -> inject_Z (2 ^ k) == 2 ^ k.
Proof. intros Hk. rewrite Zpower_Qpower by assumption. reflexivity. Qed.

Lemma pow2_opp a : 2 ^ a * 2 ^ (- a) == 1.
Proof.
  rewrite <- pow2_add. replace (a + - a)%Z with 0%Z by lia. reflexivity.
Qed.

(** The relative distance between a rounded result [v] and the exact
    operand [x]. *)
Lemma near_bounds (a K P M x eps v : Q) :
  0 < K -> 0 < P -> 0 <= eps -> 1 <= eps * a ->
  a * K <= M -> M + 1 <= (a + 1) * K ->
  M * P <= x -> x < (M + 1) * P ->
  v == a * (P * K) \/ v == (a + 1) * (P * K) ->
  v <= x * (1 + eps) /\ x <= v * (1 + eps) /\ 0 < v.
Proof.
  intros HK HP He Hea HaK HMK HMx HxM Hv.
  assert (0 < P * K) as HU by nra.
  assert (0 < a) as Ha by nra.
  assert (a * (P * K) <= x) as HT.
  { assert (a * K * P <= M * P) by nra. nra. }
  assert (x < a * (P * K) + P * K) as HTU.
  { assert ((M + 1) * P <= (a + 1) * K * P) by nra. nra. }
  assert (P * K <= eps * (a * (P * K))) as HUe.
  { assert (1 * (P * K) <= eps * a * (P * K)) by nra. nra. }
  assert (eps * (a * (P * K)) <= eps * x) as Hex by nra.
  assert (0 < a * (P * K)) as HTpos by nra.
  destruct Hv as [Hv|Hv]; rewrite Hv.
  - split; [nra|]. split; [|assumption].
    assert (0 <= a * (P * K) * eps) by nra. nra.
  - split; [nra|]. split; [|nra].
    assert (eps * (a * (P * K)) <= eps * ((a + 1) * (P * K))) by nra. nra.
Qed.

Section Format.
Variables prec emax : Z.
Hypothesis Hprec : (0 < prec)%Z.
Hypothesis Hemax : (prec < emax)%Z.

Local Abbreviation emin := (SpecFloat.emin prec emax).
Local Abbreviation eps := (2 ^ (1 - prec)).

Lemma eps_nonneg : 0 <= eps.
Proof. apply Qlt_le_weak, pow2_pos. Qed.

(** A mantissa of at least [prec] digits that brackets [x], in the
    normal range, is rounded to a number within the relative distance
    [eps] of [x]. *)
Lemma binary_round_aux_value mx ex lx (x : Q) :
  (0 < mx)%Z -> (prec <= Zdigits2 mx)%Z ->
  (emin <= ex + Zdigits2 mx - prec)%Z -> (ex + Zdigits2 mx < emax)%Z ->
  inject_Z mx * 2 ^ ex <= x -> x < (inject_Z mx + 1) * 2 ^ ex ->
  exists m e,
    binary_round_aux prec emax false mx ex lx = S754_finite false m e /\
    Zdigits2 (Z.pos m) = prec /\
    (ex + Zdigits2 mx - prec <= e <= ex + Zdigits2 mx - prec + 1)%Z /\
    inject_Z (Z.pos m) * 2 ^ e <= x * (1 + eps) /\
    x <= inject_Z (Z.pos m) * 2 ^ e * (1 + eps) /\
    0 < inject_Z (Z.pos m) * 2 ^ e.
Proof.
  intros Hm Hd Hlo Hhi Hx1 Hx2.
  destruct (binary_round_aux_near prec emax Hprec mx ex lx Hm Hd Hlo Hhi)
    as (m & e & Hr & Hdm & Ht & Hc).
  set (k := (Zdigits2 mx - prec)%Z) in *.
  set (t := Z.shiftr mx k) in *.
  assert (0 <= k)%Z as Hk by (unfold k; lia).
  exists m, e. split; [exact Hr|]. split; [exact Hdm|].
  split; [destruct Hc as [[-> _]|[-> _]]; unfold k; lia|].
  pose proof (shiftr_bounds mx k ltac:(lia) Hk) as [Sl Sh]. fold t in Sl, Sh.
  apply (near_bounds (inject_Z t) (2 ^ k) (2 ^ ex) (inject_Z mx) x eps).
  - apply pow2_pos.
  - apply pow2_pos.
  - apply eps_nonneg.
  - assert (inject_Z (2 ^ (prec - 1)) <= inject_Z t) as H
      by (rewrite <- Zle_Qle; lia).
    rewrite pow2_inject in H by lia.
    assert (eps * 2 ^ (prec - 1) == 1) as E.
    { rewrite <- pow2_add. replace (1 - prec + (prec - 1))%Z with 0%Z by lia.
      reflexivity. }
    pose proof eps_nonneg. nra.
  - rewrite <- pow2_inject by assumption. rewrite <- inject_Z_mult.
    rewrite <- Zle_Qle. exact Sl.
  - rewrite <- pow2_inject by assumption.
    change 1 with (inject_Z 1). rewrite <- !inject_Z_plus, <- inject_Z_mult.
    rewrite <- Zle_Qle. lia.
  - exact Hx1.
  - exact Hx2.
  - destruct Hc as [[-> [E|E]]|(-> & E1 & E2)].
    + left. rewrite E, pow2_add. reflexivity.
    + right. rewrite E, pow2_add, inject_Z_plus. reflexivity.
    + right.
      assert (inject_Z t + 1 == inject_Z (2 ^ prec)) as ->.
      { rewrite <- E2, inject_Z_plus. reflexivity. }
      rewrite E1. replace prec with (1 + (prec - 1))%Z at 2 by lia.
      rewrite Z.pow_add_r by lia. rewrite inject_Z_mult.
      rewrite !pow2_add. change (inject_Z (2 ^ 1)) with 2.
      change (2 ^ 1) with 2. ring.
Qed.


Local Abbreviation num m e := (inject_Z (Z.pos m) * 2 ^ e).

Lemma digits_exact m : Zdigits2 m = prec -> (0 < m)%Z ->
  (2 ^ (prec - 1) <= m < 2 ^ prec)%Z.
Proof. intros E Hm. pose proof (Zdigits2_bounds m Hm) as H. rewrite E in H. exact H. Qed.

(** The product of two positive normal numbers is within the relative
    distance [eps] of the exact product. *)
Lemma SFmul_value mx ex my ey :
  Zdigits2 (Z.pos mx) = prec -> Zdigits2 (Z.pos my) = prec ->
  (emin <= ex + ey + prec - 1)%Z -> (ex + ey + 2 * prec < emax)%Z ->
  exists m e,
    SFmul prec emax (S754_finite false mx ex) (S754_finite false my ey)
    = S754_finite false m e /\
    Zdigits2 (Z.pos m) = prec /\
    (ex + ey + prec - 1 <= e <= ex + ey + prec + 1)%Z /\
    num m e <= num mx ex * num my ey * (1 + eps) /\
    num mx ex * num my ey <= num m e * (1 + eps) /\
    0 < num m e.
Proof.
  intros Dx Dy Hlo Hhi.
  pose proof (digits_exact _ Dx ltac:(lia)) as [Xl Xh].
  pose proof (digits_exact _ Dy ltac:(lia)) as [Yl Yh].
  pose proof (Zdigits2_mul (Z.pos mx) (Z.pos my) ltac:(lia) ltac:(lia)) as Dl.
  rewrite Dx, Dy in Dl.
  assert (Zdigits2 (Z.pos mx * Z.pos my) <= 2 * prec)%Z as Dh.
  { apply Zdigits2_lt_pow; [|lia].
    replace (2 * prec)%Z with (prec + prec)%Z by lia.
    rewrite Z.pow_add_r by lia. nia. }
  assert (num mx ex * num my ey
          == inject_Z (Z.pos mx * Z.pos my) * 2 ^ (ex + ey)) as Ev.
  { rewrite inject_Z_mult, pow2_add. ring. }
  pose proof (pow2_pos (ex + ey)) as Pp.
  destruct (binary_round_aux_value (Z.pos mx * Z.pos my) (ex + ey) loc_Exact
              (num mx ex * num my ey))
    as (m & e & Hr & Hd & He & B1 & B2 & B3); try lia.
  - rewrite Ev. apply Qle_refl.
  - rewrite Ev. nra.
  - exists m, e. split; [exact Hr|]. split; [exact Hd|].
    split; [lia|]. split; [exact B1|]. split; [exact B2|exact B3].
Qed.

(** The quotient of two positive normal numbers is within the relative
    distance [eps] of the exact quotient. *)
Lemma SFdiv_value mx ex my ey :
  Zdigits2 (Z.pos mx) = prec -> Zdigits2 (Z.pos my) = prec ->
  (emin <= ex - ey - prec)%Z -> (ex - ey + 1 < emax)%Z ->
  exists m e,
    SFdiv prec emax (S754_finite false mx ex) (S754_finite false my ey)
    = S754_finite false m e /\
    Zdigits2 (Z.pos m) = prec /\
    (ex - ey - prec <= e <= ex - ey - prec + 2)%Z /\
    num m e <= num mx ex / num my ey * (1 + eps) /\
    num mx ex / num my ey <= num m e * (1 + eps) /\
    0 < num m e.
Proof.
  intros Dx Dy Hlo Hhi.
  pose proof (digits_exact _ Dx ltac:(lia)) as [Xl Xh].
  pose proof (digits_exact _ Dy ltac:(lia)) as [Yl Yh].
  assert (0 < 2 ^ (prec - 1))%Z as Pp by (apply Z.pow_pos_nonneg; lia).
  assert (2 ^ prec = 2 * 2 ^ (prec - 1))%Z as E2.
  { replace prec with (1 + (prec - 1))%Z at 1 by lia.
    rewrite Z.pow_add_r by lia. reflexivity. }
  assert (2 ^ (prec + 1) = 2 * 2 ^ prec)%Z as E3.
  { rewrite Z.add_comm, Z.pow_add_r by lia. reflexivity. }
  unfold SFdiv, SFdiv_core_binary. rewrite Dx, Dy. cbn [xorb].
  replace (Z.min (SpecFloat.fexp prec emax (prec + ex - (prec + ey))) (ex - ey))
    with (ex - ey - prec)%Z
    by (unfold SpecFloat.fexp, SpecFloat.emin in *; lia).
  replace (ex - ey - (ex - ey - prec))%Z with prec by lia.
  assert (forall s m1 : Z, (0 < s)%Z ->
            match s with
            | Z.pos _ => Z.shiftl m1 s
            | 0%Z => m1
            | Z.neg _ => 0%Z
            end = (m1 * 2 ^ s)%Z) as Hsh.
  { intros s m1 Hs. destruct s; try lia. apply Z.shiftl_mul_pow2. lia. }
  rewrite Hsh by lia. clear Hsh.
  pose proof (Z_div_mod (Z.pos mx * 2 ^ prec) (Z.pos my) ltac:(lia)) as Hdm.
  destruct (Z.div_eucl (Z.pos mx * 2 ^ prec) (Z.pos my)) as [q r].
  destruct Hdm as [Hq Hr].
  assert (2 ^ (prec - 1) <= q < 2 ^ (prec + 1))%Z as [Ql Qh] by nia.
  assert (prec <= Zdigits2 q)%Z as Dl.
  { pose proof (Zdigits2_le (2 ^ (prec - 1)) q ltac:(lia)) as H.
    rewrite Zdigits2_pow in H by lia. lia. }
  assert (Zdigits2 q <= prec + 1)%Z as Dh
    by (apply Zdigits2_lt_pow; lia).
  assert (num mx ex / num my ey * inject_Z (Z.pos my)
          == inject_Z (Z.pos mx * 2 ^ prec) * 2 ^ (ex - ey - prec)) as Ev.
  { rewrite inject_Z_mult, pow2_inject by lia.
    rewrite !Qpower_minus by discriminate.
    pose proof (pow2_pos ey) as Py. pose proof (pow2_pos prec) as Pc.
    assert (0 < inject_Z (Z.pos my)) as Pm
      by (change 0 with (inject_Z 0); rewrite <- Zlt_Qlt; lia).
    field. repeat split; intros E0; rewrite E0 in *;
      match goal with H : 0 < 0 |- _ => exact (Qlt_irrefl 0 H) end. }
  pose proof (pow2_pos (ex - ey - prec)) as Pe.
  assert (0 < inject_Z (Z.pos my)) as Pm
    by (change 0 with (inject_Z 0); rewrite <- Zlt_Qlt; lia).
  assert (inject_Z (Z.pos mx * 2 ^ prec)
          == inject_Z q * inject_Z (Z.pos my) + inject_Z r) as Eq.
  { rewrite Hq, inject_Z_plus, inject_Z_mult. ring. }
  assert (0 <= inject_Z r) as R0
    by (change 0 with (inject_Z 0); rewrite <- Zle_Qle; lia).
  assert (inject_Z r + 1 <= inject_Z (Z.pos my)) as R1.
  { change 1 with (inject_Z 1). rewrite <- inject_Z_plus, <- Zle_Qle. lia. }
  destruct (binary_round_aux_value q (ex - ey - prec) (new_location (Z.pos my) r)
              (num mx ex / num my ey))
    as (m & e & Hr' & Hd & He & B1 & B2 & B3); try lia.
  - (* q * 2^e' <= x *)
    rewrite Eq in Ev.
    apply (Qmult_le_r _ _ (inject_Z (Z.pos my))); [exact Pm|].
    rewrite Ev. nra.
  - rewrite Eq in Ev.
    apply (Qmult_lt_r _ _ (inject_Z (Z.pos my))); [exact Pm|].
    rewrite Ev. nra.
  - exists m, e. split; [exact Hr'|]. split; [exact Hd|].
    split; [lia|]. split; [exact B1|]. split; [exact B2|exact B3].
Qed.

End Format.
End value_facts.

(* ===================================================================== *)
(** * Statistics: the sign of the variance on [double] *)
(* ===================================================================== *)

Module variance_facts.
Import float_facts exact_facts rounding_facts value_facts statistics_facts.
Local Open Scope Q_scope.

Local Abbreviation num m e := (inject_Z (Z.pos m) * 2 ^ e).
Local Abbreviation eps64 := (2 ^ (1 - 53)).

(** The difference of two positive numbers, the greater first, is zero
    or above. *)
Lemma SFsub_nonnegative prec emax mx ex my ey :
  num my ey <= num mx ex ->
  ieee.nonnegative
    (SFsub prec emax (S754_finite false mx ex) (S754_finite false my ey)).
Proof.
  intros H. unfold SFsub. cbn [cond_Zopp].
  set (ez := Z.min ex ey).
  rewrite !shl_align_fst by (unfold ez; lia).
  assert (0 <= Z.pos mx * 2 ^ (ex - ez) - Z.pos my * 2 ^ (ey - ez))%Z as Hd.
  { assert (inject_Z (Z.pos my * 2 ^ (ey - ez))
            <= inject_Z (Z.pos mx * 2 ^ (ex - ez))) as Hq.
    { rewrite !inject_Z_mult, !pow2_inject by (unfold ez; lia).
      replace (ey - ez)%Z with (ey + - ez)%Z by lia.
      replace (ex - ez)%Z with (ex + - ez)%Z by lia.
      rewrite !pow2_add. pose proof (pow2_pos (- ez)). nra. }
    rewrite <- Zle_Qle in Hq. lia. }
  destruct (Z.pos mx * 2 ^ (ex - ez) - Z.pos my * 2 ^ (ey - ez))%Z
    as [|d|d]; [reflexivity| |lia].
  unfold binary_normalize, binary_round.
  destruct (shl_align d ez _) as [mz ez'].
  apply binary_round_aux_sign. lia.
Qed.

(** A number minus itself is the positive zero. *)
Lemma SFsub_diag prec emax m e :
  SFsub prec emax (S754_finite false m e) (S754_finite false m e)
  = S754_zero false.
Proof.
  unfold SFsub. cbn [cond_Zopp]. rewrite Z.sub_diag. reflexivity.
Qed.

(** The [double] of a positive integer below [2^53]. *)
Lemma of_int64_value a :
  (0 < a < 2 ^ 53)%Z ->
  exists m e,
    f64.of_int a = S754_finite false m e /\
    Zdigits2 (Z.pos m) = 53%Z /\ (- 52 <= e <= 0)%Z /\
    num m e == inject_Z a.
Proof.
  intros Ha. pose proof (of_int64 a ltac:(lia)) as H.
  destruct (of_int64_shape a Ha) as (m & e & E). rewrite E in H.
  exists m, e. split; [exact E|].
  pose proof (is_int_exp 53 1024 _ _ _ _ H) as He.
  destruct H as (_ & _ & He0 & Hm & _ & _).
  rewrite Z.abs_eq in He, Hm by lia.
  pose proof (Zdigits2_pos a ltac:(lia)) as D1.
  pose proof (Zdigits2_lt_pow a 53 ltac:(lia) ltac:(lia)) as D2.
  assert (e = Zdigits2 a - 53)%Z as Ee.
  { rewrite He. unfold fexp, emin. lia. }
  split; [|split; [lia|]].
  - rewrite Hm, Zdigits2_mul_pow by lia. lia.
  - rewrite Hm, inject_Z_mult, pow2_inject by lia.
    rewrite <- Qmult_assoc, (Qmult_comm (2 ^ (- e))).
    rewrite pow2_opp. ring.
Qed.

Lemma eps64_nonneg : 0 <= eps64.
Proof. apply Qlt_le_weak, pow2_pos. Qed.

Lemma eps64_fourth :
  (1 + eps64) * (1 + eps64) * ((1 + eps64) * (1 + eps64)) <= 1 + 5 * eps64.
Proof. unfold Qle. vm_compute. discriminate. Qed.

(** The rounded square of the rounded mean stays below the rounded mean
    of the squares when the exact ones are far enough apart. *)
Lemma moments_order (a b c s q n e1 k : Q) :
  0 < n -> 0 <= s -> 1 <= e1 -> e1 * e1 * (e1 * e1) <= k ->
  s * s * k <= n * q ->
  0 < a -> a <= s / n * e1 -> b <= a * a * e1 -> q / n <= c * e1 ->
  b <= c.
Proof.
  intros Hn Hs He Hk Hsq Ha Ha' Hb Hc.
  set (mu := s / n) in *. set (nu := q / n) in *.
  assert (mu * n == s) as Emu.
  { unfold mu. field. intros E0. rewrite E0 in Hn. exact (Qlt_irrefl 0 Hn). }
  assert (nu * n == q) as Enu.
  { unfold nu. field. intros E0. rewrite E0 in Hn. exact (Qlt_irrefl 0 Hn). }
  assert (0 <= mu) as Hmu.
  { destruct (Qlt_le_dec mu 0) as [Hlt|]; [|assumption]. exfalso. nra. }
  destruct (Qlt_le_dec c b) as [Hcb|]; [exfalso|assumption].
  assert (a * a <= mu * e1 * (mu * e1)) as H1 by nra.
  assert (0 <= mu * e1) as H0 by nra.
  assert (0 <= mu * e1 * (mu * e1)) as H00 by nra.
  assert (b <= mu * e1 * (mu * e1) * e1) as H2 by nra.
  assert (nu < mu * e1 * (mu * e1) * e1 * e1) as H3 by nra.
  assert (mu * e1 * (mu * e1) * e1 * e1 == mu * mu * (e1 * e1 * (e1 * e1))) as E4
    by ring.
  rewrite E4 in H3.
  assert (0 <= mu * mu) as Hmm by nra.
  assert (nu < mu * mu * k) as H5 by nra.
  assert (nu * n * n < mu * mu * k * n * n) as H6.
  { assert (0 < n * n) by nra. nra. }
  assert (mu * mu * k * n * n == s * s * k) as E7.
  { rewrite <- Emu. ring. }
  rewrite E7, Enu in H6. nra.
Qed.

(** The variance is zero or above when the raw moments are far enough
    apart. *)
Lemma variance_nonnegative_apart (S Q n : Z) :
  (0 < S < 2 ^ 53)%Z -> (0 < Q < 2 ^ 53)%Z -> (0 < n < 2 ^ 53)%Z ->
  (5 * (S * S) <= 2 ^ 52 * (n * Q - S * S))%Z ->
  let mean := f64.div (f64.of_int S) (f64.of_int n) in
  ieee.nonnegative
    (f64.sub (f64.div (f64.of_int Q) (f64.of_int n)) (f64.mul mean mean)).
Proof.
  intros HS HQ Hn Hgap mean.
  destruct (of_int64_value S HS) as (mS & eS & ES & DS & RS & VS).
  destruct (of_int64_value Q HQ) as (mQ & eQ & EQ & DQ & RQ & VQ).
  destruct (of_int64_value n Hn) as (mn & en & En & Dn & Rn & Vn).
  assert (SpecFloat.emin 53 1024 = (- 1074)%Z) as Emin by reflexivity.
  destruct (SFdiv_value 53 1024 prec64 mS eS mn en DS Dn)
    as (ma & ea & Ea & Da & Ra & A1 & A2 & A3); [rewrite Emin; lia|lia|].
  destruct (SFdiv_value 53 1024 prec64 mQ eQ mn en DQ Dn)
    as (mc & ec & Ec & Dc & Rc & C1 & C2 & C3); [rewrite Emin; lia|lia|].
  destruct (SFmul_value 53 1024 prec64 ma ea ma ea Da Da)
    as (mb & eb & Eb & Db & Rb & B1 & B2 & B3); [rewrite Emin; lia|lia|].
  unfold mean, f64.div, f64.mul, f64.sub, f64.prec, f64.emax.
  rewrite ES, EQ, En, Ea, Ec, Eb.
  apply SFsub_nonnegative.
  rewrite VS, Vn in A1. rewrite VQ, Vn in C2.
  apply (moments_order (num ma ea) (num mb eb) (num mc ec)
           (inject_Z S) (inject_Z Q) (inject_Z n) (1 + eps64) (1 + 5 * eps64)).
  - change 0 with (inject_Z 0). rewrite <- Zlt_Qlt. lia.
  - change 0 with (inject_Z 0). rewrite <- Zle_Qle. lia.
  - pose proof eps64_nonneg. lra.
  - exact eps64_fourth.
  - assert (inject_Z (5 * (S * S)) <= inject_Z (2 ^ 52 * (n * Q - S * S))) as H
      by (rewrite <- Zle_Qle; exact Hgap).
    unfold Z.sub in H.
    rewrite !inject_Z_mult, inject_Z_plus, inject_Z_opp, !inject_Z_mult in H.
    assert (eps64 * inject_Z (2 ^ 52) == 1) as E by reflexivity.
    set (e := eps64) in *. set (p := inject_Z (2 ^ 52)) in *.
    change (inject_Z 5) with 5 in H.
    assert (0 <= e) as He by apply eps64_nonneg.
    assert (e * (5 * (inject_Z S * inject_Z S))
            <= e * (p * (inject_Z n * inject_Z Q + - (inject_Z S * inject_Z S))))
      as H' by nra.
    assert (e * (p * (inject_Z n * inject_Z Q + - (inject_Z S * inject_Z S)))
            == (e * p) * (inject_Z n * inject_Z Q + - (inject_Z S * inject_Z S)))
      as E' by ring.
    rewrite E', E in H'. nra.
  - exact A3.
  - exact A1.
  - exact B1.
  - exact C2.
Qed.

End variance_facts.

(* ===================================================================== *)
(** * Statistics: the raw moments of a list of samples *)
(* ===================================================================== *)

Module moments_facts.
Import histogram_facts statistics_facts.

Local Abbreviation bytes := (Forall (fun v : Z => 0 <= v <= 255)).
Local Abbreviation len l := (Z.of_nat (length l)).

(** The sum of the squared distances of the samples to [x]. *)
Lemma spread_expand (x : Z) (l : list Z) :
  integer.sum (map (fun y => (y - x) * (y - x)) l)
  = integer.sum_sq l - 2 * x * integer.sum l + len l * (x * x).
Proof.
  induction l as [|y l IH]; [unfold integer.sum_sq, integer.sum; simpl; lia|].
  unfold integer.sum_sq, integer.sum in *. cbn [map fold_right length].
  rewrite IH, Nat2Z.inj_succ. lia.
Qed.

Lemma spread_nonneg (x : Z) (l : list Z) :
  0 <= integer.sum (map (fun y => (y - x) * (y - x)) l).
Proof.
  induction l as [|y l IH]; unfold integer.sum in *; cbn [map fold_right]; [lia|].
  pose proof (Z.square_nonneg (y - x)). lia.
Qed.

(** Each sample that differs from [x] contributes at least one. *)
Lemma spread_differs (x : Z) (l : list Z) :
  Forall (fun v => v = x) l \/
  1 <= integer.sum (map (fun y => (y - x) * (y - x)) l).
Proof.
  induction l as [|y l IH]; [left; constructor|].
  unfold integer.sum in *. cbn [map fold_right].
  pose proof (spread_nonneg x l) as Hn. unfold integer.sum in Hn.
  destruct (Z.eq_dec y x) as [->|Hne].
  - destruct IH as [IH|IH]; [left; constructor; [reflexivity|assumption]|right; nia].
  - right. nia.
Qed.

Lemma spread_constant (x c : Z) (l : list Z) :
  Forall (fun v => v = c) l -> c <> x ->
  len l <= integer.sum (map (fun y => (y - x) * (y - x)) l).
Proof.
  intros Hc Hne. induction Hc as [|y l -> Hl IH]; [simpl; lia|].
  unfold integer.sum in *. cbn [map fold_right length]. rewrite Nat2Z.inj_succ. nia.
Qed.

Lemma moments_cons (x : Z) (l : list Z) :
  len (x :: l) * integer.sum_sq (x :: l) - integer.sum (x :: l) * integer.sum (x :: l)
  = len l * integer.sum_sq l - integer.sum l * integer.sum l
    + integer.sum (map (fun y => (y - x) * (y - x)) l).
Proof.
  rewrite spread_expand.
  unfold integer.sum_sq, integer.sum. cbn [map fold_right length].
  rewrite Nat2Z.inj_succ. lia.
Qed.

(** The Cauchy-Schwarz inequality for the raw moments. *)
Lemma moments_nonneg (l : list Z) :
  integer.sum l * integer.sum l <= len l * integer.sum_sq l.
Proof.
  induction l as [|x l IH]; [unfold integer.sum_sq, integer.sum; simpl; lia|].
  pose proof (moments_cons x l). pose proof (spread_nonneg x l). lia.
Qed.

(** Samples that are not all equal keep the raw moments apart. *)
Lemma moments_apart (l : list Z) :
  (exists c, Forall (fun v => v = c) l) \/
  (2 <= len l /\
   len l - 1 <= len l * integer.sum_sq l - integer.sum l * integer.sum l).
Proof.
  induction l as [|x l IH]; [left; exists 0; constructor|].
  pose proof (moments_cons x l) as Hc.
  pose proof (moments_nonneg l) as Hn.
  pose proof (spread_nonneg x l) as Hs.
  assert (len (x :: l) = len l + 1) as El
    by (cbn [length]; rewrite Nat2Z.inj_succ; lia).
  destruct (spread_differs x l) as [Hsame|Hdiff].
  { left. exists x. constructor; [reflexivity|assumption]. }
  destruct IH as [[c Hconst]|[Hlen Hgap]].
  - destruct (Z.eq_dec c x) as [->|Hne].
    + left. exists x. constructor; [reflexivity|assumption].
    + right. pose proof (spread_constant x c l Hconst Hne).
      split; [|lia]. destruct l; [simpl in Hdiff; lia|].
      cbn [length]. rewrite !Nat2Z.inj_succ. lia.
  - right. split; lia.
Qed.

Lemma moments_constant (c : Z) (l : list Z) :
  Forall (fun v => v = c) l ->
  integer.sum l = len l * c /\ integer.sum_sq l = len l * (c * c).
Proof.
  intros H. induction H as [|y l -> Hl [IH1 IH2]]; [split; reflexivity|].
  unfold integer.sum_sq, integer.sum in *. cbn [map fold_right length].
  rewrite Nat2Z.inj_succ, IH1, IH2. lia.
Qed.

Lemma sum_sq_le_sum (l : list Z) :
  bytes l -> integer.sum_sq l <= 255 * integer.sum l.
Proof.
  induction 1 as [|v l Hv Hl IH]; [unfold integer.sum_sq, integer.sum; simpl; lia|].
  unfold integer.sum_sq, integer.sum in *. cbn [map fold_right].
  assert (v * v <= 255 * v) by nia. lia.
Qed.

(** The separation the rounding errors of the variance need. *)
Lemma moments_gap (l : list Z) :
  bytes l -> len l < 2 ^ 31 ->
  2 <= len l ->
  len l - 1 <= len l * integer.sum_sq l - integer.sum l * integer.sum l ->
  0 < integer.sum l /\ 0 < integer.sum_sq l /\
  5 * (integer.sum l * integer.sum l)
  <= 2 ^ 52 * (len l * integer.sum_sq l - integer.sum l * integer.sum l).
Proof.
  intros Hb Hlen H2 Hgap.
  pose proof (sum_bytes l Hb) as [S0 S1].
  pose proof (sum_sq_bytes l Hb) as [Q0 Q1].
  pose proof (sum_sq_le_sum l Hb) as HQS.
  set (n := len l) in *. set (S := integer.sum l) in *.
  set (Q := integer.sum_sq l) in *.
  change (2 ^ 31) with 2147483648 in Hlen.
  change (2 ^ 52) with 4503599627370496.
  assert (0 < Q) as HQ by nia.
  assert (0 < S) as HS by lia.
  split; [assumption|]. split; [assumption|].
  assert (S * S <= 65025 * (n * n)) as H1 by nia.
  assert (n * n <= 4294967296 * (n - 1)) as H3 by nia.
  lia.
Qed.

End moments_facts.

(* ===================================================================== *)
(** * Statistics: the variance is never negative *)
(* ===================================================================== *)

Module variance_result.
Import reduce omp_facts histogram_facts exact_facts statistics_facts
       statistics_result statistics_final variance_facts moments_facts.

Local Abbreviation bytes := (Forall (fun v : Z => 0 <= v <= 255)).
Local Abbreviation samples data share :=
  (map (fun i : Z => nth (Z.to_nat i) data 0) share).

Lemma nonnegative_compare (v : f64.t) :
  ieee.nonnegative v ->
  f64.leb (f64.of_int 0) v = true /\ f64.ltb v (f64.of_int 0) = false.
Proof.
  destruct v as [[]|[]| |[] m e]; simpl; intros H;
    try discriminate H; try contradiction; split; reflexivity.
Qed.

(** Equal samples: every operation is exact and the variance is the
    positive zero. *)
Lemma variance_constant (c n : Z) :
  0 <= c <= 255 -> 0 < n < 2 ^ 31 ->
  let mean := f64.div (f64.of_int (n * c)) (f64.of_int n) in
  f64.sub (f64.div (f64.of_int (n * (c * c))) (f64.of_int n)) (f64.mul mean mean)
  = S754_zero false.
Proof.
  intros Hc Hn mean.
  assert (2 ^ 31 = 2147483648) as E31 by reflexivity.
  assert (2 ^ 53 = 9007199254740992) as E53 by reflexivity.
  destruct (of_int64_shape n ltac:(lia)) as (mn & en & En).
  destruct (Z.eq_dec c 0) as [->|Hc0].
  { unfold mean. rewrite !Z.mul_0_r, En. reflexivity. }
  assert (mean = f64.of_int c) as ->.
  { apply (is_int_unique 53 1024 _ _ c Hc0); [|apply of_int64; lia].
    apply (div_exact 53 1024 prec64 emax64 _ _ (n * c) n c);
      [apply of_int64; nia|apply of_int64; lia|lia|lia|lia]. }
  assert (f64.div (f64.of_int (n * (c * c))) (f64.of_int n) = f64.of_int (c * c))
    as ->.
  { apply (is_int_unique 53 1024 _ _ (c * c)); [nia| |apply of_int64; nia].
    apply (div_exact 53 1024 prec64 emax64 _ _ (n * (c * c)) n (c * c));
      [apply of_int64; nia|apply of_int64; lia|lia|lia|nia]. }
  rewrite mul64_exact by nia.
  destruct (of_int64_shape (c * c) ltac:(nia)) as (m & e & ->).
  apply SFsub_diag.
Qed.

(** The variance of the [double] computation is zero or above. *)
Lemma variance_double_nonnegative (im : img.GrayscaleImage) (rt : runtime) :
  img.wf im -> omp.wf rt -> img.data im <> [] ->
  ieee.nonnegative (variance (compute_statistics_parallel im rt)).
Proof.
  intros Him Hrt Hne.
  rewrite (compute_statistics_parallel_value im rt Him Hrt Hne).
  cbn [variance].
  destruct Him as (_ & _ & Hlen & Hsz & Hd). rewrite <- Hlen in Hsz.
  set (data := img.data im) in *.
  assert (0 < Z.of_nat (length data)) as Hn0.
  { destruct data; [contradiction|]. cbn [length]. lia. }
  destruct (moments_apart data) as [[c Hconst]|[H2 Hgap]].
  - destruct (moments_constant c data Hconst) as [-> ->].
    assert (0 <= c <= 255) as Hc.
    { destruct data as [|v data']; [contradiction|].
      inversion Hconst; subst. inversion Hd; subst. assumption. }
    rewrite (variance_constant c (Z.of_nat (length data)) Hc ltac:(lia)).
    reflexivity.
  - destruct (moments_gap data Hd Hsz H2 Hgap) as (HS & HQ & Hg).
    pose proof (sum_bytes data Hd) as [_ S1].
    pose proof (sum_sq_bytes data Hd) as [_ Q1].
    assert (2 ^ 31 = 2147483648) as E31 by reflexivity.
    assert (2 ^ 53 = 9007199254740992) as E53 by reflexivity.
    apply variance_nonnegative_apart; try lia.
Qed.

(** ** The same reduction in exact arithmetic *)

Local Open Scope Q_scope.

Lemma exact_private_fold (data share : list Z) (acc : accum Q) :
  sum (fold_left (stat_step exact data) share acc)
  == sum acc + inject_Z (integer.sum (samples data share)) /\
  sum_sq (fold_left (stat_step exact data) share acc)
  == sum_sq acc + inject_Z (integer.sum_sq (samples data share)).
Proof.
  revert acc. induction share as [|i share IH]; intros acc.
  - unfold integer.sum_sq, integer.sum. simpl. split; ring.
  - rewrite fold_left_cons. destruct (IH (stat_step exact data acc i)) as [-> ->].
    unfold stat_step. cbn [sum sum_sq reduce.add reduce.mul reduce.of_int exact].
    unfold integer.sum_sq, integer.sum. cbn [map fold_right].
    rewrite !inject_Z_plus, inject_Z_mult. split; ring.
Qed.

Lemma exact_combine_fold (data : list Z) (sh : list (list Z)) (order : list nat)
    (acc original : accum Q) :
  Forall (fun t => (t < length sh)%nat) order ->
  let final :=
    fold_left (fun out t =>
                 combine exact out (nth t (map (private exact data) sh) original))
              order acc in
  let visited := concat (map (fun t => samples data (nth t sh [])) order) in
  sum final == sum acc + inject_Z (integer.sum visited) /\
  sum_sq final == sum_sq acc + inject_Z (integer.sum_sq visited).
Proof.
  intros Hord. revert acc. induction Hord as [|t order Ht Hord IH]; intros acc.
  - unfold integer.sum_sq, integer.sum. simpl. split; ring.
  - cbv zeta in *. rewrite fold_left_cons. cbn [map concat].
    destruct (IH (combine exact acc
                    (nth t (map (private exact data) sh) original))) as [-> ->].
    assert (nth t (map (private exact data) sh) original
            = private exact data (nth t sh [])) as ->.
    { apply lookup_lt_is_Some in Ht as [s Hs].
      rewrite (nth_lookup_Some sh t [] s Hs).
      apply nth_lookup_Some. rewrite list_lookup_fmap, Hs. reflexivity. }
    unfold combine. cbn [sum sum_sq reduce.add exact].
    unfold private.
    destruct (exact_private_fold data (nth t sh [])
                (mkAccum (reduce.of_int exact 0) (reduce.of_int exact 0)
                         (min_init exact) (max_init exact))) as [-> ->].
    cbn [sum sum_sq reduce.of_int exact].
    rewrite integer_facts.sum_app, sum_sq_app, !inject_Z_plus.
    split; ring.
Qed.

(** In exact arithmetic the variance is the population variance of the
    samples. *)
Lemma variance_exact_value (im : img.GrayscaleImage) (rt : runtime) :
  omp.wf rt -> img.data im <> [] ->
  let n := inject_Z (Z.of_nat (length (img.data im))) in
  variance (compute_statistics exact im rt)
  == inject_Z (integer.sum_sq (img.data im)) / n
     - inject_Z (integer.sum (img.data im)) / n
       * (inject_Z (integer.sum (img.data im)) / n).
Proof.
  intros Hrt Hne n. unfold compute_statistics.
  destruct (Z.eqb_spec (Z.of_nat (length (img.data im))) 0) as [E|E].
  { exfalso. apply Hne. apply length_zero_iff_nil. lia. }
  cbv zeta. cbn [variance reduce.sub reduce.div reduce.mul reduce.of_int exact].
  set (data := img.data im) in *.
  set (team := team_size 0 rt).
  set (sh := shares (def_schedule rt) 0 team rt (Z.of_nat (length data))).
  pose proof (team_size_pos 0 rt Hrt) as Hteam. fold team in Hteam.
  destruct (combined_samples_perm data team rt Hteam) as [_ Hq]. fold sh in Hq.
  destruct (exact_combine_fold data sh (arrival team rt)
              (mkAccum (inject_Z 0) (inject_Z 0) (inject_Z 255) (inject_Z 0))
              (mkAccum (inject_Z 0) (inject_Z 0) (inject_Z 255) (inject_Z 0)))
    as [Es Eq].
  { apply List.Forall_forall. intros t Ht.
    apply (Permutation_in _ (arrival_perm team rt)) in Ht.
    apply in_seq in Ht. unfold sh. rewrite length_shares. lia. }
  cbv zeta in Es, Eq. cbn [sum sum_sq] in Es, Eq.
  rewrite (sum_perm _ _ Hq) in Es. rewrite (sum_sq_perm _ _ Hq) in Eq.
  rewrite Es, Eq. fold n. change (inject_Z 0) with 0. 
  rewrite !Qplus_0_l. reflexivity.
Qed.

Lemma variance_exact_nonnegative (im : img.GrayscaleImage) (rt : runtime) :
  omp.wf rt -> img.data im <> [] ->
  0 <= variance (compute_statistics exact im rt).
Proof.
  intros Hrt Hne. rewrite (variance_exact_value im rt Hrt Hne). cbv zeta.
  set (data := img.data im) in *.
  pose proof (moments_nonneg data) as H.
  assert (0 < Z.of_nat (length data))%Z as Hn0.
  { destruct data; [contradiction|]. cbn [length]. lia. }
  rewrite Zle_Qle in H. rewrite !inject_Z_mult in H.
  assert (0 < inject_Z (Z.of_nat (length data))) as Hn
    by (change 0 with (inject_Z 0); rewrite <- Zlt_Qlt; exact Hn0).
  set (n := inject_Z (Z.of_nat (length data))) in *.
  set (s := inject_Z (integer.sum data)) in *.
  set (q := inject_Z (integer.sum_sq data)) in *.
  assert (q / n - s / n * (s / n) == (n * q - s * s) / (n * n)) as ->.
  { field. intros E0. rewrite E0 in Hn. exact (Qlt_irrefl 0 Hn). }
  apply Qle_shift_div_l; [nra|]. nra.
Qed.


(** C9: for a buffer that is not empty the variance that
    compute_statistics_parallel returns is zero or above: it is a
    [double] of positive sign, the comparison [0 <= variance] holds and
    [variance < 0] does not, whatever the team size, the schedule and the
    order in which the threads combine; and the same reduction carried
    out in exact rational arithmetic gives a variance that is zero or
    above. *)
Theorem compute_statistics_parallel_variance_nonnegative
    (im : img.GrayscaleImage) (rt : runtime) :
  img.wf im -> omp.wf rt -> img.data im <> [] ->
  ieee.nonnegative (variance (compute_statistics_parallel im rt)) /\
  f64.leb (f64.of_int 0) (variance (compute_statistics_parallel im rt)) = true /\
  f64.ltb (variance (compute_statistics_parallel im rt)) (f64.of_int 0) = false /\
  0 <= variance (compute_statistics exact im rt).
Proof.
  intros Him Hrt Hne.
  pose proof (variance_double_nonnegative im rt Him Hrt Hne) as H.
  destruct (nonnegative_compare _ H) as [H1 H2].
  split; [exact H|]. split; [exact H1|]. split; [exact H2|].
  apply variance_exact_nonnegative; assumption.
Qed.

Lemma ramp_not_empty : img.data examples.ramp <> [].
Proof. discriminate. Qed.

Lemma compute_statistics_parallel_variance_nonnegative_witness :
  img.wf examples.ramp /\ omp.wf examples.runtime4 /\
  img.data examples.ramp <> [] /\
  f64.leb (f64.of_int 0)
    (variance (compute_statistics_parallel examples.ramp examples.runtime4))
  = true.
Proof.
  split; [exact wf_ramp|]. split; [exact divergence_facts.wf_runtime4|].
  split; [exact ramp_not_empty|].
  exact (proj1 (proj2 (compute_statistics_parallel_variance_nonnegative
                         examples.ramp examples.runtime4
                         wf_ramp divergence_facts.wf_runtime4 ramp_not_empty))).
Defined.

End variance_result.

(* ===================================================================== *)
(** * Schedule names *)
(* ===================================================================== *)

Module schedules_facts.
Import omp schedules.

Lemma lowercase_schedule_name s :
  kernels.lowercase (schedule_to_string s) = schedule_to_string s.
Proof. destruct s; reflexivity. Qed.

(** The two conversions are inverse to each other up to the case of the
    letters: a schedule printed and parsed again is the same schedule, a
    string is accepted exactly when its lowercased form is one of the
    three printed names, and every other string raises
    [std::invalid_argument] with the string as given. *)
Theorem string_to_schedule_inverse :
  (forall s, string_to_schedule (schedule_to_string s) = Ok s) /\
  (forall str s,
     string_to_schedule str = Ok s
     <-> kernels.lowercase str = schedule_to_string s) /\
  (forall str,
     (forall s, kernels.lowercase str <> schedule_to_string s) ->
     string_to_schedule str = Throw ("Unknown schedule: " ++ str)) /\
  (forall str s,
     string_to_schedule (kernels.lowercase str) = Ok s
     <-> string_to_schedule str = Ok s).
Proof.
  assert (forall str s,
            string_to_schedule str = Ok s
            <-> kernels.lowercase str = schedule_to_string s) as Hiff.
  { intros str s. unfold string_to_schedule.
    destruct (String.eqb_spec (kernels.lowercase str) "static") as [E1|N1].
    { rewrite E1. destruct s; split; intros H; try reflexivity; discriminate H. }
    destruct (String.eqb_spec (kernels.lowercase str) "dynamic") as [E2|N2].
    { rewrite E2. destruct s; split; intros H; try reflexivity; discriminate H. }
    destruct (String.eqb_spec (kernels.lowercase str) "guided") as [E3|N3].
    { rewrite E3. destruct s; split; intros H; try reflexivity; discriminate H. }
    split; [intros H; discriminate H|].
    intros H. destruct s; simpl in H; contradiction. }
  split; [|split; [exact Hiff|split]].
  - intros s. apply Hiff. apply lowercase_schedule_name.
  - intros str Hno. unfold string_to_schedule.
    destruct (String.eqb_spec (kernels.lowercase str) "static") as [E1|N1];
      [exfalso; exact (Hno STATIC E1)|].
    destruct (String.eqb_spec (kernels.lowercase str) "dynamic") as [E2|N2];
      [exfalso; exact (Hno DYNAMIC E2)|].
    destruct (String.eqb_spec (kernels.lowercase str) "guided") as [E3|N3];
      [exfalso; exact (Hno GUIDED E3)|].
    reflexivity.
  - intros str s. rewrite !Hiff, kernels_facts.lowercase_idempotent. reflexivity.
Qed.

End schedules_facts.

(* ===================================================================== *)
(** * The kernel registry: the catalog and the listed names *)
(* ===================================================================== *)

Module registry_facts.
Import kernels registry kernels_facts.

Lemma assoc_in key l k : assoc key l = Some k -> In k (map snd l).
Proof.
  induction l as [|[n k'] l IH]; simpl; [discriminate|].
  destruct (String.eqb key n); [intros [= ->]; left; reflexivity|].
  intros H. right. apply IH. exact H.
Qed.

Lemma lookup_in_all name k :
  get_kernel_by_name name = Ok k -> In k all_kernels.
Proof.
  rewrite get_kernel_by_name_assoc.
  destruct (assoc (lowercase name) catalog) as [k'|] eqn:E; [|discriminate].
  intros [= <-]. apply assoc_in in E.
  unfold catalog, all_kernels in *. simpl in E. simpl. tauto.
Qed.

Lemma all_kernels_integer k :
  In k all_kernels -> exists ws d, integer.kernel k ws d /\ 0 < d.
Proof.
  intros Hk.
  assert (In k (map fst integer.catalog)) as H by exact Hk.
  apply in_map_iff in H as ([k' [ws d]] & <- & Hin).
  pose proof integer_facts.catalog_integer as Hall. rewrite List.Forall_forall in Hall.
  exists ws, d. exact (Hall _ Hin).
Qed.

Lemma integer_kernel_reads k ws d : integer.kernel k ws d -> reads_in_range k.
Proof.
  intros (Hd & _ & Hr & Hs & Hl & _) kx ky Hx Hy.
  rewrite Hd, length_map, Hl. nia.
Qed.

Lemma all_kernels_sizes :
  Forall (fun k => size k = 3 \/ size k = 5) all_kernels.
Proof. unfold all_kernels. repeat constructor; (left; reflexivity) || (right; reflexivity). Qed.

(** What a lookup returns is one of the seventeen kernels of the header:
    a 3 x 3 or 5 x 5 matrix with exactly [size * size] weights, so that
    every [kernel.at(kx + radius, ky + radius)] of the convolution loops
    reads inside the weights, all of them integers, and with a positive
    integer divisor, so that no filter divides by zero. *)
Theorem get_kernel_by_name_well_formed (name : string) (k : Kernel) :
  get_kernel_by_name name = Ok k ->
  In k all_kernels /\
  (size k = 3 \/ size k = 5) /\
  size k = 2 * radius k + 1 /\
  Z.of_nat (length (data k)) = size k * size k /\
  reads_in_range k /\
  exists ws d,
    data k = map f32.of_int ws /\ divisor k = f32.of_int d /\ 0 < d /\
    integer.kernel k ws d.
Proof.
  intros H. pose proof (lookup_in_all name k H) as Hin.
  destruct (all_kernels_integer k Hin) as (ws & d & Hk & Hd).
  pose proof all_kernels_sizes as Hs. rewrite List.Forall_forall in Hs.
  split; [exact Hin|]. split; [exact (Hs k Hin)|].
  pose proof Hk as (Hdata & Hdiv & Hr & Hsz & Hl & _).
  split; [exact Hsz|]. split; [rewrite Hdata, length_map; exact Hl|].
  split; [exact (integer_kernel_reads k ws d Hk)|].
  exists ws, d. auto.
Qed.

Lemma get_kernel_by_name_well_formed_witness :
  get_kernel_by_name "Blur" = Ok box_blur_3x3 /\
  In box_blur_3x3 all_kernels /\
  (size box_blur_3x3 = 3 \/ size box_blur_3x3 = 5) /\
  size box_blur_3x3 = 2 * radius box_blur_3x3 + 1 /\
  Z.of_nat (length (data box_blur_3x3)) = size box_blur_3x3 * size box_blur_3x3 /\
  reads_in_range box_blur_3x3 /\
  exists ws d,
    data box_blur_3x3 = map f32.of_int ws /\
    divisor box_blur_3x3 = f32.of_int d /\ 0 < d /\
    integer.kernel box_blur_3x3 ws d.
Proof.
  split; [reflexivity|].
  exact (get_kernel_by_name_well_formed "Blur" box_blur_3x3 eq_refl).
Defined.

(** Every name [list_kernels] returns is one [get_kernel_by_name]
    accepts; the seventeen names find the seventeen kernels of the header,
    which are pairwise different; and whatever name a lookup succeeds
    with, in whatever case, the kernel it returns is the one of a listed
    name. *)
Theorem list_kernels_complete :
  (forall n, In n list_kernels -> known n) /\
  map get_kernel_by_name list_kernels = map Ok all_kernels /\
  NoDup (map kernels.name all_kernels) /\
  (forall name k,
     get_kernel_by_name name = Ok k ->
     exists n, In n list_kernels /\ get_kernel_by_name n = Ok k).
Proof.
  assert (map get_kernel_by_name list_kernels = map Ok all_kernels) as Hmap
    by reflexivity.
  split; [|split; [exact Hmap|split]].
  - intros n Hn. unfold known.
    pose proof (in_map get_kernel_by_name _ _ Hn) as H. rewrite Hmap in H.
    apply in_map_iff in H as (k & Hk & _).
    rewrite get_kernel_by_name_assoc in Hk.
    destruct (assoc (lowercase n) catalog); [discriminate|discriminate Hk].
  - apply NoDup_ListNoDup. unfold all_kernels. simpl.
    repeat (constructor; [simpl; intuition discriminate|]). constructor.
  - intros name k H. pose proof (lookup_in_all name k H) as Hin.
    pose proof (in_map Ok _ _ Hin) as H'. rewrite <- Hmap in H'.
    apply in_map_iff in H' as (n & Hn & Hl). exists n. auto.
Qed.

End registry_facts.

(* ===================================================================== *)
(** * Pixel access: bounds, round trips, clamping *)
(* ===================================================================== *)

Module image_facts.
Import grid store_facts.

Lemma index_range w h x y :
  0 <= x < w -> 0 <= y < h -> 0 <= y * w + x < w * h.
Proof. intros Hx Hy. nia. Qed.

Lemma get_in_range data i :
  0 <= i < Z.of_nat (length data) ->
  image.get data i = Ok (nth (Z.to_nat i) data 0).
Proof.
  intros Hi. unfold image.get.
  destruct (Z.leb_spec 0 i); [|lia].
  destruct (Z.ltb_spec i (Z.of_nat (length data))); [reflexivity|lia].
Qed.

Lemma get_out_of_range data i :
  ~ 0 <= i < Z.of_nat (length data) -> image.get data i = Undefined.
Proof.
  intros Hi. unfold image.get.
  destruct (Z.leb_spec 0 i); [|reflexivity].
  destruct (Z.ltb_spec i (Z.of_nat (length data))); [lia|reflexivity].
Qed.

Lemma put_in_range data i v :
  0 <= i < Z.of_nat (length data) ->
  image.put data i v = Ok (<[Z.to_nat i := v]> data).
Proof.
  intros Hi. unfold image.put.
  destruct (Z.leb_spec 0 i); [|lia].
  destruct (Z.ltb_spec i (Z.of_nat (length data))); [reflexivity|lia].
Qed.

Lemma checked_in_bounds w h x y :
  0 <= x < w -> 0 <= y < h ->
  (x <? 0) || (w <=? x) || (y <? 0) || (h <=? y) = false.
Proof.
  intros Hx Hy.
  destruct (Z.ltb_spec x 0); [lia|]. destruct (Z.leb_spec w x); [lia|].
  destruct (Z.ltb_spec y 0); [lia|]. destruct (Z.leb_spec h y); [lia|].
  reflexivity.
Qed.

Lemma checked_out_of_bounds w h x y :
  ~ (0 <= x < w /\ 0 <= y < h) ->
  (x <? 0) || (w <=? x) || (y <? 0) || (h <=? y) = true.
Proof.
  intros Hn.
  destruct (Z.ltb_spec x 0); [reflexivity|]. destruct (Z.leb_spec w x); [reflexivity|].
  destruct (Z.ltb_spec y 0); [reflexivity|]. destruct (Z.leb_spec h y); [reflexivity|].
  lia.
Qed.

(** The checked accessor [at]: inside the image it reads and writes the
    sample the unchecked [pixel] addresses, which lies inside the buffer;
    a write is read back, leaves every other pixel as it was and keeps
    the image well formed; outside the image both the read and the write
    throw [std::out_of_range] and nothing is touched. *)
Theorem at_round_trip (im : img.GrayscaleImage) (x y v : Z) :
  img.wf im -> 0 <= v <= 255 ->
  (0 <= x < img.width im -> 0 <= y < img.height im ->
   image.at_ im x y = Ok (img.pixel im x y) /\
   image.pixel im x y = Ok (img.pixel im x y) /\
   0 <= img.pixel im x y <= 255 /\
   exists im',
     image.set_at im x y v = Ok im' /\
     im' = img.set_pixel im x y v /\
     img.wf im' /\
     image.at_ im' x y = Ok v /\
     forall x' y', (x', y') <> (x, y) -> image.at_ im' x' y' = image.at_ im x' y') /\
  (~ (0 <= x < img.width im /\ 0 <= y < img.height im) ->
   image.at_ im x y = Throw image.out_of_bounds /\
   image.set_at im x y v = Throw image.out_of_bounds).
Proof.
  intros (Hw & Hh & Hlen & Hsz & Hd) Hv. split.
  - intros Hx Hy.
    pose proof (index_range _ _ x y Hx Hy) as Hi. rewrite <- Hlen in Hi.
    unfold image.at_, image.set_at, image.pixel.
    rewrite (checked_in_bounds _ _ x y Hx Hy).
    rewrite (get_in_range _ _ Hi), (put_in_range _ _ v Hi).
    split; [reflexivity|]. split; [reflexivity|]. split.
    { unfold img.pixel. rewrite List.Forall_forall in Hd. apply Hd.
      apply nth_In. lia. }
    eexists. split; [reflexivity|]. split; [reflexivity|]. split.
    { unfold img.wf. cbn [img.width img.height img.data].
      rewrite length_insert. repeat split; try assumption.
      apply Forall_insert; assumption. }
    cbn [img.width img.height img.data]. split.
    + rewrite (checked_in_bounds _ _ x y Hx Hy).
      rewrite get_in_range by (rewrite length_insert; exact Hi).
      f_equal. apply nth_lookup_Some. apply list_lookup_insert_eq. lia.
    + intros x' y' Hne.
      destruct ((x' <? 0) || (img.width im <=? x') || (y' <? 0)
                || (img.height im <=? y')) eqn:E; [reflexivity|].
      apply orb_false_iff in E as [E E4]. apply orb_false_iff in E as [E E3].
      apply orb_false_iff in E as [E1 E2].
      apply Z.ltb_ge in E1, E3. apply Z.leb_gt in E2, E4.
      pose proof (index_range (img.width im) (img.height im) x' y'
                    ltac:(lia) ltac:(lia)) as Hi'.
      rewrite <- Hlen in Hi'.
      rewrite !get_in_range by (rewrite ?length_insert; exact Hi').
      f_equal. rewrite !nth_lookup. f_equal.
      apply list_lookup_insert_ne. intros Eq. apply Hne.
      apply (index_inj (img.width im) (img.height im) (x', y') (x, y));
        unfold in_bounds, index; cbn [fst snd]; try lia.
  - intros Hout. unfold image.at_, image.set_at.
    rewrite (checked_out_of_bounds _ _ x y Hout). split; reflexivity.
Qed.

Lemma wf_ramp_image : img.wf examples.ramp.
Proof.
  unfold img.wf, examples.ramp. cbn.
  split; [lia|]. split; [lia|]. split; [reflexivity|]. split; [reflexivity|].
  repeat constructor; lia.
Qed.

Lemma at_round_trip_witness :
  img.wf examples.ramp /\ 0 <= 7 <= 255 /\
  image.at_ examples.ramp 2 0 = Ok 20 /\
  image.set_at examples.ramp 2 0 7
  = Ok (img.mkGrayscaleImage 4 1 255 [0; 10; 7; 30]) /\
  image.at_ examples.ramp 4 0 = Throw image.out_of_bounds.
Proof.
  split; [exact wf_ramp_image|]. split; [lia|].
  pose proof (at_round_trip examples.ramp 2 0 7 wf_ramp_image ltac:(lia)) as [H _].
  destruct (H ltac:(simpl; lia) ltac:(simpl; lia))
    as (H1 & _ & _ & im' & H2 & -> & _).
  split; [exact H1|]. split; [exact H2|]. reflexivity.
Defined.

(** [clamped_pixel] on an image that has a pixel reads, for every pair of
    coordinates whatever, the sample of the nearest pixel of the image,
    inside the buffer; on an image without a pixel (width or height zero)
    it reads outside the empty buffer. *)
Theorem clamped_pixel_reads (im : img.GrayscaleImage) (x y : Z) :
  img.wf im ->
  (0 < img.width im -> 0 < img.height im ->
   let cx := Z.max 0 (Z.min x (img.width im - 1)) in
   let cy := Z.max 0 (Z.min y (img.height im - 1)) in
   0 <= cx < img.width im /\ 0 <= cy < img.height im /\
   image.clamped_pixel im x y = image.at_ im cx cy /\
   image.clamped_pixel im x y = Ok (img.clamped_pixel im x y) /\
   0 <= img.clamped_pixel im x y <= 255 /\
   (0 <= x < img.width im -> 0 <= y < img.height im ->
    image.clamped_pixel im x y = Ok (img.pixel im x y))) /\
  (img.width im = 0 \/ img.height im = 0 ->
   image.clamped_pixel im x y = Undefined).
Proof.
  intros Hwf. pose proof Hwf as (Hw & Hh & Hlen & Hsz & Hd). split.
  - intros Hw0 Hh0 cx cy.
    assert (0 <= cx < img.width im) as Hcx by (unfold cx; lia).
    assert (0 <= cy < img.height im) as Hcy by (unfold cy; lia).
    split; [exact Hcx|]. split; [exact Hcy|].
    pose proof (index_range _ _ cx cy Hcx Hcy) as Hi. rewrite <- Hlen in Hi.
    unfold image.clamped_pixel, image.at_. fold cx cy.
    rewrite (checked_in_bounds _ _ cx cy Hcx Hcy), (get_in_range _ _ Hi).
    split; [reflexivity|]. split; [reflexivity|]. split.
    + unfold img.clamped_pixel. fold cx cy.
      rewrite List.Forall_forall in Hd. apply Hd. apply nth_In. lia.
    + intros Hx Hy. unfold img.pixel.
      replace cx with x by (unfold cx; lia). replace cy with y by (unfold cy; lia).
      reflexivity.
  - intros Hz. unfold image.clamped_pixel. apply get_out_of_range.
    assert (Z.of_nat (length (img.data im)) = 0) as -> by (rewrite Hlen; nia).
    lia.
Qed.

Lemma clamped_pixel_reads_witness :
  img.wf examples.ramp /\
  image.clamped_pixel examples.ramp 9 (-3) = Ok 30 /\
  image.clamped_pixel image.empty_image 0 0 = Undefined.
Proof.
  split; [exact wf_ramp_image|].
  pose proof (clamped_pixel_reads examples.ramp 9 (-3) wf_ramp_image) as [H _].
  destruct (H ltac:(simpl; lia) ltac:(simpl; lia)) as (_ & _ & _ & H1 & _).
  split; [exact H1|reflexivity].
Defined.

End image_facts.

(* ===================================================================== *)
(** * Catalog kernels: the variants agree, and so do the chains *)
(* ===================================================================== *)

Module chains_facts.
Import grid filter store_facts filter_facts convolution_facts integer_facts.
Import registry registry_facts.

(** The serial filter maps a well-formed image to a well-formed image of
    the same dimensions. *)
Lemma apply_filter_serial_wf input kernel :
  img.wf input ->
  exists out,
    apply_filter_serial input kernel = Ok out /\ img.wf out /\
    img.width out = img.width input /\ img.height out = img.height input /\
    img.max_val out = 255.
Proof.
  intros (Hw & Hh & Hlen & Hsz & Hd).
  eexists. split; [apply apply_filter_serial_render; assumption|].
  split; [|repeat split].
  unfold img.wf, render. cbn [img.width img.height img.data].
  split; [assumption|]. split; [assumption|]. split.
  { rewrite length_map, length_all_pixels by assumption. apply Z2Nat.id. nia. }
  split; [assumption|].
  apply (render_samples _ _ _ 0 255). intros p. apply serial_value_range.
Qed.

Lemma catalog_variants_agree input name k config rt :
  img.wf input -> omp.wf rt -> kernels.get_kernel_by_name name = Ok k ->
  apply_filter_parallel input k config rt = apply_filter_serial input k /\
  (1 <= tile_size config ->
   apply_filter_tiled input k config rt = apply_filter_serial input k).
Proof.
  intros Hwf Hrt Hk.
  destruct (all_kernels_integer k (lookup_in_all name k Hk)) as (ws & d & Hi & _).
  apply (integer_kernel_parallel_equals_serial input k ws d); assumption.
Qed.







Lemma chain_loops_agree names : forall input config rt pass,
  img.wf input -> (forall i, omp.wf (rt i)) ->
  chains.chain_loop input names config rt pass = chain_loop input names.
Proof.
  induction names as [|n names IH]; intros input config rt pass Hwf Hrt;
    [reflexivity|].
  simpl. destruct (kernels.get_kernel_by_name n) as [k|what|] eqn:Ek;
    simpl; try reflexivity.
  destruct (catalog_variants_agree input n k config (rt pass) Hwf (Hrt pass) Ek)
    as [-> _].
  destruct (apply_filter_serial_wf input k Hwf) as (out & -> & Hout & _).
  simpl. apply IH; assumption.
Qed.

(** The parallel chain returns what the serial chain returns, for every
    sequence of names (known or not), every configuration and whatever
    the runtime does in each pass. *)
Theorem chain_parallel_equals_serial (input : img.GrayscaleImage)
    (kernel_names : list string) (config : FilterConfig)
    (rt : nat -> omp.runtime) :
  img.wf input -> (forall i, omp.wf (rt i)) ->
  chains.apply_filter_chain_parallel input kernel_names config rt
  = apply_filter_chain_serial input kernel_names.
Proof.
  intros Hwf Hrt. destruct kernel_names as [|n names]; [reflexivity|].
  unfold chains.apply_filter_chain_parallel, apply_filter_chain_serial.
  apply chain_loops_agree; assumption.
Qed.

Lemma chain_parallel_equals_serial_witness :
  img.wf examples.ramp /\ (forall i : nat, omp.wf examples.runtime4) /\
  chains.apply_filter_chain_parallel examples.ramp
    ["blur"%string; "Sharpen"%string] examples.guided3 (fun _ => examples.runtime4)
  = apply_filter_chain_serial examples.ramp ["blur"%string; "Sharpen"%string].
Proof.
  split; [exact image_facts.wf_ramp_image|].
  split; [intros _; exact divergence_facts.wf_runtime4|].
  exact (chain_parallel_equals_serial examples.ramp
           ["blur"%string; "Sharpen"%string] examples.guided3
           (fun _ => examples.runtime4) image_facts.wf_ramp_image
           (fun _ => divergence_facts.wf_runtime4)).
Defined.







End chains_facts.

(* ===================================================================== *)
(** * Sobel: the gradient magnitude always converts to a byte *)
(* ===================================================================== *)

Module sobel_facts.
Import grid filter store_facts float_facts exact_facts rounding_facts
       saturation_facts filter_facts convolution_facts.

Lemma div2_add_even a b : Z.div2 (a + 2 * b) = Z.div2 a + b.
Proof. rewrite !Z.div2_div. rewrite Z.mul_comm, Z.div_add by lia. reflexivity. Qed.

Section Format.
Variables prec emax : Z.
Hypothesis Hprec : 0 < prec.
Hypothesis Hemax : prec < emax.

Local Abbreviation fexp := (SpecFloat.fexp prec emax).

(** The integer square root has enough digits for the exponent chosen. *)
Lemma sqrt_core_shift m e :
  0 < m ->
  let '(q, e', _) := SFsqrt_core_binary prec emax m e in
  0 <= q /\ e' <= fexp (Zdigits2 q + e').
Proof.
  intros Hm. unfold SFsqrt_core_binary.
  set (d := Zdigits2 m).
  set (e' := Z.min (fexp (Z.div2 (d + e + 1))) (Z.div2 e)).
  set (s := e - 2 * e').
  assert (0 <= s) as Hs.
  { unfold s, e'. pose proof (Z.div2_div e) as E.
    pose proof (Z.div_mod e 2 ltac:(lia)) as Hdm.
    pose proof (Z.mod_pos_bound e 2 ltac:(lia)). lia. }
  set (m' := match s with Z.pos _ => Z.shiftl m s | 0 => m | Z.neg _ => 0 end).
  assert (m' = m * 2 ^ s) as Em'.
  { unfold m'. clearbody s. destruct s as [|p|p]; try lia.
    rewrite Z.shiftl_mul_pow2 by lia. reflexivity. }
  assert (0 < 2 ^ s) as Ps by (apply Z.pow_pos_nonneg; lia).
  assert (0 < m') as Hm' by nia.
  pose proof (Z.sqrtrem_spec m' ltac:(lia)) as Hsq.
  destruct (Z.sqrtrem m') as [q r]. destruct Hsq as [Hq Hr].
  assert (0 <= q) as Hq0 by nia.
  split; [exact Hq0|].
  pose proof (Zdigits2_pos m Hm) as Hd1. fold d in Hd1.
  assert (Zdigits2 m' = d + s) as Dm' by (rewrite Em'; apply Zdigits2_mul_pow; lia).
  pose proof (Zdigits2_bounds m' Hm') as [Bl _]. rewrite Dm' in Bl.
  set (j := Z.div2 (d + s + 1)).
  assert (1 <= j /\ 2 * j <= d + s + 1) as [Hj1 Hj2].
  { unfold j. rewrite Z.div2_div.
    pose proof (Z.div_mod (d + s + 1) 2 ltac:(lia)).
    pose proof (Z.mod_pos_bound (d + s + 1) 2 ltac:(lia)). lia. }
  assert (2 ^ (j - 1) <= q) as Hlow.
  { assert (0 < 2 ^ (j - 1)) as Pj by (apply Z.pow_pos_nonneg; lia).
    assert (2 ^ (j - 1) * 2 ^ (j - 1) <= 2 ^ (d + s - 1)) as Hp.
    { rewrite <- Z.pow_add_r by lia. apply Z.pow_le_mono_r; lia. }
    destruct (Z.le_gt_cases (2 ^ (j - 1)) q); [assumption|]. nia. }
  assert (j <= Zdigits2 q) as Hdq.
  { pose proof (Zdigits2_le (2 ^ (j - 1)) q) as H.
    rewrite Zdigits2_pow in H by lia.
    assert (0 <= 2 ^ (j - 1)) by (apply Z.pow_nonneg; lia). lia. }
  etransitivity; [apply Z.le_min_l|]. apply fexp_mono.
  replace (d + e + 1) with (d + s + 1 + 2 * e') by (unfold s; lia).
  rewrite div2_add_even. fold j. lia.
Qed.

(** A square root is a number of the format, an infinity or a NaN. *)
Lemma SFsqrt_valid x : valid_binary prec emax (SFsqrt prec emax x) = true.
Proof.
  destruct x as [sx|[]| |[] mx ex]; try reflexivity.
  unfold SFsqrt.
  pose proof (sqrt_core_shift (Z.pos mx) ex ltac:(lia)) as H.
  destruct (SFsqrt_core_binary prec emax (Z.pos mx) ex) as [[q e'] l].
  destruct H as [Hq He]. apply binary_round_aux_valid; assumption.
Qed.

(** A square root is never a negative number. *)
Lemma SFsqrt_sign x :
  match SFsqrt prec emax x with
  | S754_finite s _ _ | S754_infinity s => s = false
  | _ => True
  end.
Proof.
  destruct x as [sx|[]| |[] mx ex]; try exact I; try reflexivity.
  unfold SFsqrt.
  pose proof (sqrt_core_shift (Z.pos mx) ex ltac:(lia)) as H.
  destruct (SFsqrt_core_binary prec emax (Z.pos mx) ex) as [[q e'] l].
  destruct H as [Hq _].
  pose proof (binary_round_aux_sign prec emax q e' l Hq) as Hs.
  destruct (binary_round_aux prec emax false q e' l); simpl in Hs; auto.
Qed.

End Format.

(** On a value that is not negative, [std::min(255.0f, .)] alone converts
    like the full saturation. *)
Lemma min_saturation v :
  match v with
  | S754_finite s _ _ | S754_infinity s => s = false
  | _ => True
  end ->
  u8_of_float (f32.min f255 v)
  = u8_of_float (f32.max f32.zero (f32.min f255 v)).
Proof.
  rewrite f255_eq.
  destruct v as [[]|[]| |[] m e]; intros H; try discriminate H; try reflexivity.
  unfold f32.min, f32.max, f32.ltb, SFltb.
  rewrite SFcompare_pos.
  destruct (e ?= -16); [destruct (Z.pos m ?= 16711680)| |]; reflexivity.
Qed.

(** The body of the Sobel loops never leaves the language. *)
Lemma sobel_sample_defined input x y :
  exists z, 0 <= z <= 255 /\ sobel_sample input x y = Ok z.
Proof.
  unfold sobel_sample.
  destruct (fold_left _ _ _) as [gx gy].
  set (mag := f32.sqrt (f32.add (f32.mul gx gx) (f32.mul gy gy))).
  rewrite (min_saturation mag (SFsqrt_sign 24 128 ltac:(lia) ltac:(lia) _)).
  apply serial_saturation_defined.
  apply (SFsqrt_valid 24 128); lia.
Qed.

Lemma sobel_sample_value input x y :
  sobel_sample input x y = Ok (outcomes.value (sobel_sample input x y)).
Proof.
  destruct (sobel_sample_defined input x y) as (z & _ & ->). reflexivity.
Qed.

(** Sobel edge detection always returns: a well-formed image of the
    dimensions of the input with [max_val = 255], never an undefined
    result, whatever the samples of the input; and the parallel function
    returns the same image as the serial one for every image, thread
    count and behaviour of the runtime. *)
Theorem sobel_edge_detection_total (input : img.GrayscaleImage)
    (config : FilterConfig) (rt : omp.runtime) :
  img.wf input -> omp.wf rt ->
  exists out,
    sobel_edge_detection_serial input = Ok out /\
    sobel_edge_detection_parallel input config rt = Ok out /\
    img.wf out /\
    img.width out = img.width input /\ img.height out = img.height input /\
    img.max_val out = 255.
Proof.
  intros (Hw & Hh & Hlen & Hsz & Hd) Hrt.
  rewrite sobel_parallel_loop by assumption. rewrite sobel_serial_loop.
  rewrite (store_all (sobel_sample input)
             (fun p => outcomes.value (sobel_sample input (fst p) (snd p))))
    by (try assumption; intros p _; apply sobel_sample_value).
  eexists. split; [reflexivity|]. split; [reflexivity|].
  split; [|repeat split].
  unfold img.wf, render. cbn [img.width img.height img.data].
  split; [assumption|]. split; [assumption|]. split.
  { rewrite length_map, length_all_pixels by assumption. apply Z2Nat.id. nia. }
  split; [assumption|].
  apply (render_samples _ _ _ 0 255). intros p.
  destruct (sobel_sample_defined input (fst p) (snd p)) as (z & Hz & ->). exact Hz.
Qed.

Lemma sobel_edge_detection_total_witness :
  img.wf examples.ramp /\ omp.wf examples.runtime4 /\
  exists out,
    sobel_edge_detection_serial examples.ramp = Ok out /\
    sobel_edge_detection_parallel examples.ramp examples.guided3 examples.runtime4
    = Ok out /\
    img.wf out /\
    img.width out = img.width examples.ramp /\
    img.height out = img.height examples.ramp /\
    img.max_val out = 255.
Proof.
  split; [exact image_facts.wf_ramp_image|].
  split; [exact divergence_facts.wf_runtime4|].
  exact (sobel_edge_detection_total examples.ramp examples.guided3
           examples.runtime4 image_facts.wf_ramp_image
           divergence_facts.wf_runtime4).
Defined.

End sobel_facts.

(* ===================================================================== *)
(** * The [float] quotient of two integers, truncated *)
(* ===================================================================== *)

Module quotient_facts.
Import ieee float_facts exact_facts rounding_facts value_facts saturation_facts.
Import integer_facts filter.

Local Abbreviation num m e := (inject_Z (Z.pos m) * 2 ^ e)%Q.
Local Abbreviation eps32 := (2 ^ (1 - 24))%Q.
Local Abbreviation is_int32 := (ieee.is_int 24 128).


(** The integer part of a positive number below [2^24] read off its
    value. *)
Lemma floor_of_value m e k :
  e < 0 -> 0 <= k ->
  (inject_Z k <= num m e)%Q -> (num m e < inject_Z k + 1)%Q ->
  Z.shiftl (Z.pos m) e = k.
Proof.
  intros He Hk Hlo Hhi.
  rewrite <- (Z.opp_involutive e), Z.shiftl_opp_r.
  rewrite Z.shiftr_div_pow2 by lia.
  assert (0 < 2 ^ (- e)) as Pp by (apply Z.pow_pos_nonneg; lia).
  pose proof (pow2_pos (- e)) as Pq. pose proof (pow2_opp e) as Eo.
  symmetry. apply (Z.div_unique_pos _ _ _ (Z.pos m - k * 2 ^ (- e))); [|lia].
  assert (inject_Z (k * 2 ^ (- e)) <= inject_Z (Z.pos m))%Q as H1.
  { rewrite inject_Z_mult, pow2_inject by lia.
    assert (inject_Z (Z.pos m) == num m e * 2 ^ (- e))%Q as ->.
    { rewrite <- Qmult_assoc, Eo. ring. }
    apply Qmult_le_compat_r; [exact Hlo|apply Qlt_le_weak; exact Pq]. }
  assert (inject_Z (Z.pos m) < inject_Z ((k + 1) * 2 ^ (- e)))%Q as H2.
  { rewrite inject_Z_mult, inject_Z_plus, pow2_inject by lia.
    assert (inject_Z (Z.pos m) == num m e * 2 ^ (- e))%Q as ->.
    { rewrite <- Qmult_assoc, Eo. ring. }
    apply Qmult_lt_compat_r; [exact Pq|exact Hhi]. }
  rewrite <- Zle_Qle in H1. rewrite <- Zlt_Qlt in H2. lia.
Qed.




Lemma pow2_le a b : a <= b -> (2 ^ a <= 2 ^ b)%Q.
Proof.
  intros H. replace b with (a + (b - a)) by lia.
  rewrite pow2_add. rewrite <- (pow2_inject (b - a)) by lia.
  assert (1 <= inject_Z (2 ^ (b - a)))%Q as H1.
  { change 1%Q with (inject_Z 1). rewrite <- Zle_Qle.
    assert (0 < 2 ^ (b - a)) by (apply Z.pow_pos_nonneg; lia). lia. }
  pose proof (pow2_pos a). nra.
Qed.

(** A normal number with exponent [e] lies in [[2^(23+e), 2^(24+e))]. *)
Lemma num_bounds m e :
  Zdigits2 (Z.pos m) = 24 ->
  (inject_Z (2 ^ 23) * 2 ^ e <= num m e)%Q /\
  (num m e < inject_Z (2 ^ 24) * 2 ^ e)%Q.
Proof.
  intros D. pose proof (Zdigits2_bounds (Z.pos m) ltac:(lia)) as B.
  rewrite D in B. change (24 - 1) with 23 in B.
  pose proof (pow2_pos e) as P. destruct B as [B1 B2].
  rewrite Zle_Qle in B1. rewrite Zlt_Qlt in B2. split; nra.
Qed.

(** The serial saturation of a number whose integer part is below 255. *)
Lemma saturation_floor m e k :
  Zdigits2 (Z.pos m) = 24 -> 0 <= k <= 254 ->
  (inject_Z k <= num m e)%Q -> (num m e < inject_Z k + 1)%Q ->
  u8_of_float (f32.max f32.zero (f32.min f255 (S754_finite false m e))) = Ok k.
Proof.
  intros D Hk Hlo Hhi. destruct (num_bounds m e D) as [N1 N2].
  assert (inject_Z k + 1 <= 255)%Q as K255.
  { change 1%Q with (inject_Z 1). change 255%Q with (inject_Z 255).
    rewrite <- inject_Z_plus, <- Zle_Qle. lia. }
  assert (e <= - 16) as He.
  { destruct (Z_le_gt_dec e (- 16)) as [|Hgt]; [assumption|exfalso].
    pose proof (pow2_le (- 15) e ltac:(lia)) as P.
    assert (inject_Z (2 ^ 23) * 2 ^ (- 15) == 256)%Q as E by reflexivity.
    assert (0 <= inject_Z (2 ^ 23))%Q as P23 by (vm_compute; discriminate).
    assert (inject_Z (2 ^ 23) * 2 ^ (- 15) <= inject_Z (2 ^ 23) * 2 ^ e)%Q
      by (apply Qmult_le_l; [reflexivity|exact P]).
    nra. }
  assert (e = - 16 -> Z.pos m < 16711680) as Hm.
  { intros ->. rewrite Zlt_Qlt.
    assert (2 ^ (- 16) == 1 / 65536)%Q as E by reflexivity.
    rewrite E in Hhi.
    assert (inject_Z 16711680 == 16711680)%Q as -> by reflexivity. nra. }
  rewrite f255_eq. pose proof (serial_saturation_pos m e) as Hs.
  assert (f32.max f32.zero
            (f32.min (S754_finite false 16711680 (-16)) (S754_finite false m e))
          = S754_finite false m e) as ->.
  { rewrite Hs. destruct (Z.compare_spec e (- 16)) as [E| |]; [|reflexivity|lia].
    specialize (Hm E).
    destruct (Z.compare_spec (Z.pos m) 16711680); try lia. reflexivity. }
  pose proof (floor_of_value m e k ltac:(lia) ltac:(lia) Hlo Hhi) as F.
  rewrite <- F. apply u8_of_float_pos. rewrite F. lia.
Qed.

(** The serial saturation of a number that is at least 255. *)
Lemma saturation_high m e :
  Zdigits2 (Z.pos m) = 24 -> (255 <= num m e)%Q ->
  u8_of_float (f32.max f32.zero (f32.min f255 (S754_finite false m e)))
  = Ok 255.
Proof.
  intros D H. destruct (num_bounds m e D) as [N1 N2].
  assert (- 16 <= e) as He.
  { destruct (Z_le_gt_dec (- 16) e) as [|Hgt]; [assumption|exfalso].
    pose proof (pow2_le e (- 17) ltac:(lia)) as P.
    assert (inject_Z (2 ^ 24) * 2 ^ (- 17) == 128)%Q as E by reflexivity.
    assert (0 <= inject_Z (2 ^ 24))%Q as P24 by (vm_compute; discriminate).
    assert (inject_Z (2 ^ 24) * 2 ^ e <= inject_Z (2 ^ 24) * 2 ^ (- 17))%Q
      by (apply Qmult_le_l; [reflexivity|exact P]).
    nra. }
  assert (e = - 16 -> 16711680 <= Z.pos m) as Hm.
  { intros ->. rewrite Zle_Qle.
    assert (2 ^ (- 16) == 1 / 65536)%Q as E by reflexivity.
    rewrite E in H.
    assert (inject_Z 16711680 == 16711680)%Q as -> by reflexivity. nra. }
  rewrite f255_eq. pose proof (serial_saturation_pos m e) as Hs.
  assert (f32.max f32.zero
            (f32.min (S754_finite false 16711680 (-16)) (S754_finite false m e))
          = S754_finite false 16711680 (-16)) as ->.
  { rewrite Hs. destruct (Z.compare_spec e (- 16)) as [E| |]; [|lia|reflexivity].
    specialize (Hm E).
    destruct (Z.compare_spec (Z.pos m) 16711680); try lia; reflexivity. }
  reflexivity.
Qed.







End quotient_facts.

(* ===================================================================== *)
(** * Integer kernels: what the filter computes, in integers *)
(* ===================================================================== *)

Module semantics_facts.
Import grid filter store_facts filter_facts convolution_facts integer_facts.
Import quotient_facts.
































End semantics_facts.

(* ===================================================================== *)
(** * The tiles of the tiled filter *)
(* ===================================================================== *)

Module tiling_facts.
Import grid filter store_facts tile_facts.



End tiling_facts.

(* ===================================================================== *)
(** * The RGB filters *)
(* ===================================================================== *)

Module rgb_facts.
Import grid filter store_facts filter_facts convolution_facts integer_facts.

Lemma normalize_no_throw kernel s what : rgb.normalize kernel s <> Throw what.
Proof. apply u8_of_float_no_throw. Qed.

(** The body of the pixel loops: three bytes, then three stores. *)
Lemma store_pixel_samples input kernel p out :
  rgb.store_pixel input kernel p out
  = do v <- rgb.samples input kernel p; Ok (rgb.set_pixel out p v).
Proof.
  unfold rgb.store_pixel, rgb.samples.
  destruct (rgb.conv_sums input kernel (fst p) (snd p)) as [[sr sg] sb].
  destruct (rgb.normalize kernel sr); simpl; try reflexivity.
  destruct (rgb.normalize kernel sg); simpl; try reflexivity.
  destruct (rgb.normalize kernel sb); simpl; reflexivity.
Qed.

Lemma samples_no_throw input kernel p what :
  rgb.samples input kernel p <> Throw what.
Proof.
  unfold rgb.samples.
  destruct (rgb.conv_sums input kernel (fst p) (snd p)) as [[sr sg] sb].
  destruct (rgb.normalize kernel sr) eqn:Er; simpl;
    [|intros _; exact (normalize_no_throw _ _ _ Er)|discriminate].
  destruct (rgb.normalize kernel sg) eqn:Eg; simpl;
    [|intros _; exact (normalize_no_throw _ _ _ Eg)|discriminate].
  destruct (rgb.normalize kernel sb) eqn:Eb; simpl;
    [discriminate|intros _; exact (normalize_no_throw _ _ _ Eb)|discriminate].
Qed.

(** Different pixels own different positions of the interleaved buffer. *)
Lemma offset_apart w h p q c c' :
  in_bounds w h p -> in_bounds w h q -> 0 <= c < 3 -> 0 <= c' < 3 -> p <> q ->
  Z.to_nat ((snd p * w + fst p) * 3 + c)
  <> Z.to_nat ((snd q * w + fst q) * 3 + c').
Proof.
  intros Hp Hq Hc Hc' Hne E. apply Hne.
  apply (index_inj w h p q Hp Hq). unfold index.
  destruct p as [x1 y1], q as [x2 y2]. unfold in_bounds in *.
  cbn [fst snd] in *. f_equal. nia.
Qed.

Lemma set_pixel_comm out p q v u h :
  in_bounds (rgb.width out) h p -> in_bounds (rgb.width out) h q -> p <> q ->
  rgb.set_pixel (rgb.set_pixel out p v) q u
  = rgb.set_pixel (rgb.set_pixel out q u) p v.
Proof.
  intros Hp Hq Hne. destruct v as [[v0 v1] v2], u as [[u0 u1] u2].
  unfold rgb.set_pixel, rgb.set_r, rgb.set_g, rgb.set_b, rgb.offset.
  cbn [rgb.width rgb.height rgb.max_val rgb.data]. f_equal.
  set (w := rgb.width out) in *.
  pose proof (fun c c' Hc Hc' => offset_apart w h q p c c' Hq Hp Hc Hc'
                                   (fun E => Hne (eq_sym E))) as Hd.
  set (p0 := Z.to_nat ((snd p * w + fst p) * 3 + 0)) in *.
  set (p1 := Z.to_nat ((snd p * w + fst p) * 3 + 1)) in *.
  set (p2 := Z.to_nat ((snd p * w + fst p) * 3 + 2)) in *.
  set (q0 := Z.to_nat ((snd q * w + fst q) * 3 + 0)) in *.
  set (q1 := Z.to_nat ((snd q * w + fst q) * 3 + 1)) in *.
  set (q2 := Z.to_nat ((snd q * w + fst q) * 3 + 2)) in *.
  assert (q0 <> p0) as H00 by (apply Hd; lia).
  assert (q0 <> p1) as H01 by (apply Hd; lia).
  assert (q0 <> p2) as H02 by (apply Hd; lia).
  assert (q1 <> p0) as H10 by (apply Hd; lia).
  assert (q1 <> p1) as H11 by (apply Hd; lia).
  assert (q1 <> p2) as H12 by (apply Hd; lia).
  assert (q2 <> p0) as H20 by (apply Hd; lia).
  assert (q2 <> p1) as H21 by (apply Hd; lia).
  assert (q2 <> p2) as H22 by (apply Hd; lia).
  clearbody p0 p1 p2 q0 q1 q2.
  rewrite (list_insert_insert_ne _ q0 p2) by assumption.
  rewrite (list_insert_insert_ne _ q1 p2) by assumption.
  rewrite (list_insert_insert_ne _ q2 p2) by assumption.
  f_equal.
  rewrite (list_insert_insert_ne _ q0 p1) by assumption.
  rewrite (list_insert_insert_ne _ q1 p1) by assumption.
  rewrite (list_insert_insert_ne _ q2 p1) by assumption.
  f_equal.
  rewrite (list_insert_insert_ne _ q0 p0) by assumption.
  rewrite (list_insert_insert_ne _ q1 p0) by assumption.
  rewrite (list_insert_insert_ne _ q2 p0) by assumption.
  reflexivity.
Qed.

Lemma set_pixel_shape out p v :
  rgb.width (rgb.set_pixel out p v) = rgb.width out /\
  rgb.height (rgb.set_pixel out p v) = rgb.height out /\
  rgb.max_val (rgb.set_pixel out p v) = rgb.max_val out /\
  length (rgb.data (rgb.set_pixel out p v)) = length (rgb.data out).
Proof.
  destruct v as [[v0 v1] v2]. unfold rgb.set_pixel, rgb.set_r, rgb.set_g, rgb.set_b.
  cbn [rgb.width rgb.height rgb.max_val rgb.data].
  rewrite !length_insert. auto.
Qed.

Lemma store_pixel_shape input kernel p out out' :
  rgb.store_pixel input kernel p out = Ok out' ->
  rgb.width out' = rgb.width out /\ rgb.height out' = rgb.height out /\
  rgb.max_val out' = rgb.max_val out /\
  length (rgb.data out') = length (rgb.data out).
Proof.
  rewrite store_pixel_samples.
  destruct (rgb.samples input kernel p); simpl; try discriminate.
  intros [= <-]. apply set_pixel_shape.
Qed.

(** Two executions of the loop body commute. *)
Lemma store_pixel_swap input kernel p q out h :
  in_bounds (rgb.width out) h p -> in_bounds (rgb.width out) h q ->
  (do o <- rgb.store_pixel input kernel p out; rgb.store_pixel input kernel q o)
  = (do o <- rgb.store_pixel input kernel q out;
     rgb.store_pixel input kernel p o).
Proof.
  intros Hp Hq. destruct (decide (p = q)) as [->|Hne]; [reflexivity|].
  rewrite (store_pixel_samples input kernel p out),
          (store_pixel_samples input kernel q out).
  destruct (rgb.samples input kernel p) as [v|a|] eqn:Ep;
    destruct (rgb.samples input kernel q) as [u|b|] eqn:Eq; simpl;
    rewrite ?store_pixel_samples, ?Ep, ?Eq; simpl; try reflexivity;
    try (exfalso; eapply samples_no_throw; eassumption).
  f_equal. apply set_pixel_comm with (h := h); assumption.
Qed.

Lemma for_each_store_pixel_perm input kernel h (o1 o2 : list (Z * Z)) :
  Permutation o1 o2 ->
  forall out, Forall (in_bounds (rgb.width out) h) o1 ->
  for_each o1 (rgb.store_pixel input kernel) out
  = for_each o2 (rgb.store_pixel input kernel) out.
Proof.
  intros Hperm.
  induction Hperm as [|p l l' Hperm IH|p q l|l l' l'' H1 IH1 H2 IH2];
    intros out Hb.
  - reflexivity.
  - simpl. destruct (rgb.store_pixel input kernel p out) as [out'| |] eqn:E;
      simpl; try reflexivity.
    apply IH. apply store_pixel_shape in E as (-> & _).
    inversion Hb; assumption.
  - simpl. rewrite <- !bind_assoc.
    inversion Hb as [|? ? Hq Hb']; subst. inversion Hb' as [|? ? Hp Hb'']; subst.
    rewrite (store_pixel_swap input kernel q p out h Hq Hp). reflexivity.
  - rewrite IH1 by assumption. apply IH2.
    eapply Permutation_Forall; eassumption.
Qed.

Lemma nested_loops {S : Type} (body : Z * Z -> S -> outcome S) w h out :
  for_each (range 0 h) (fun y output =>
    for_each (range 0 w) (fun x output => body (x, y) output) output) out
  = for_each (all_pixels w h) body out.
Proof.
  unfold all_pixels. rewrite <- for_each_flat_map.
  apply for_each_ext. intros y s _. unfold row_steps.
  generalize (range 0 w). intros l. revert s.
  induction l as [|x l IH]; intros s; simpl; [reflexivity|].
  destruct (body (x, y) s); simpl; auto.
Qed.

Lemma rgb_serial_loop input kernel :
  rgb.apply_filter_serial input kernel
  = for_each (all_pixels (rgb.width input) (rgb.height input))
             (rgb.store_pixel input kernel)
             (rgb.create (rgb.width input) (rgb.height input)).
Proof. unfold rgb.apply_filter_serial. apply nested_loops. Qed.

Lemma rgb_parallel_loop input kernel config rt :
  omp.wf rt ->
  rgb.apply_filter_parallel input kernel config rt
  = for_each (all_pixels (rgb.width input) (rgb.height input))
             (rgb.store_pixel input kernel)
             (rgb.create (rgb.width input) (rgb.height input)).
Proof.
  intros Hrt. unfold rgb.apply_filter_parallel. cbv zeta.
  pose proof (omp_facts.team_size_pos (num_threads config) rt Hrt) as Ht.
  apply for_each_store_pixel_perm with (h := rgb.height input).
  - apply omp_facts.parallel_for_perm. assumption.
  - cbn [rgb.create rgb.width].
    eapply Permutation_Forall;
      [symmetry; apply omp_facts.parallel_for_perm; assumption|].
    apply all_pixels_bounds.
Qed.

(** ** The result, sample by sample *)

Lemma triples_lookup (g0 g1 g2 : Z * Z -> Z) (ps : list (Z * Z)) :
  forall i p, ps !! i = Some p ->
    flat_map (fun p => [g0 p; g1 p; g2 p]) ps !! (3 * i)%nat = Some (g0 p) /\
    flat_map (fun p => [g0 p; g1 p; g2 p]) ps !! (3 * i + 1)%nat = Some (g1 p) /\
    flat_map (fun p => [g0 p; g1 p; g2 p]) ps !! (3 * i + 2)%nat = Some (g2 p).
Proof.
  induction ps as [|q ps IH]; intros i p H; [discriminate|].
  destruct i as [|i]; simpl in H.
  - injection H as ->. repeat split; reflexivity.
  - destruct (IH i p H) as (H0 & H1 & H2).
    replace (3 * S i)%nat with (S (S (S (3 * i)))) by lia.
    replace (S (S (S (3 * i))) + 1)%nat with (S (S (S (3 * i + 1)))) by lia.
    replace (S (S (S (3 * i))) + 2)%nat with (S (S (S (3 * i + 2)))) by lia.
    simpl. auto.
Qed.

Lemma length_triples (g0 g1 g2 : Z * Z -> Z) (ps : list (Z * Z)) :
  length (flat_map (fun p => [g0 p; g1 p; g2 p]) ps) = (3 * length ps)%nat.
Proof. induction ps as [|q ps IH]; simpl; [reflexivity|]. rewrite IH. lia. Qed.

(** Stores to consecutive pixels fill the blank tail of the buffer. *)
Lemma store_pixel_consecutive input kernel (g0 g1 g2 : Z * Z -> Z) w h mv ps :
  (forall p, In p ps -> rgb.samples input kernel p = Ok (g0 p, g1 p, g2 p)) ->
  (forall p, In p ps -> 0 <= snd p * w + fst p) ->
  forall done n k,
  length done = (3 * n)%nat -> consecutive w n ps -> (length ps <= k)%nat ->
  for_each ps (rgb.store_pixel input kernel)
    (rgb.mkRGBImage w h mv (done ++ replicate (3 * k) 0))
  = Ok (rgb.mkRGBImage w h mv
          (done ++ flat_map (fun p => [g0 p; g1 p; g2 p]) ps
                ++ replicate (3 * (k - length ps)) 0)).
Proof.
  intros Hf Hpos. induction ps as [|p ps IH]; intros done n k Hd Hc Hk.
  - simpl. rewrite Nat.sub_0_r. reflexivity.
  - cbn [for_each]. destruct Hc as [Hi Hc].
    rewrite store_pixel_samples, Hf by (left; reflexivity).
    cbn [bind]. unfold rgb.set_pixel, rgb.set_r, rgb.set_g, rgb.set_b, rgb.offset.
    cbn [rgb.width rgb.height rgb.max_val rgb.data].
    pose proof (Hpos p (or_introl eq_refl)) as Hp0. unfold index in Hi.
    replace (Z.to_nat ((snd p * w + fst p) * 3 + 0))
      with (length done + 0)%nat by lia.
    replace (Z.to_nat ((snd p * w + fst p) * 3 + 1))
      with (length done + 1)%nat by lia.
    replace (Z.to_nat ((snd p * w + fst p) * 3 + 2))
      with (length done + 2)%nat by lia.
    destruct k as [|k]; [simpl in Hk; lia|].
    replace (3 * S k)%nat with (S (S (S (3 * k)))) by lia.
    cbn [replicate]. rewrite !insert_app_r. cbn [list_insert insert].
    specialize (IH (fun q Hq => Hf q (or_intror Hq))
                   (fun q Hq => Hpos q (or_intror Hq))
                   (done ++ [g0 p; g1 p; g2 p]) (S n) k).
    rewrite <- !app_assoc in IH. cbn [app] in IH.
    cbn [flat_map length app].
    replace (S k - S (length ps))%nat with (k - length ps)%nat by lia.
    apply IH; [rewrite length_app; simpl; lia|exact Hc|simpl in Hk; lia].
Qed.

(** The loop over all pixels, when every sample is defined. *)
Lemma store_pixel_all input kernel (g0 g1 g2 : Z * Z -> Z) w h :
  0 <= w -> 0 <= h ->
  (forall p, in_bounds w h p ->
     rgb.samples input kernel p = Ok (g0 p, g1 p, g2 p)) ->
  for_each (all_pixels w h) (rgb.store_pixel input kernel) (rgb.create w h)
  = Ok (rgb.mkRGBImage w h 255
          (flat_map (fun p => [g0 p; g1 p; g2 p]) (all_pixels w h))).
Proof.
  intros Hw Hh Hf. unfold rgb.create.
  pose proof (store_pixel_consecutive input kernel g0 g1 g2 w h 255
                (all_pixels w h)
                (fun p Hp => Hf p (proj1 (all_pixels_in w h p) Hp))) as H.
  specialize (H (fun p Hp => ltac:(apply all_pixels_in in Hp as [? ?]; nia))
                [] 0%nat (Z.to_nat (w * h)) eq_refl).
  replace (Z.to_nat (w * h * 3)) with (3 * Z.to_nat (w * h))%nat by lia.
  cbn [app] in H. rewrite H.
  - rewrite length_all_pixels by assumption. rewrite Nat.sub_diag.
    cbn [Nat.mul replicate]. rewrite app_nil_r. reflexivity.
  - apply (consecutive_rows w 0 h); lia.
  - rewrite length_all_pixels by assumption. lia.
Qed.

(** The planes of an interleaved buffer. *)
Lemma plane_triples (g0 g1 g2 : Z * Z -> Z) w h :
  0 <= w -> 0 <= h ->
  let out := rgb.mkRGBImage w h 255
               (flat_map (fun p => [g0 p; g1 p; g2 p]) (all_pixels w h)) in
  rgb.plane 0 out = render w h g0 /\
  rgb.plane 1 out = render w h g1 /\
  rgb.plane 2 out = render w h g2.
Proof.
  intros Hw Hh out.
  pose proof (length_all_pixels w h Hw Hh) as Hl.
  assert (forall c (g : Z * Z -> Z),
            (forall i p, all_pixels w h !! i = Some p ->
               flat_map (fun p => [g0 p; g1 p; g2 p]) (all_pixels w h)
                 !! (3 * i + c)%nat = Some (g p)) ->
            rgb.plane (Z.of_nat c) out = render w h g) as H.
  { intros c g Hg. unfold rgb.plane, render, out.
    cbn [rgb.width rgb.height rgb.max_val rgb.data]. f_equal.
    apply list_eq. intros i. rewrite !list_lookup_fmap.
    destruct (all_pixels w h !! i) as [p|] eqn:E.
    - pose proof (lookup_lt_Some _ _ _ E) as Hi.
      unfold range. rewrite lookup_seqZ_lt by lia.
      cbn [fmap option_fmap option_map]. f_equal.
      apply nth_lookup_Some.
      replace (Z.to_nat ((0 + Z.of_nat i) * 3 + Z.of_nat c))
        with (3 * i + c)%nat by lia.
      apply Hg, E.
    - apply lookup_ge_None in E. unfold range.
      rewrite lookup_seqZ_ge by lia. reflexivity. }
  split; [|split].
  - apply (H 0%nat g0). intros i p E.
    rewrite Nat.add_0_r. apply (triples_lookup g0 g1 g2 _ i p E).
  - apply (H 1%nat g1). intros i p E. apply (triples_lookup g0 g1 g2 _ i p E).
  - apply (H 2%nat g2). intros i p E. apply (triples_lookup g0 g1 g2 _ i p E).
Qed.

(** ** The three planes of the input *)

Lemma plane_pixel c input x y :
  0 <= c ->
  0 <= x < rgb.width input -> 0 <= y < rgb.height input ->
  img.pixel (rgb.plane c input) x y
  = nth (Z.to_nat ((y * rgb.width input + x) * 3 + c)) (rgb.data input) 0.
Proof.
  intros Hc Hx Hy. unfold img.pixel, rgb.plane.
  cbn [img.width img.height img.data].
  apply nth_lookup_Some. rewrite list_lookup_fmap. unfold range.
  rewrite lookup_seqZ_lt by nia.
  cbn [fmap option_fmap option_map]. do 3 f_equal. nia.
Qed.

Lemma plane_wf c input :
  0 <= c < 3 -> rgb.wf input -> img.wf (rgb.plane c input).
Proof.
  intros Hc (Hw & Hh & Hlen & Hsz & Hd). unfold img.wf, rgb.plane.
  cbn [img.width img.height img.data].
  split; [assumption|]. split; [assumption|]. split.
  { rewrite length_map. unfold range. rewrite length_seqZ. nia. }
  split; [nia|].
  apply List.Forall_forall. intros v Hv.
  apply in_map_iff in Hv as (i & <- & Hi). apply In_range in Hi.
  rewrite List.Forall_forall in Hd. apply Hd, nth_In. nia.
Qed.

Lemma fold_left_ext {A B : Type} (f g : A -> B -> A) l a :
  (forall a b, f a b = g a b) -> fold_left f l a = fold_left g l a.
Proof.
  intros H. revert a. induction l as [|b l IH]; intros a; simpl;
    [reflexivity|]. rewrite H. apply IH.
Qed.

Lemma fold_triple {B : Type} (F0 F1 F2 : f32.t -> B -> f32.t) l :
  forall a b c,
  fold_left (fun (s : f32.t * f32.t * f32.t) k =>
               let '(x, y, z) := s in (F0 x k, F1 y k, F2 z k)) l (a, b, c)
  = (fold_left F0 l a, fold_left F1 l b, fold_left F2 l c).
Proof. induction l as [|k l IH]; intros a b c; simpl; [reflexivity|apply IH]. Qed.

(** The three sums of the RGB loops are the sums of the grayscale loops
    on the three planes. *)
Lemma conv_sums_planes input kernel x y :
  0 < rgb.width input -> 0 < rgb.height input ->
  rgb.conv_sums input kernel x y
  = (conv_sum (rgb.plane 0 input) kernel x y,
     conv_sum (rgb.plane 1 input) kernel x y,
     conv_sum (rgb.plane 2 input) kernel x y).
Proof.
  intros Hw Hh. unfold rgb.conv_sums, conv_sum. cbv zeta.
  set (L := range (- kernels.radius kernel) (kernels.radius kernel + 1)).
  set (G := fun (c : Z) (ky : Z) (s : f32.t) (kx : Z) =>
              f32.add s
                (f32.mul
                   (f32.of_int
                      (img.pixel (rgb.plane c input)
                         (Z.max 0 (Z.min (x + kx) (rgb.width input - 1)))
                         (Z.max 0 (Z.min (y + ky) (rgb.height input - 1)))))
                   (kernels.at_ kernel (kx + kernels.radius kernel)
                      (ky + kernels.radius kernel)))).
  transitivity
    (fold_left (fun (s : f32.t * f32.t * f32.t) ky =>
                  let '(a, b, c) := s in
                  (fold_left (G 0 ky) L a, fold_left (G 1 ky) L b,
                   fold_left (G 2 ky) L c)) L (f32.zero, f32.zero, f32.zero)).
  - apply fold_left_ext. intros [[a b] c] ky.
    rewrite <- (fold_triple (G 0 ky) (G 1 ky) (G 2 ky) L a b c).
    apply fold_left_ext. intros [[a' b'] c'] kx. unfold G.
    rewrite !plane_pixel by lia. reflexivity.
  - rewrite (fold_triple (fun s ky => fold_left (G 0 ky) L s)
                         (fun s ky => fold_left (G 1 ky) L s)
                         (fun s ky => fold_left (G 2 ky) L s)).
    reflexivity.
Qed.

(** The bytes of a pixel are the bytes the parallel grayscale filter
    computes on the three planes. *)
Lemma samples_planes input kernel p :
  0 < rgb.width input -> 0 < rgb.height input ->
  rgb.samples input kernel p
  = do vr <- parallel_sample (rgb.plane 0 input) kernel (fst p) (snd p);
    do vg <- parallel_sample (rgb.plane 1 input) kernel (fst p) (snd p);
    do vb <- parallel_sample (rgb.plane 2 input) kernel (fst p) (snd p);
    Ok (vr, vg, vb).
Proof.
  intros Hw Hh. unfold rgb.samples.
  rewrite conv_sums_planes by assumption. reflexivity.
Qed.

(** ** The RGB filters *)

(** The parallel RGB filter returns what the serial RGB filter returns,
    for every well-formed image, every kernel whose weights the loops can
    read, and whatever the runtime does: both an image, or both an
    undefined result; neither ever signals an error. *)
Theorem rgb_parallel_equals_serial (input : rgb.RGBImage)
    (kernel : kernels.Kernel) (config : FilterConfig) (rt : omp.runtime) :
  rgb.wf input -> registry.reads_in_range kernel -> omp.wf rt ->
  rgb.apply_filter_parallel input kernel config rt
  = rgb.apply_filter_serial input kernel /\
  forall what, rgb.apply_filter_serial input kernel <> Throw what.
Proof.
  intros _ _ Hrt. split.
  - rewrite rgb_parallel_loop by assumption. symmetry. apply rgb_serial_loop.
  - intros what. rewrite rgb_serial_loop.
    generalize (rgb.create (rgb.width input) (rgb.height input)).
    induction (all_pixels (rgb.width input) (rgb.height input)) as [|p l IH];
      intros out; [discriminate|].
    cbn [for_each]. rewrite store_pixel_samples.
    destruct (rgb.samples input kernel p) as [v|a|] eqn:E; cbn [bind];
      [apply IH| |discriminate].
    exfalso. exact (samples_no_throw _ _ _ _ E).
Qed.

Lemma wf_four_pixels : rgb.wf rgb.four_pixels.
Proof.
  unfold rgb.wf, rgb.four_pixels. cbn [rgb.width rgb.height rgb.data].
  split; [lia|]. split; [lia|]. split; [reflexivity|].
  split; [reflexivity|]. repeat constructor; lia.
Qed.

Lemma box_blur_3x3_reads : registry.reads_in_range kernels.box_blur_3x3.
Proof.
  intros kx ky. change (kernels.radius kernels.box_blur_3x3) with 1.
  change (kernels.size kernels.box_blur_3x3) with 3.
  change (Z.of_nat (length (kernels.data kernels.box_blur_3x3))) with 9. lia.
Qed.

(** The 2 x 2 image of the pixels (10, 20, 30), (40, 50, 60), (70, 80, 90)
    and (100, 110, 120) under the 3 x 3 box blur: both variants return
    the pixels (40, 50, 60), (50, 60, 70), (60, 70, 80), (70, 80, 90). *)
Lemma rgb_parallel_equals_serial_witness :
  rgb.wf rgb.four_pixels /\ registry.reads_in_range kernels.box_blur_3x3 /\
  omp.wf examples.runtime4 /\
  rgb.apply_filter_serial rgb.four_pixels kernels.box_blur_3x3
  = Ok (rgb.mkRGBImage 2 2 255 [40; 50; 60; 50; 60; 70; 60; 70; 80; 70; 80; 90]) /\
  rgb.apply_filter_parallel rgb.four_pixels kernels.box_blur_3x3
    examples.guided3 examples.runtime4
  = Ok (rgb.mkRGBImage 2 2 255 [40; 50; 60; 50; 60; 70; 60; 70; 80; 70; 80; 90]).
Proof.
  split; [exact wf_four_pixels|]. split; [exact box_blur_3x3_reads|].
  split; [exact divergence_facts.wf_runtime4|].
  assert (rgb.apply_filter_serial rgb.four_pixels kernels.box_blur_3x3
          = Ok (rgb.mkRGBImage 2 2 255
                  [40; 50; 60; 50; 60; 70; 60; 70; 80; 70; 80; 90])) as E
    by (vm_compute; reflexivity).
  split; [exact E|].
  rewrite (proj1 (rgb_parallel_equals_serial rgb.four_pixels
                    kernels.box_blur_3x3 examples.guided3 examples.runtime4
                    wf_four_pixels box_blur_3x3_reads
                    divergence_facts.wf_runtime4)).
  exact E.
Defined.

Lemma integer_samples input kernel ws d p :
  rgb.wf input -> integer.kernel kernel ws d ->
  in_bounds (rgb.width input) (rgb.height input) p ->
  rgb.samples input kernel p
  = Ok (outcomes.value
          (serial_sample (rgb.plane 0 input) kernel (fst p) (snd p)),
        outcomes.value
          (serial_sample (rgb.plane 1 input) kernel (fst p) (snd p)),
        outcomes.value
          (serial_sample (rgb.plane 2 input) kernel (fst p) (snd p))).
Proof.
  intros Hwf Hk [Hx Hy]. rewrite samples_planes by lia.
  assert (forall c, 0 <= c < 3 ->
            parallel_sample (rgb.plane c input) kernel (fst p) (snd p)
            = Ok (outcomes.value
                    (serial_sample (rgb.plane c input) kernel (fst p) (snd p))))
    as H.
  { intros c Hc. rewrite samples_agree.
    - apply serial_sample_value.
    - apply (integer_kernel_no_nan _ kernel ws d);
        [apply plane_wf; assumption|assumption|exact Hx|exact Hy]. }
  rewrite !H by lia. reflexivity.
Qed.

(** With an integer kernel the RGB filters return an image of the same
    dimensions whose red, green and blue planes are what the grayscale
    filter returns on the red, green and blue plane of the input: the
    colour filter is the grayscale filter, channel by channel. *)
Theorem rgb_filter_is_channelwise (input : rgb.RGBImage)
    (kernel : kernels.Kernel) (ws : list Z) (d : Z) (config : FilterConfig)
    (rt : omp.runtime) :
  rgb.wf input -> integer.kernel kernel ws d -> omp.wf rt ->
  exists out,
    rgb.apply_filter_serial input kernel = Ok out /\
    rgb.apply_filter_parallel input kernel config rt = Ok out /\
    rgb.wf out /\
    rgb.width out = rgb.width input /\ rgb.height out = rgb.height input /\
    rgb.max_val out = 255 /\
    apply_filter_serial (rgb.plane 0 input) kernel = Ok (rgb.plane 0 out) /\
    apply_filter_serial (rgb.plane 1 input) kernel = Ok (rgb.plane 1 out) /\
    apply_filter_serial (rgb.plane 2 input) kernel = Ok (rgb.plane 2 out).
Proof.
  intros Hwf Hk Hrt. pose proof Hwf as (Hw & Hh & Hlen & Hsz & Hd).
  set (g := fun c (p : Z * Z) =>
              outcomes.value
                (serial_sample (rgb.plane c input) kernel (fst p) (snd p))).
  assert (rgb.apply_filter_serial input kernel
          = Ok (rgb.mkRGBImage (rgb.width input) (rgb.height input) 255
                  (flat_map (fun p => [g 0 p; g 1 p; g 2 p])
                     (all_pixels (rgb.width input) (rgb.height input)))))
    as Hs.
  { rewrite rgb_serial_loop. apply store_pixel_all; [assumption..|].
    intros p Hp. apply (integer_samples input kernel ws d p); assumption. }
  destruct (plane_triples (g 0) (g 1) (g 2) (rgb.width input)
              (rgb.height input) Hw Hh) as (P0 & P1 & P2).
  eexists. split; [exact Hs|].
  split; [rewrite rgb_parallel_loop, <- rgb_serial_loop by assumption; exact Hs|].
  split.
  { unfold rgb.wf. cbn [rgb.width rgb.height rgb.data].
    split; [assumption|]. split; [assumption|]. split.
    { rewrite length_triples, length_all_pixels by assumption. nia. }
    split; [assumption|].
    apply List.Forall_forall. intros v Hv.
    apply in_flat_map in Hv as (p & _ & Hv).
    destruct Hv as [<-|[<-|[<-|[]]]]; apply serial_value_range. }
  split; [reflexivity|]. split; [reflexivity|]. split; [reflexivity|].
  rewrite P0, P1, P2.
  split; [|split]; apply apply_filter_serial_render; assumption.
Qed.

Lemma rgb_filter_is_channelwise_witness :
  rgb.wf rgb.four_pixels /\
  integer.kernel kernels.box_blur_3x3 [1; 1; 1; 1; 1; 1; 1; 1; 1] 9 /\
  omp.wf examples.runtime4 /\
  exists out,
    rgb.apply_filter_serial rgb.four_pixels kernels.box_blur_3x3 = Ok out /\
    rgb.apply_filter_parallel rgb.four_pixels kernels.box_blur_3x3
      examples.guided3 examples.runtime4 = Ok out /\
    apply_filter_serial (rgb.plane 1 rgb.four_pixels) kernels.box_blur_3x3
    = Ok (rgb.plane 1 out).
Proof.
  split; [exact wf_four_pixels|].
  split; [exact flat_facts.box_blur_3x3_integer|].
  split; [exact divergence_facts.wf_runtime4|].
  destruct (rgb_filter_is_channelwise rgb.four_pixels kernels.box_blur_3x3
              [1; 1; 1; 1; 1; 1; 1; 1; 1] 9 examples.guided3 examples.runtime4
              wf_four_pixels flat_facts.box_blur_3x3_integer
              divergence_facts.wf_runtime4)
    as (out & Hs & Hp & _ & _ & _ & _ & _ & H1 & _).
  exists out. auto.
Defined.

(** ** The accessors of [RGBImage] *)

Lemma offset_range im x y c :
  rgb.wf im -> 0 <= x < rgb.width im -> 0 <= y < rgb.height im -> 0 <= c < 3 ->
  0 <= rgb.offset im x y c /\
  (Z.to_nat (rgb.offset im x y c) < length (rgb.data im))%nat.
Proof.
  intros (Hw & Hh & Hlen & _) Hx Hy Hc. unfold rgb.offset. split; nia.
Qed.

Lemma offset_inj im x y c x' y' c' :
  0 <= x < rgb.width im -> 0 <= x' < rgb.width im -> 0 <= y -> 0 <= y' ->
  0 <= c < 3 -> 0 <= c' < 3 ->
  Z.to_nat (rgb.offset im x y c) = Z.to_nat (rgb.offset im x' y' c') ->
  x = x' /\ y = y' /\ c = c'.
Proof.
  unfold rgb.offset. intros Hx Hx' Hy Hy' Hc Hc' E.
  assert (y * rgb.width im + x = y' * rgb.width im + x') as E1 by nia.
  assert (y = y') by nia. subst y'. repeat split; nia.
Qed.

(** Writing one component of a pixel: the component reads back, every
    other component of every pixel keeps its value, and the buffer keeps
    its shape.  A fresh image reads 0 everywhere. *)
Theorem rgb_component_round_trip (im : rgb.RGBImage) (x y v : Z) :
  rgb.wf im -> 0 <= x < rgb.width im -> 0 <= y < rgb.height im ->
  0 <= v <= 255 ->
  (rgb.r (rgb.set_r im x y v) x y = v /\
   rgb.g (rgb.set_g im x y v) x y = v /\
   rgb.b (rgb.set_b im x y v) x y = v) /\
  (rgb.g (rgb.set_r im x y v) x y = rgb.g im x y /\
   rgb.b (rgb.set_r im x y v) x y = rgb.b im x y /\
   rgb.r (rgb.set_g im x y v) x y = rgb.r im x y /\
   rgb.b (rgb.set_g im x y v) x y = rgb.b im x y /\
   rgb.r (rgb.set_b im x y v) x y = rgb.r im x y /\
   rgb.g (rgb.set_b im x y v) x y = rgb.g im x y) /\
  (forall im', im' = rgb.set_r im x y v \/ im' = rgb.set_g im x y v \/
               im' = rgb.set_b im x y v ->
     rgb.wf im' /\
     forall x' y', 0 <= x' < rgb.width im -> 0 <= y' < rgb.height im ->
       (x', y') <> (x, y) ->
       rgb.r im' x' y' = rgb.r im x' y' /\
       rgb.g im' x' y' = rgb.g im x' y' /\
       rgb.b im' x' y' = rgb.b im x' y') /\
  (rgb.wf (rgb.create (rgb.width im) (rgb.height im)) /\
   rgb.r (rgb.create (rgb.width im) (rgb.height im)) x y = 0 /\
   rgb.g (rgb.create (rgb.width im) (rgb.height im)) x y = 0 /\
   rgb.b (rgb.create (rgb.width im) (rgb.height im)) x y = 0).
Proof.
  intros Hwf Hx Hy Hv.
  change rgb.r with (rgb.component 0). change rgb.g with (rgb.component 1).
  change rgb.b with (rgb.component 2).
  change rgb.set_r with (rgb.set_component 0).
  change rgb.set_g with (rgb.set_component 1).
  change rgb.set_b with (rgb.set_component 2).
  assert (forall c c' x' y', 0 <= c < 3 -> 0 <= c' < 3 ->
            0 <= x' < rgb.width im -> 0 <= y' < rgb.height im ->
            rgb.component c' (rgb.set_component c im x y v) x' y'
            = if decide (x' = x /\ y' = y /\ c' = c) then v
              else rgb.component c' im x' y') as Hread.
  { intros c c' x' y' Hc Hc' Hx' Hy'.
    unfold rgb.component, rgb.set_component. cbn [rgb.data].
    change (rgb.offset (rgb.mkRGBImage (rgb.width im) (rgb.height im)
                          (rgb.max_val im)
                          (<[Z.to_nat (rgb.offset im x y c) := v]> (rgb.data im)))
                       x' y' c')
      with (rgb.offset im x' y' c').
    destruct (decide (x' = x /\ y' = y /\ c' = c)) as [(-> & -> & ->)|Hne].
    - apply nth_lookup_Some, list_lookup_insert_eq.
      apply offset_range; assumption.
    - rewrite !nth_lookup. rewrite list_lookup_insert_ne; [reflexivity|].
      intros E. apply Hne.
      apply (offset_inj im x y c x' y' c') in E; try lia. }
  assert (forall c, 0 <= c < 3 -> rgb.wf (rgb.set_component c im x y v))
    as Hkeep.
  { intros c Hc. destruct Hwf as (Hw & Hh & Hlen & Hsz & Hd).
    unfold rgb.wf, rgb.set_component. cbn [rgb.width rgb.height rgb.data].
    rewrite length_insert.
    split; [assumption|]. split; [assumption|]. split; [assumption|].
    split; [assumption|]. apply Forall_insert; assumption. }
  split; [|split; [|split]].
  - rewrite (Hread 0 0), (Hread 1 1), (Hread 2 2) by lia.
    rewrite !decide_True by auto. auto.
  - rewrite (Hread 0 1), (Hread 0 2), (Hread 1 0), (Hread 1 2),
            (Hread 2 0), (Hread 2 1) by lia.
    rewrite !decide_False by lia. auto 10.
  - intros im' Him'. split.
    + destruct Him' as [ -> | [ -> | -> ] ]; apply Hkeep; lia.
    + intros x' y' Hx' Hy' Hne.
      assert (forall c c' : Z, ~ (x' = x /\ y' = y /\ c' = c)) as Hn
        by (intros c c' (-> & -> & _); apply Hne; reflexivity).
      destruct Him' as [ -> | [ -> | -> ] ];
        rewrite !Hread by lia; rewrite !decide_False by apply Hn; auto.
  - destruct Hwf as (Hw & Hh & Hlen & Hsz & Hd).
    unfold rgb.component, rgb.create, rgb.wf, rgb.offset.
    cbn [rgb.width rgb.height rgb.data].
    split.
    { split; [assumption|]. split; [assumption|]. split.
      { rewrite length_replicate. nia. }
      split; [assumption|]. apply Forall_replicate. lia. }
    rewrite !nth_lookup, !lookup_replicate_2 by nia. auto.
Qed.

Lemma rgb_component_round_trip_witness :
  rgb.wf rgb.four_pixels /\ 0 <= 1 < rgb.width rgb.four_pixels /\
  0 <= 0 < rgb.height rgb.four_pixels /\ 0 <= 7 <= 255 /\
  rgb.g (rgb.set_g rgb.four_pixels 1 0 7) 1 0 = 7.
Proof.
  split; [exact wf_four_pixels|]. split; [simpl; lia|]. split; [simpl; lia|].
  split; [lia|].
  exact (proj1 (proj2 (proj1
           (rgb_component_round_trip rgb.four_pixels 1 0 7 wf_four_pixels
              ltac:(simpl; lia) ltac:(simpl; lia) ltac:(lia))))).
Defined.

End rgb_facts.

(* ===================================================================== *)
(** * The thread counts of the benchmark *)
(* ===================================================================== *)

Module benchmark_facts.
Import benchmark.

Lemma powers_snoc k :
  0 <= k ->
  map (Z.pow 2) (seqZ 0 k) ++ [2 ^ k] = map (Z.pow 2) (seqZ 0 (k + 1)).
Proof.
  intros Hk. rewrite (seqZ_app 0 k 1) by lia.
  rewrite map_app. reflexivity.
Qed.

(** The loop collects the powers of two up to the number of threads. *)
Lemma doubling_powers max_threads :
  1 <= max_threads < 2 ^ 30 ->
  forall fuel k,
    1 <= k <= Z.log2 max_threads + 1 ->
    (Z.to_nat (Z.log2 max_threads + 2 - k) <= fuel)%nat ->
    doubling fuel (2 ^ k) max_threads (map (Z.pow 2) (seqZ 0 k))
    = Ok (map (Z.pow 2) (seqZ 0 (Z.log2 max_threads + 1))).
Proof.
  intros Hm.
  pose proof (Z.log2_nonneg max_threads) as HL0.
  assert (Z.log2 max_threads < 30) as HL by (apply Z.log2_lt_pow2; lia).
  induction fuel as [|fuel IH]; intros k Hk Hf; [lia|].
  cbn [doubling].
  destruct (Z.leb_spec (2 ^ k) max_threads) as [Hle|Hgt].
  - apply Z.log2_le_pow2 in Hle; [|lia].
    assert (2 * 2 ^ k <= int_max) as Hov.
    { unfold int_max. rewrite <- Z.pow_succ_r by lia.
      assert (2 ^ Z.succ k <= 2 ^ 30) by (apply Z.pow_le_mono_r; lia). lia. }
    apply Z.leb_le in Hov. rewrite Hov.
    rewrite powers_snoc by lia. rewrite <- Z.pow_succ_r by lia.
    apply IH; lia.
  - assert (k = Z.log2 max_threads + 1) as ->; [|reflexivity].
    destruct (Z_le_gt_dec k (Z.log2 max_threads)) as [Hc|]; [exfalso|lia].
    apply Z.log2_le_pow2 in Hc; lia.
Qed.

Lemma powers_sorted n : forall a,
  0 <= a -> StronglySorted Z.lt (map (Z.pow 2) (seqZ a (Z.of_nat n))).
Proof.
  induction n as [|n IH]; intros a Ha; [constructor|].
  rewrite seqZ_cons by lia.
  replace (Z.pred (Z.of_nat (S n))) with (Z.of_nat n) by lia.
  cbn [map]. constructor; [apply IH; lia|].
  apply List.Forall_forall. intros v Hv.
  apply in_map_iff in Hv as (j & <- & Hj).
  apply list_elem_of_In, elem_of_seqZ in Hj.
  apply Z.pow_lt_mono_r; lia.
Qed.

Lemma sorted_snoc (l : list Z) (x : Z) :
  StronglySorted Z.lt l -> Forall (fun v => v < x) l ->
  StronglySorted Z.lt (l ++ [x]).
Proof.
  induction 1 as [|a l Hs IH Ha]; intros Hx; cbn [app].
  - repeat constructor.
  - inversion Hx as [|? ? Hax Hx']; subst.
    constructor; [apply IH; assumption|].
    apply Forall_app. split; [assumption|]. constructor; [assumption|constructor].
Qed.

(** [standard_thread_counts] returns the powers of two up to the number
    of threads the runtime allows, followed by that number when it is not
    a power of two: the list begins with 1, ends with the number of
    threads and increases strictly.  From [2^30] threads on the doubling
    of the loop variable overflows. *)
Theorem standard_thread_counts_shape (rt : omp.runtime) :
  1 <= omp.max_threads rt <= int_max ->
  let n := omp.max_threads rt in
  (n < 2 ^ 30 ->
   exists counts,
     standard_thread_counts rt = Ok counts /\
     counts = map (Z.pow 2) (seqZ 0 (Z.log2 n + 1))
              ++ (if 2 ^ Z.log2 n =? n then [] else [n]) /\
     List.hd 0 counts = 1 /\ List.last counts 0 = n /\
     StronglySorted Z.lt counts /\
     (forall c, In c counts -> 1 <= c <= n) /\
     (forall k, 0 <= k -> 2 ^ k <= n -> In (2 ^ k) counts)) /\
  (2 ^ 30 <= n -> standard_thread_counts rt = Undefined).
Proof.
  intros Hn n. split.
  - intros H30.
    pose proof (Z.log2_nonneg n) as HL0.
    destruct (Z.log2_spec n ltac:(lia)) as [HLlo HLhi].
    set (L := Z.log2 n) in *.
    assert (doubling 32 2 n [1] = Ok (map (Z.pow 2) (seqZ 0 (L + 1)))) as Hd.
    { assert (L < 30) by (apply Z.log2_lt_pow2; lia).
      apply (doubling_powers n ltac:(lia) 32 1); fold L; lia. }
    assert (List.last (map (Z.pow 2) (seqZ 0 (L + 1))) 0 = 2 ^ L) as Hlast.
    { rewrite <- powers_snoc by lia. apply last_last. }
    assert (List.hd 0 (map (Z.pow 2) (seqZ 0 (L + 1))) = 1) as Hhd.
    { rewrite seqZ_cons by lia. reflexivity. }
    assert (forall c, In c (map (Z.pow 2) (seqZ 0 (L + 1))) -> 1 <= c <= 2 ^ L)
      as Hrange.
    { intros c Hc. apply in_map_iff in Hc as (j & <- & Hj).
      apply list_elem_of_In, elem_of_seqZ in Hj. split.
      - assert (0 < 2 ^ j) by (apply Z.pow_pos_nonneg; lia). lia.
      - apply Z.pow_le_mono_r; lia. }
    assert (forall k, 0 <= k -> 2 ^ k <= n ->
              In (2 ^ k) (map (Z.pow 2) (seqZ 0 (L + 1)))) as Hpow.
    { intros k Hk Hle. apply in_map. apply list_elem_of_In, elem_of_seqZ.
      apply Z.log2_le_pow2 in Hle; [fold L in Hle|]; lia. }
    assert (StronglySorted Z.lt (map (Z.pow 2) (seqZ 0 (L + 1)))) as Hsorted.
    { replace (L + 1) with (Z.of_nat (Z.to_nat (L + 1))) by lia.
      apply powers_sorted. lia. }
    unfold standard_thread_counts. fold n. cbv zeta. rewrite Hd. cbn [bind].
    rewrite Hlast. destruct (Z.eqb_spec (2 ^ L) n) as [E|Hne]; cbn [negb].
    + eexists. split; [reflexivity|]. rewrite app_nil_r.
      split; [reflexivity|]. split; [exact Hhd|]. split; [rewrite Hlast; exact E|].
      split; [exact Hsorted|]. split; [|exact Hpow].
      intros c Hc. specialize (Hrange c Hc). lia.
    + eexists. split; [reflexivity|]. split; [reflexivity|].
      split; [|split; [apply last_last|split; [|split]]].
      * rewrite seqZ_cons by lia. reflexivity.
      * apply sorted_snoc; [exact Hsorted|].
        apply List.Forall_forall. intros c Hc. specialize (Hrange c Hc). lia.
      * intros c Hc. apply in_app_or in Hc as [Hc|[<-|[]]]; [|lia].
        specialize (Hrange c Hc). lia.
      * intros k Hk Hle. apply in_or_app. left. apply Hpow; assumption.
  - intros H30. unfold standard_thread_counts. fold n. cbv zeta.
    assert (forall fuel k counts, (0 < fuel)%nat ->
              (Z.to_nat (30 - k) < fuel)%nat -> 1 <= k <= 30 ->
              doubling fuel (2 ^ k) n counts = Undefined) as H.
    { induction fuel as [|fuel IH]; intros k counts Hf Hk Hk30; [lia|].
      cbn [doubling].
      assert (2 ^ k <= 2 ^ 30) as Hle by (apply Z.pow_le_mono_r; lia).
      destruct (Z.leb_spec (2 ^ k) n) as [_|Hgt]; [|lia].
      destruct (Z.eq_dec k 30) as [->|Hne].
      - reflexivity.
      - assert (2 ^ Z.succ k <= 2 ^ 30) as Hs by (apply Z.pow_le_mono_r; lia).
        rewrite Z.pow_succ_r in Hs by lia.
        destruct (Z.leb_spec (2 * 2 ^ k) int_max) as [_|Hov];
          [|reflexivity].
        rewrite <- Z.pow_succ_r by lia. apply IH; lia. }
    pose proof (H 32%nat 1 [1] ltac:(lia) ltac:(lia) ltac:(lia)) as H1.
    change (2 ^ 1) with 2 in H1. rewrite H1. reflexivity.
Qed.

Lemma standard_thread_counts_shape_witness :
  1 <= omp.max_threads (omp.mkRuntime 6 omp.STATIC [] []) <= int_max /\
  standard_thread_counts (omp.mkRuntime 6 omp.STATIC [] []) = Ok [1; 2; 4; 6].
Proof.
  split; [vm_compute; split; discriminate|].
  destruct (proj1 (standard_thread_counts_shape
                     (omp.mkRuntime 6 omp.STATIC [] [])
                     ltac:(vm_compute; split; discriminate))
                  ltac:(vm_compute; reflexivity))
    as (counts & Hc & -> & _).
  exact Hc.
Defined.

End benchmark_facts.

(* ===================================================================== *)
(** * Sobel: the gradient magnitude, in integers *)
(* ===================================================================== *)

Module magnitude_facts.
Import ieee grid filter store_facts float_facts exact_facts rounding_facts.
Import value_facts saturation_facts filter_facts convolution_facts.
Import integer_facts quotient_facts sobel_facts.

Local Abbreviation num m e := (inject_Z (Z.pos m) * 2 ^ e)%Q.
Local Abbreviation is_int32 := (ieee.is_int 24 128).

(** A value from below and from above, through the mantissa. *)
Lemma num_ge m e k :
  e <= 0 -> k * 2 ^ (- e) <= Z.pos m -> (inject_Z k <= num m e)%Q.
Proof.
  intros He H. rewrite Zle_Qle, inject_Z_mult, pow2_inject in H by lia.
  pose proof (pow2_pos e) as P. pose proof (pow2_opp e) as Eo.
  assert (inject_Z k == inject_Z k * 2 ^ (- e) * 2 ^ e)%Q as ->.
  { rewrite <- Qmult_assoc, (Qmult_comm (2 ^ (- e))), Eo. ring. }
  apply Qmult_le_compat_r; [exact H|apply Qlt_le_weak; exact P].
Qed.

Lemma num_lt m e k :
  e <= 0 -> Z.pos m < k * 2 ^ (- e) -> (num m e < inject_Z k)%Q.
Proof.
  intros He H. rewrite Zlt_Qlt, inject_Z_mult, pow2_inject in H by lia.
  pose proof (pow2_pos e) as P. pose proof (pow2_opp e) as Eo.
  assert (inject_Z k == inject_Z k * 2 ^ (- e) * 2 ^ e)%Q as ->.
  { rewrite <- Qmult_assoc, (Qmult_comm (2 ^ (- e))), Eo. ring. }
  apply Qmult_lt_compat_r; [exact P|exact H].
Qed.

(** The [float] square root of a positive integer below [2^24] lies in
    the same unit interval as the exact one, up to 2047. *)
Lemma SFsqrt_floor32 n :
  0 < n < 2 ^ 24 ->
  exists m e,
    f32.sqrt (f32.of_int n) = S754_finite false m e /\
    Zdigits2 (Z.pos m) = 24 /\
    (inject_Z (Z.sqrt n) <= num m e)%Q /\
    (Z.sqrt n < 2047 -> (num m e < inject_Z (Z.sqrt n) + 1)%Q).
Proof.
  intros Hn.
  assert (2 ^ 24 = 16777216) as E24 by reflexivity.
  pose proof (of_int32 n ltac:(lia)) as Hi.
  destruct (f32.of_int n) as [s|s| |s mn en] eqn:En;
    simpl in Hi; try contradiction; try lia.
  pose proof (is_int_exp 24 128 _ _ _ _ Hi) as Hen.
  destruct Hi as (_ & Hs & He0 & Hm & _ & _).
  assert (s = false) as -> by (rewrite Hs; apply Z.ltb_ge; lia).
  rewrite Z.abs_eq in Hen, Hm by lia.
  pose proof (Zdigits2_pos n ltac:(lia)) as D1.
  pose proof (Zdigits2_lt_pow n 24 ltac:(lia) ltac:(lia)) as D2.
  assert (en = Zdigits2 n - 24) as Een.
  { rewrite Hen. unfold fexp, emin. lia. }
  assert (Zdigits2 (Z.pos mn) = 24) as Dm.
  { rewrite Hm, Zdigits2_mul_pow by lia. lia. }
  unfold f32.sqrt, SFsqrt, SFsqrt_core_binary. rewrite Dm.
  set (e' := Z.min (fexp f32.prec f32.emax (Z.div2 (24 + en + 1))) (Z.div2 en)).
  assert (Z.div2 (24 + en + 1) * 2 <= 24 + en + 1 <= Z.div2 (24 + en + 1) * 2 + 1)
    as Hh.
  { rewrite Z.div2_div. pose proof (Z.div_mod (24 + en + 1) 2 ltac:(lia)).
    pose proof (Z.mod_pos_bound (24 + en + 1) 2 ltac:(lia)). lia. }
  assert (Z.div2 en * 2 <= en <= Z.div2 en * 2 + 1) as Hh2.
  { rewrite Z.div2_div. pose proof (Z.div_mod en 2 ltac:(lia)).
    pose proof (Z.mod_pos_bound en 2 ltac:(lia)). lia. }
  assert (e' = Z.div2 (24 + en + 1) - 24) as Ee'.
  { unfold e', fexp, emin, f32.prec, f32.emax. lia. }
  clearbody e'.
  assert (- 23 <= e' <= - 12) as Re' by lia.
  set (s := en - 2 * e').
  assert (23 <= s <= 24) as Rs by (unfold s; lia).
  set (m' := match s with
             | 0 => Z.pos mn
             | Z.pos _ => Z.shiftl (Z.pos mn) s
             | Z.neg _ => 0
             end).
  assert (m' = Z.pos mn * 2 ^ s) as Em'.
  { unfold m'. clearbody s. destruct s as [|p|p]; try lia.
    rewrite Z.shiftl_mul_pow2 by lia. reflexivity. }
  clearbody m'.
  set (S := 2 ^ (- e')).
  assert (0 < S) as PS by (apply Z.pow_pos_nonneg; lia).
  assert (2 ^ 12 <= S) as S12 by (apply Z.pow_le_mono_r; lia).
  assert (m' = n * (S * S)) as Em.
  { rewrite Em', Hm. unfold S. rewrite <- Z.pow_add_r by lia.
    rewrite <- Z.mul_assoc, <- Z.pow_add_r by lia. do 2 f_equal. unfold s. lia. }
  assert (2 ^ (23 + s) <= m' < 2 ^ (24 + s)) as Bm'.
  { pose proof (Zdigits2_bounds (Z.pos mn) ltac:(lia)) as B. rewrite Dm in B.
    change (24 - 1) with 23 in B. rewrite Em', !Z.pow_add_r by lia.
    assert (0 < 2 ^ s) by (apply Z.pow_pos_nonneg; lia). nia. }
  pose proof (Z.sqrtrem_spec m' ltac:(lia)) as Hsq.
  destruct (Z.sqrtrem m') as [q r]. destruct Hsq as [Hq Hr].
  set (l := if r =? 0 then loc_Exact
            else loc_Inexact (if r <=? q then Lt else Gt)).
  clearbody l.
  assert (2 ^ 23 <= q < 2 ^ 24) as Bq.
  { assert (2 ^ 46 <= m' < 2 ^ 48) as B2.
    { destruct Bm' as [B1 B2].
      assert (2 ^ 46 <= 2 ^ (23 + s)) by (apply Z.pow_le_mono_r; lia).
      assert (2 ^ (24 + s) <= 2 ^ 48) by (apply Z.pow_le_mono_r; lia). lia. }
    change (2 ^ 46) with (2 ^ 23 * 2 ^ 23) in B2.
    change (2 ^ 48) with (2 ^ 24 * 2 ^ 24) in B2.
    assert (0 < 2 ^ 23) by reflexivity. assert (0 < 2 ^ 24) by reflexivity.
    split; nia. }
  assert (Zdigits2 q = 24) as Dq by (apply Zdigits2_unique; lia).
  destruct (binary_round_aux_near 24 128 prec32 q e' l ltac:(lia)
              ltac:(lia)) as (m & e & E & D & _ & Hcase).
  { rewrite Dq. unfold emin. lia. }
  { rewrite Dq. lia. }
  rewrite Dq in Hcase. change (24 - 24) with 0 in Hcase.
  rewrite Z.shiftr_0_r, Z.add_0_r in Hcase.
  exists m, e. split; [exact E|]. split; [exact D|].
  pose proof (Z.sqrt_spec n ltac:(lia)) as [K1 K2].
  pose proof (Z.sqrt_nonneg n) as K0.
  set (K := Z.sqrt n) in *.
  assert (0 <= q) as Hq0 by lia.
  assert (2 ^ (- (e' + 1)) * 2 = S) as ES.
  { unfold S. replace (- e') with (- (e' + 1) + 1) by lia.
    rewrite Z.pow_add_r by lia. reflexivity. }
  assert (forall k, k * 2 ^ (- e') = k * S) as EeS by reflexivity.
  assert (q * q <= n * (S * S) < (q + 1) * (q + 1)) as Hqq by lia.
  assert (4096 <= S) as S4096 by exact S12.
  clearbody K S. clear - K0 K1 K2 Hq0 Hqq S4096 Re' E D Hcase ES EeS Hn PS.
  assert (K * S <= q) as Hlow.
  { destruct (Z_le_gt_dec (K * S) q) as [|Hgt]; [assumption|exfalso].
    assert (q + 1 <= K * S) as H1 by lia.
    assert ((q + 1) * (q + 1) <= (K * S) * (K * S)) as H2
      by (apply Z.mul_le_mono_nonneg; lia).
    assert (K * S * (K * S) = K * K * (S * S)) as H3 by ring.
    assert (K * K * (S * S) <= n * (S * S)) as H4
      by (apply Z.mul_le_mono_nonneg_r; nia).
    lia. }
  assert (K < 2047 -> q + 2 <= (K + 1) * S) as Hup.
  { intros HK. destruct (Z_le_gt_dec (q + 2) ((K + 1) * S)) as [|Hgt];
      [assumption|exfalso].
    set (T := (K + 1) * S) in *.
    assert (1 <= T) as HT by (unfold T; nia).
    assert (T - 1 <= q) as Hq1 by lia.
    assert ((T - 1) * (T - 1) <= q * q) as Hsq
      by (apply Z.mul_le_mono_nonneg; lia).
    assert (n + 1 <= (K + 1) * (K + 1)) as Hn1 by (unfold Z.succ in K2; lia).
    assert ((n + 1) * (S * S) <= (K + 1) * (K + 1) * (S * S)) as H5
      by (apply Z.mul_le_mono_nonneg_r; nia).
    assert ((K + 1) * (K + 1) * (S * S) = T * T) as H6 by (unfold T; ring).
    assert (S * S + 1 <= 2 * T) as Hc by lia.
    assert (S * 4096 <= S * S) as H7 by (apply Z.mul_le_mono_nonneg_l; lia).
    assert (T <= 2048 * S) as H8
      by (unfold T; apply Z.mul_le_mono_nonneg_r; lia).
    lia. }
  destruct Hcase as [(-> & Hm')|(-> & Hm2 & Hcarry)].
  - split.
    + apply num_ge; [lia|]. rewrite EeS. lia.
    + intros HK. specialize (Hup HK).
      assert (inject_Z K + 1 == inject_Z (K + 1))%Q as ->
        by (rewrite inject_Z_plus; reflexivity).
      apply num_lt; [lia|]. rewrite EeS. lia.
  - change (24 - 1) with 23 in Hm2. change (2 ^ 23) with 8388608 in Hm2.
    split.
    + apply num_ge; [lia|]. nia.
    + intros HK. specialize (Hup HK).
      assert (inject_Z K + 1 == inject_Z (K + 1))%Q as ->
        by (rewrite inject_Z_plus; reflexivity).
      apply num_lt; [lia|]. nia.
Qed.

Lemma fold_pair {B : Type} (F0 F1 : f32.t -> B -> f32.t) l :
  forall a b,
  fold_left (fun (g : f32.t * f32.t) k => (F0 (fst g) k, F1 (snd g) k)) l (a, b)
  = (fold_left F0 l a, fold_left F1 l b).
Proof. induction l as [|k l IH]; intros a b; simpl; [reflexivity|apply IH]. Qed.

Lemma sobel_weights kx ky :
  In kx (range (-1) 2) -> In ky (range (-1) 2) ->
  f32.of_int (at2 sobel_x (ky + 1) (kx + 1))
  = kernels.at_ kernels.sobel_x_3x3 (kx + 1) (ky + 1) /\
  f32.of_int (at2 sobel_y (ky + 1) (kx + 1))
  = kernels.at_ kernels.sobel_y_3x3 (kx + 1) (ky + 1).
Proof.
  intros Hx Hy. apply In_range in Hx, Hy.
  assert (kx = -1 \/ kx = 0 \/ kx = 1) as [->|[->| ->]] by lia;
    assert (ky = -1 \/ ky = 0 \/ ky = 1) as [->|[->| ->]] by lia;
    split; reflexivity.
Qed.

(** The two gradients are the sums of the filters "sobel_x" and
    "sobel_y". *)
Lemma sobel_sample_conv input x y :
  sobel_sample input x y
  = let gx := conv_sum input kernels.sobel_x_3x3 x y in
    let gy := conv_sum input kernels.sobel_y_3x3 x y in
    u8_of_float
      (f32.min f255 (f32.sqrt (f32.add (f32.mul gx gx) (f32.mul gy gy)))).
Proof.
  unfold sobel_sample.
  match goal with
  | |- (let '(_, _) := ?A in _) = _ =>
      assert (A = (conv_sum input kernels.sobel_x_3x3 x y,
                   conv_sum input kernels.sobel_y_3x3 x y)) as ->;
        [|reflexivity]
  end.
  unfold conv_sum. cbv zeta.
  change (kernels.radius kernels.sobel_x_3x3) with 1.
  change (kernels.radius kernels.sobel_y_3x3) with 1.
  change (range (- (1)) (1 + 1)) with (range (-1) 2).
  set (L := range (-1) 2).
  set (P := fun kx ky =>
              f32.of_int
                (img.pixel input
                   (Z.max 0 (Z.min (x + kx) (img.width input - 1)))
                   (Z.max 0 (Z.min (y + ky) (img.height input - 1))))).
  set (F := fun (k : kernels.Kernel) (ky : Z) (s : f32.t) (kx : Z) =>
              f32.add s (f32.mul (P kx ky) (kernels.at_ k (kx + 1) (ky + 1)))).
  transitivity
    (fold_left (fun (g : f32.t * f32.t) ky =>
                  (fold_left (F kernels.sobel_x_3x3 ky) L (fst g),
                   fold_left (F kernels.sobel_y_3x3 ky) L (snd g)))
               L (f32.zero, f32.zero)).
  - apply fold_left_ext_in. intros [a b] ky Hky. cbn [fst snd].
    rewrite <- (fold_pair (F kernels.sobel_x_3x3 ky) (F kernels.sobel_y_3x3 ky)
                  L a b).
    apply fold_left_ext_in. intros [a' b'] kx Hkx. cbn [fst snd]. unfold F, P.
    destruct (sobel_weights kx ky Hkx Hky) as [-> ->]. reflexivity.
  - apply (fold_pair (fun s ky => fold_left (F kernels.sobel_x_3x3 ky) L s)
                     (fun s ky => fold_left (F kernels.sobel_y_3x3 ky) L s)).
Qed.

Lemma sobel_x_3x3_integer :
  integer.kernel kernels.sobel_x_3x3 [-1; 0; 1; -2; 0; 2; -1; 0; 1] 1.
Proof.
  unfold integer.kernel. split; [reflexivity|]. split; [reflexivity|].
  vm_compute. repeat split; congruence.
Qed.

Lemma sobel_y_3x3_integer :
  integer.kernel kernels.sobel_y_3x3 [-1; -2; -1; 0; 0; 0; 1; 2; 1] 1.
Proof.
  unfold integer.kernel. split; [reflexivity|]. split; [reflexivity|].
  vm_compute. repeat split; congruence.
Qed.

(** One sample of the Sobel operator. *)
Lemma sobel_sample_magnitude input x y :
  img.wf input -> 0 <= x < img.width input -> 0 <= y < img.height input ->
  let gx := integer.weighted_sum input kernels.sobel_x_3x3
              [-1; 0; 1; -2; 0; 2; -1; 0; 1] x y in
  let gy := integer.weighted_sum input kernels.sobel_y_3x3
              [-1; -2; -1; 0; 0; 0; 1; 2; 1] x y in
  sobel_sample input x y = Ok (Z.min 255 (Z.sqrt (gx * gx + gy * gy))).
Proof.
  intros Hwf Hx Hy gx gy. rewrite sobel_sample_conv. cbv zeta.
  destruct (conv_sum_exact input _ _ _ x y Hwf sobel_x_3x3_integer Hx Hy)
    as [Ix Bx].
  destruct (conv_sum_exact input _ _ _ x y Hwf sobel_y_3x3_integer Hx Hy)
    as [Iy By].
  fold gx in Ix, Bx. fold gy in Iy, By.
  change (255 * integer.sum (map Z.abs [-1; 0; 1; -2; 0; 2; -1; 0; 1]))
    with 2040 in Bx.
  change (255 * integer.sum (map Z.abs [-1; -2; -1; 0; 0; 0; 1; 2; 1]))
    with 2040 in By.
  clearbody gx gy.
  assert (2 ^ 24 = 16777216) as E24 by reflexivity.
  assert (0 <= gx * gx <= 2040 * 2040) as Sx by nia.
  assert (0 <= gy * gy <= 2040 * 2040) as Sy by nia.
  set (n := gx * gx + gy * gy).
  assert (0 <= n < 2 ^ 24) as Hn by (unfold n; lia).
  assert (is_int32 (f32.add (f32.mul (conv_sum input kernels.sobel_x_3x3 x y)
                                     (conv_sum input kernels.sobel_x_3x3 x y))
                            (f32.mul (conv_sum input kernels.sobel_y_3x3 x y)
                                     (conv_sum input kernels.sobel_y_3x3 x y)))
                   n) as In.
  { apply (add_exact 24 128 prec32 emax32);
      [apply (mul_exact 24 128 prec32 emax32); [assumption..|lia]
      |apply (mul_exact 24 128 prec32 emax32); [assumption..|lia]
      |fold n; lia]. }
  set (v := f32.add _ _) in *. clearbody v n.
  destruct (Z.eq_dec n 0) as [->|Hn0].
  - destruct v as [s|s| |s m e]; simpl in In; try contradiction; [|lia].
    destruct s; reflexivity.
  - assert (v = f32.of_int n) as ->.
    { apply (is_int_unique 24 128 _ _ n); [exact Hn0|exact In|].
      apply of_int32. lia. }
    destruct (SFsqrt_floor32 n ltac:(lia)) as (m & e & E & D & Hlo & Hhi).
    rewrite E, (min_saturation (S754_finite false m e) eq_refl).
    pose proof (Z.sqrt_nonneg n) as K0.
    destruct (Z_le_gt_dec (Z.sqrt n) 254) as [Hk|Hk].
    + rewrite (saturation_floor m e (Z.sqrt n) D ltac:(lia) Hlo
                 (Hhi ltac:(lia))).
      f_equal. lia.
    + rewrite (saturation_high m e D).
      * f_equal. lia.
      * eapply Qle_trans; [|exact Hlo].
        change 255%Q with (inject_Z 255). rewrite <- Zle_Qle. lia.
Qed.

(** Sobel edge detection stores at every pixel the integer part of the
    gradient magnitude [sqrt (gx^2 + gy^2)], saturated at 255, where [gx]
    and [gy] are the integer sums of the kernels "sobel_x" and "sobel_y"
    over the clamped neighbourhood: the [float] square root loses
    nothing.  A pixel is black exactly when both gradients vanish.  The
    parallel function returns the same image. *)
Theorem sobel_gradient_magnitude (input : img.GrayscaleImage)
    (config : FilterConfig) (rt : omp.runtime) :
  img.wf input -> omp.wf rt ->
  exists out,
    sobel_edge_detection_serial input = Ok out /\
    sobel_edge_detection_parallel input config rt = Ok out /\
    forall x y, 0 <= x < img.width input -> 0 <= y < img.height input ->
      let gx := integer.weighted_sum input kernels.sobel_x_3x3
                  [-1; 0; 1; -2; 0; 2; -1; 0; 1] x y in
      let gy := integer.weighted_sum input kernels.sobel_y_3x3
                  [-1; -2; -1; 0; 0; 0; 1; 2; 1] x y in
      img.pixel out x y = Z.min 255 (Z.sqrt (gx * gx + gy * gy)) /\
      (img.pixel out x y = 0 <-> gx = 0 /\ gy = 0).
Proof.
  intros Hwf Hrt. pose proof Hwf as (Hw & Hh & _).
  rewrite sobel_parallel_loop by assumption. rewrite sobel_serial_loop.
  rewrite (store_all (sobel_sample input)
             (fun p => outcomes.value (sobel_sample input (fst p) (snd p))))
    by (try assumption; intros p _; apply sobel_sample_value).
  eexists. split; [reflexivity|]. split; [reflexivity|].
  intros x y Hx Hy gx gy. rewrite pixel_render by assumption. cbn [fst snd].
  rewrite (sobel_sample_magnitude input x y Hwf Hx Hy). cbn [outcomes.value].
  fold gx gy. split; [reflexivity|].
  set (n := gx * gx + gy * gy).
  assert (0 <= n) as Hn by (unfold n; nia).
  pose proof (Z.sqrt_spec n Hn) as [K1 K2]. pose proof (Z.sqrt_nonneg n) as K0.
  split.
  - intros H0. assert (Z.sqrt n = 0) as E0 by lia.
    rewrite E0 in K2. change (Z.succ 0 * Z.succ 0) with 1 in K2.
    assert (n = 0) as En by lia. unfold n in En. nia.
  - intros [-> ->]. reflexivity.
Qed.

Lemma sobel_gradient_magnitude_witness :
  img.wf examples.sparse /\ omp.wf examples.runtime4 /\
  exists out,
    sobel_edge_detection_serial examples.sparse = Ok out /\
    sobel_edge_detection_parallel examples.sparse examples.guided3
      examples.runtime4 = Ok out /\
    img.pixel out 3 0 = 255 /\ img.pixel out 4 0 = 0.
Proof.
  assert (img.wf examples.sparse) as Hwf.
  { unfold img.wf, examples.sparse. cbn [img.width img.height img.data].
    split; [lia|]. split; [lia|]. split; [reflexivity|].
    split; [reflexivity|]. repeat constructor; lia. }
  split; [exact Hwf|]. split; [exact divergence_facts.wf_runtime4|].
  destruct (sobel_gradient_magnitude examples.sparse examples.guided3
              examples.runtime4 Hwf divergence_facts.wf_runtime4)
    as (out & Hs & Hp & Hpix).
  exists out. split; [exact Hs|]. split; [exact Hp|]. split.
  - exact (proj1 (Hpix 3 0 ltac:(simpl; lia) ltac:(simpl; lia))).
  - exact (proj1 (Hpix 4 0 ltac:(simpl; lia) ltac:(simpl; lia))).
Defined.

End magnitude_facts.

(* ===================================================================== *)
(** * Statistics: the mean lies between the extremes *)
(* ===================================================================== *)

Module mean_facts.
Import ieee reduce float_facts exact_facts value_facts saturation_facts.
Import statistics_facts variance_facts quotient_facts.

Local Abbreviation num m e := (inject_Z (Z.pos m) * 2 ^ e)%Q.
Local Abbreviation eps64 := (2 ^ (1 - 53))%Q.

(** Two positive normal numbers compare like their values. *)
Lemma leb_of_value p m1 e1 m2 e2 :
  0 < p -> Zdigits2 (Z.pos m1) = p -> Zdigits2 (Z.pos m2) = p ->
  (num m1 e1 <= num m2 e2)%Q ->
  SFleb (S754_finite false m1 e1) (S754_finite false m2 e2) = true.
Proof.
  intros Hp D1 D2 H. unfold SFleb. rewrite SFcompare_pos.
  pose proof (Zdigits2_bounds (Z.pos m1) ltac:(lia)) as [L1 U1].
  pose proof (Zdigits2_bounds (Z.pos m2) ltac:(lia)) as [L2 U2].
  rewrite D1 in L1, U1. rewrite D2 in L2, U2.
  pose proof (pow2_pos e1) as P1. pose proof (pow2_pos e2) as P2.
  destruct (Z.compare_spec e1 e2) as [E|E|E]; [|reflexivity|exfalso].
  - subst e2.
    destruct (Z.compare_spec (Z.pos m1) (Z.pos m2)) as [| |Hgt];
      try reflexivity. exfalso.
    rewrite Zlt_Qlt in Hgt.
    assert (num m2 e1 < num m1 e1)%Q
      by (apply Qmult_lt_compat_r; assumption).
    apply (Qlt_irrefl (num m1 e1)). eapply Qle_lt_trans; eassumption.
  - pose proof (pow2_le (e2 + 1) e1 ltac:(lia)) as Hle.
    rewrite pow2_add in Hle. change (2 ^ 1)%Q with 2%Q in Hle.
    assert (2 ^ p = 2 * 2 ^ (p - 1)) as E2.
    { replace p with (1 + (p - 1)) at 1 by lia.
      rewrite Z.pow_add_r by lia. reflexivity. }
    assert (Z.pos m2 < 2 * Z.pos m1) as Hm by lia.
    rewrite Zlt_Qlt, inject_Z_mult in Hm. change (inject_Z 2) with 2%Q in Hm.
    assert (0 < inject_Z (Z.pos m1))%Q as Q1
      by (change 0%Q with (inject_Z 0); rewrite <- Zlt_Qlt; lia).
    set (a := inject_Z (Z.pos m1)) in *. set (b := inject_Z (Z.pos m2)) in *.
    set (x := (2 ^ e1)%Q) in *. set (y := (2 ^ e2)%Q) in *.
    clearbody a b x y.
    assert (b * y < 2 * a * y)%Q by (apply Qmult_lt_compat_r; assumption).
    assert (a * (y * 2) <= a * x)%Q
      by (apply Qmult_le_l; assumption).
    nra.
Qed.

Lemma eps64_inverse : (eps64 * inject_Z (2 ^ 52) == 1)%Q.
Proof. reflexivity. Qed.

(** A quotient of integers whose exact value lies between two bytes is
    rounded to a [double] between them. *)
Lemma SFdiv_between a b lo hi :
  0 < b < 2 ^ 31 -> 0 <= lo -> hi <= 255 -> lo * b <= a <= hi * b ->
  f64.leb (f64.of_int lo) (f64.div (f64.of_int a) (f64.of_int b)) = true /\
  f64.leb (f64.div (f64.of_int a) (f64.of_int b)) (f64.of_int hi) = true.
Proof.
  intros Hb Hlo Hhi Hab.
  assert (2 ^ 31 = 2147483648) as E31 by reflexivity.
  assert (lo <= hi) as Hlh by nia.
  assert (0 <= a) as Ha0 by nia.
  assert (a < 2 ^ 39) as Ha39.
  { change (2 ^ 39) with (256 * 2 ^ 31). nia. }
  assert (2 ^ 39 < 2 ^ 53) as H3953 by reflexivity.
  assert (2 ^ 31 < 2 ^ 53) as H3153 by reflexivity.
  assert (256 < 2 ^ 53) as H853 by reflexivity.
  destruct (of_int64_value b ltac:(lia)) as (mb & eb & Eb & Db & Rb & Vb).
  destruct (Z.eq_dec a 0) as [->|Ha].
  { assert (lo = 0) as -> by nia. rewrite Eb.
    split; [reflexivity|].
    destruct (Z.eq_dec hi 0) as [->|Hh0]; [reflexivity|].
    destruct (of_int64_value hi ltac:(lia)) as (mh & eh & Eh & _).
    rewrite Eh. reflexivity. }
  destruct (of_int64_value a ltac:(lia)) as (ma & ea & Ea & Da & Ra & Va).
  assert (SpecFloat.emin 53 1024 = - 1074) as Emin by reflexivity.
  destruct (SFdiv_value 53 1024 prec64 ma ea mb eb Da Db)
    as (m & e & E & Dm & _ & B1 & B2 & B3); [rewrite Emin; lia|lia|].
  rewrite Va, Vb in B1, B2.
  assert (f64.div (f64.of_int a) (f64.of_int b) = S754_finite false m e) as Ev.
  { unfold f64.div, f64.prec, f64.emax. rewrite Ea, Eb. exact E. }
  assert (0 < inject_Z b)%Q as Pb
    by (change 0%Q with (inject_Z 0); rewrite <- Zlt_Qlt; lia).
  set (x := (inject_Z a / inject_Z b)%Q) in *.
  assert (x * inject_Z b == inject_Z a)%Q as Ex.
  { unfold x. field. intros E0. rewrite E0 in Pb. exact (Qlt_irrefl 0 Pb). }
  assert (forall k, 0 <= k <= 255 ->
            (inject_Z k * inject_Z b * eps64 <= 1)%Q) as Hke.
  { intros k Hk.
    assert (k * b <= 2 ^ 52) as H.
    { change (2 ^ 52) with (2097152 * 2 ^ 31). nia. }
    rewrite Zle_Qle, inject_Z_mult in H.
    pose proof eps64_inverse as Ei.
    set (e64 := eps64) in *. set (p := inject_Z (2 ^ 52)) in *.
    assert (0 <= e64)%Q as He64 by (apply Qlt_le_weak, pow2_pos).
    clearbody e64 p.
    assert (inject_Z k * inject_Z b * e64 <= p * e64)%Q
      by (apply Qmult_le_compat_r; assumption).
    nra. }
  assert (0 < eps64)%Q as He64 by apply pow2_pos.
  split.
  - (* the least sample *)
    destruct (Z.eq_dec lo 0) as [->|Hl0]; [rewrite Ev; reflexivity|].
    destruct (Z.eq_dec a (lo * b)) as [Eab|Hne].
    + assert (f64.div (f64.of_int a) (f64.of_int b) = f64.of_int lo) as ->.
      { apply (is_int_unique 53 1024 _ _ lo); [exact Hl0| |apply of_int64; lia].
        apply (div_exact 53 1024 prec64 emax64 _ _ a b lo);
          [apply of_int64; lia|apply of_int64; lia|lia|exact Eab|lia]. }
      destruct (of_int64_value lo ltac:(lia)) as (ml & el & El & Dl & _ & _).
      rewrite El. apply (leb_of_value 53); [lia|assumption..|apply Qle_refl].
    + destruct (of_int64_value lo ltac:(lia)) as (ml & el & El & Dl & _ & Vl).
      rewrite El, Ev. apply (leb_of_value 53); [lia|assumption..|].
      rewrite Vl.
      assert (inject_Z (lo * b) + 1 <= inject_Z a)%Q as Hq.
      { change 1%Q with (inject_Z 1).
        rewrite <- inject_Z_plus, <- Zle_Qle. lia. }
      rewrite inject_Z_mult in Hq.
      specialize (Hke lo ltac:(lia)).
      assert (0 <= inject_Z lo)%Q as Pl
        by (change 0%Q with (inject_Z 0); rewrite <- Zle_Qle; lia).
      set (e64 := eps64) in *. set (B := inject_Z b) in *.
      set (A := inject_Z a) in *. set (Lo := inject_Z lo) in *.
      set (v := num m e) in *. clearbody e64 B A Lo v x.
      destruct (Qlt_le_dec v Lo) as [Hlt|]; [exfalso|assumption].
      assert (x * B <= v * (1 + e64) * B)%Q as H1.
      { apply Qmult_le_compat_r; [exact B2|apply Qlt_le_weak; exact Pb]. }
      assert (v * ((1 + e64) * B) < Lo * ((1 + e64) * B))%Q as H2.
      { apply Qmult_lt_compat_r; [nra|exact Hlt]. }
      nra.
  - (* the greatest sample *)
    assert (0 < hi) as Hh0 by nia.
    destruct (of_int64_value hi ltac:(lia)) as (mh & eh & Eh & Dh & _ & Vh).
    destruct (Z.eq_dec a (hi * b)) as [Eab|Hne].
    + assert (f64.div (f64.of_int a) (f64.of_int b) = f64.of_int hi) as ->.
      { apply (is_int_unique 53 1024 _ _ hi); [lia| |apply of_int64; lia].
        apply (div_exact 53 1024 prec64 emax64 _ _ a b hi);
          [apply of_int64; lia|apply of_int64; lia|lia|exact Eab|lia]. }
      rewrite Eh. apply (leb_of_value 53); [lia|assumption..|apply Qle_refl].
    + rewrite Eh, Ev. apply (leb_of_value 53); [lia|assumption..|].
      rewrite Vh.
      assert (inject_Z a + 1 <= inject_Z (hi * b))%Q as Hq.
      { change 1%Q with (inject_Z 1).
        rewrite <- inject_Z_plus, <- Zle_Qle. lia. }
      rewrite inject_Z_mult in Hq.
      specialize (Hke hi ltac:(lia)).
      set (e64 := eps64) in *. set (B := inject_Z b) in *.
      set (A := inject_Z a) in *. set (Hi := inject_Z hi) in *.
      set (v := num m e) in *. clearbody e64 B A Hi v x.
      destruct (Qlt_le_dec Hi v) as [Hgt|]; [exfalso|assumption].
      assert (v * B <= x * (1 + e64) * B)%Q as H1.
      { apply Qmult_le_compat_r; [exact B1|apply Qlt_le_weak; exact Pb]. }
      assert (Hi * B < v * B)%Q as H2
        by (apply Qmult_lt_compat_r; assumption).
      assert (x * (1 + e64) * B == A * (1 + e64))%Q as H3
        by (rewrite <- Ex; ring).
      nra.
Qed.

Lemma SFcompare_antisym x y :
  SFcompare y x = option_map CompOpp (SFcompare x y).
Proof.
  destruct x as [[]|[]| |[] mx ex], y as [[]|[]| |[] my ey]; try reflexivity;
    cbn [SFcompare option_map];
    rewrite (Z.compare_antisym ex ey);
    destruct (ex ?= ey); cbn [CompOpp]; try reflexivity;
    change (PosDef.Pos.compare_cont Eq my mx) with (Pos.compare my mx);
    change (PosDef.Pos.compare_cont Eq mx my) with (Pos.compare mx my);
    rewrite (Pos.compare_antisym mx my);
    destruct (Pos.compare mx my); reflexivity.
Qed.

(** [x <= y] excludes [y < x]. *)
Lemma leb_not_ltb x y : SFleb x y = true -> SFltb y x = false.
Proof.
  unfold SFleb, SFltb. rewrite (SFcompare_antisym x y).
  destruct (SFcompare x y) as [[]|]; cbn [option_map CompOpp];
    intros H; try discriminate H; reflexivity.
Qed.

Lemma sum_between (lo hi : Z) (l : list Z) :
  Forall (fun v => lo <= v <= hi) l ->
  lo * Z.of_nat (length l) <= integer.sum l <= hi * Z.of_nat (length l).
Proof.
  induction 1 as [|v l Hv _ IH]; unfold integer.sum in *; simpl length;
    cbn [fold_right]; lia.
Qed.

(** The mean that [compute_statistics_parallel] returns lies between the
    least and the greatest sample it returns, by the comparisons of
    [double]: the rounding of the division never carries the mean past
    an extreme.  This holds for every image that is not empty, every
    team size, schedule and order in which the threads combine. *)
Theorem mean_between_min_and_max (im : img.GrayscaleImage) (rt : omp.runtime) :
  img.wf im -> omp.wf rt -> img.data im <> [] ->
  let s := compute_statistics_parallel im rt in
  f64.leb (min_val s) (mean s) = true /\
  f64.leb (mean s) (max_val s) = true /\
  f64.leb (min_val s) (max_val s) = true /\
  f64.ltb (mean s) (min_val s) = false /\
  f64.ltb (max_val s) (mean s) = false.
Proof.
  intros Hwf Hrt Hne s. unfold s.
  rewrite (statistics_final.compute_statistics_parallel_value im rt Hwf Hrt Hne).
  cbv zeta. cbn [min_val max_val mean].
  destruct Hwf as (Hw & Hh & Hlen & Hsz & Hd).
  set (data := img.data im) in *.
  set (n := Z.of_nat (length data)).
  assert (0 < n < 2 ^ 31) as Hn.
  { unfold n. destruct data; [congruence|]. simpl length in *. lia. }
  pose proof (minimum_bytes data Hd) as Hlo.
  pose proof (maximum_bytes data Hd) as Hhi.
  assert (Forall (fun v => integer.minimum data <= v <= integer.maximum data)
                 data) as Hall.
  { pose proof (minimum_least data) as H1.
    pose proof (maximum_greatest data) as H2.
    rewrite List.Forall_forall in *. intros v Hv. split; auto. }
  pose proof (sum_between _ _ data Hall) as Hsum. fold n in Hsum.
  destruct (SFdiv_between (integer.sum data) n (integer.minimum data)
              (integer.maximum data) Hn ltac:(lia) ltac:(lia) Hsum)
    as [L1 L2].
  assert (integer.minimum data <= integer.maximum data) as Hmm.
  { destruct data as [|v data']; [congruence|].
    inversion Hall as [|? ? Hv _]; subst. lia. }
  assert (256 < 2 ^ 53) as H853 by reflexivity.
  split; [exact L1|]. split; [exact L2|]. split.
  { unfold f64.leb, SFleb.
    rewrite (compare_exact 53 1024 _ _ (integer.minimum data)
               (integer.maximum data)) by (apply of_int64; lia).
    destruct (Z.compare_spec (integer.minimum data) (integer.maximum data));
      try reflexivity; lia. }
  split; apply leb_not_ltb; assumption.
Qed.

Lemma mean_between_min_and_max_witness :
  img.wf examples.ramp /\ omp.wf examples.runtime4 /\
  img.data examples.ramp <> [] /\
  f64.leb (min_val (compute_statistics_parallel examples.ramp examples.runtime4))
          (mean (compute_statistics_parallel examples.ramp examples.runtime4))
  = true /\
  f64.leb (mean (compute_statistics_parallel examples.ramp examples.runtime4))
          (max_val (compute_statistics_parallel examples.ramp examples.runtime4))
  = true.
Proof.
  assert (img.data examples.ramp <> []) as Hne by discriminate.
  split; [exact image_facts.wf_ramp_image|].
  split; [exact divergence_facts.wf_runtime4|]. split; [exact Hne|].
  destruct (mean_between_min_and_max examples.ramp examples.runtime4
              image_facts.wf_ramp_image divergence_facts.wf_runtime4 Hne)
    as (H1 & H2 & _).
  split; [exact H1|exact H2].
Defined.

Lemma constant_moments (c : Z) (l : list Z) :
  Forall (fun v => v = c) l -> 0 <= c <= 255 -> l <> [] ->
  integer.sum l = Z.of_nat (length l) * c /\
  integer.sum_sq l = Z.of_nat (length l) * (c * c) /\
  integer.minimum l = c /\ integer.maximum l = c.
Proof.
  intros H Hc. induction H as [|v l Hv Hl IH]; intros Hne; [congruence|].
  subst v. destruct l as [|w l].
  - unfold integer.sum, integer.sum_sq, integer.sum, integer.minimum,
      integer.maximum. simpl. lia.
  - destruct IH as (Is & Iq & Imin & Imax); [discriminate|].
    unfold integer.sum, integer.sum_sq, integer.sum, integer.minimum,
      integer.maximum in *.
    cbn [map fold_right] in *. simpl length in *. lia.
Qed.

(** On an image whose samples all equal [c] the statistics are exact:
    the least sample, the greatest sample and the mean are [c], and the
    variance is the positive zero, for every team size, schedule and
    combining order. *)
Theorem statistics_of_constant_image (im : img.GrayscaleImage) (c : Z)
    (rt : omp.runtime) :
  img.wf im -> omp.wf rt -> img.data im <> [] -> img.constant im c ->
  compute_statistics_parallel im rt
  = mkStatistics (f64.of_int c) (f64.of_int c) (f64.of_int c) (S754_zero false).
Proof.
  intros Hwf Hrt Hne Hc.
  rewrite (statistics_final.compute_statistics_parallel_value im rt Hwf Hrt Hne).
  cbv zeta. destruct Hwf as (Hw & Hh & Hlen & Hsz & Hd).
  unfold img.constant in Hc.
  set (data := img.data im) in *.
  set (n := Z.of_nat (length data)).
  assert (0 < n < 2 ^ 31) as Hn.
  { unfold n. destruct data; [congruence|]. simpl length in *. lia. }
  assert (0 <= c <= 255) as Hc255.
  { destruct data as [|v data']; [congruence|].
    pose proof (List.Forall_inv Hc) as Ev. pose proof (List.Forall_inv Hd) as Hv.
    cbv beta in Ev, Hv. lia. }
  destruct (constant_moments c data Hc Hc255 Hne) as (-> & -> & -> & ->).
  fold n.
  pose proof (variance_result.variance_constant c n Hc255 Hn) as Hvar.
  cbv zeta in Hvar. rewrite Hvar. f_equal.
  assert (2 ^ 31 = 2147483648) as E31 by reflexivity.
  assert (2 ^ 39 < 2 ^ 53) as E53 by reflexivity.
  assert (n * c < 2 ^ 39) as Hnc by (change (2 ^ 39) with (256 * 2 ^ 31); nia).
  destruct (Z.eq_dec c 0) as [->|Hc0].
  { destruct (of_int64_shape n ltac:(lia)) as (mn & en & En).
    rewrite Z.mul_0_r, En. reflexivity. }
  apply (is_int_unique 53 1024 _ _ c Hc0); [|apply of_int64; lia].
  apply (div_exact 53 1024 prec64 emax64 _ _ (n * c) n c);
    [apply of_int64; nia|apply of_int64; lia|lia|lia|lia].
Qed.

Lemma statistics_of_constant_image_witness :
  img.wf examples.flat_8x8 /\ omp.wf examples.runtime4 /\
  img.data examples.flat_8x8 <> [] /\ img.constant examples.flat_8x8 77 /\
  compute_statistics_parallel examples.flat_8x8 examples.runtime4
  = mkStatistics (f64.of_int 77) (f64.of_int 77) (f64.of_int 77)
      (S754_zero false).
Proof.
  assert (img.wf examples.flat_8x8) as Hwf.
  { unfold img.wf, examples.flat_8x8. cbn [img.width img.height img.data].
    split; [lia|]. split; [lia|]. split; [reflexivity|].
    split; [reflexivity|]. apply Forall_replicate. lia. }
  assert (img.constant examples.flat_8x8 77) as Hc.
  { unfold img.constant, examples.flat_8x8. cbn [img.data].
    apply Forall_replicate. reflexivity. }
  assert (img.data examples.flat_8x8 <> []) as Hne by discriminate.
  split; [exact Hwf|]. split; [exact divergence_facts.wf_runtime4|].
  split; [exact Hne|]. split; [exact Hc|].
  exact (statistics_of_constant_image examples.flat_8x8 77 examples.runtime4
           Hwf divergence_facts.wf_runtime4 Hne Hc).
Defined.

End mean_facts.

